(** * RemBG: luminance matte, despill and pipeline

    A shallow embedding of the background-removal core shared by
    [app.py] (the Flask entry point) and [rembg_app.py] (the Tk desktop
    entry point):

    - [Float]   : NumPy's [float32] arithmetic, as correctly rounded
                  operations on rationals (round to nearest, ties to even);
    - [Matte]   : [remove_dark_bg], [remove_light_bg] pixel by pixel;
    - [Sessions], [Requests] : the lazy model cache [get_session] and
                  its interleavings;
    - [Web], [Desktop], [Batch] : the two pipelines that dispatch on the
                  mode, and the loop of the desktop worker;
    - [Queue], [Sizes] : the file queue and [human_size] of the desktop
                  entry point. *)

From stdpp Require Import gmap strings pretty.
From Stdlib Require Import ZArith QArith Qround Qabs Qpower Qminmax Lia Lqa List.
Import ListNotations.

(** ** Binary floating point, round to nearest even *)

Module Float.
Local Open Scope Q_scope.

(** Nearest integer, ties to the even one. *)
Definition rne (x : Q) : Z :=
  let f := Qfloor x in
  match Qcompare (x - inject_Z f) (1 # 2) with
  | Lt => f
  | Gt => (f + 1)%Z
  | Eq => if Z.even f then f else (f + 1)%Z
  end.

Definition pow2 (e : Z) : Q := 2 ^ e.

(** [mag x] is the exponent [e] with [2^(e-1) <= x < 2^e], for [0 < x]. *)
Definition mag (x : Q) : Z :=
  let k := (Z.log2 (Qnum x) - Z.log2 (Zpos (Qden x)))%Z in
  if Qle_bool (pow2 k) x then (k + 1)%Z else k.

Section Format.
(** A binary format: [prec] bits of significand, least exponent [emin]. *)
Variables prec emin : Z.

Definition cexp (x : Q) : Z := Z.max (mag x - prec) emin.

Definition round_pos (x : Q) : Q :=
  inject_Z (rne (x / pow2 (cexp x))) * pow2 (cexp x).

Definition round (x : Q) : Q :=
  match Qcompare x 0 with
  | Eq => 0
  | Gt => round_pos x
  | Lt => - round_pos (- x)
  end.
End Format.

(** IEEE 754 binary32 and binary64. Overflow is left out: what the two
    routines compute from bytes, and from a threshold and a softness
    below 2^24, stays far below 2^128. *)
Definition rnd32 : Q -> Q := round 24 (-149).
Definition rnd64 : Q -> Q := round 53 (-1074).

(** A Python [float] literal used against a [float32] array: parsed to
    binary64, then converted to binary32 by NumPy. *)
Definition literal (q : Q) : Q := Qred (rnd32 (rnd64 q)).

(** A Python [int] or an 8-bit channel used against a [float32] array. *)
Definition of_int (z : Z) : Q := Qred (rnd32 (inject_Z z)).

Definition fadd (x y : Q) : Q := Qred (rnd32 (x + y)).
Definition fsub (x y : Q) : Q := Qred (rnd32 (x - y)).
Definition fmul (x y : Q) : Q := Qred (rnd32 (x * y)).
Definition fdiv (x y : Q) : Q := Qred (rnd32 (x / y)).

(** [np.clip(x, lo, hi)] is [minimum(maximum(x, lo), hi)]. *)
Definition clip (x lo hi : Q) : Q := Qmin (Qmax x lo) hi.

(** [astype(np.uint8)] on a value already in [0, 255]: the C conversion
    drops the fraction. *)
Definition astype_uint8 (x : Q) : Z :=
  if Qle_bool 0 x then Qfloor x else Qceiling x.

(** The array comparisons [x > y] and [x < y]. *)
Definition Qlt_bool (x y : Q) : bool := negb (Qle_bool y x).

End Float.


(** ** The luminance matte: [remove_dark_bg] and [remove_light_bg]

    Both entry points carry the same two functions, line for line; one
    embedding serves [app.py] and [rembg_app.py]. *)

Module Matte.
Import Float.
Local Open Scope Q_scope.

(** An RGBA pixel with 8-bit channels. *)
Record Pixel := mkPixel { chR : Z; chG : Z; chB : Z; chA : Z }.

Definition byte (z : Z) : Prop := (0 <= z <= 255)%Z.

Definition valid_pixel (p : Pixel) : Prop :=
  byte (chR p) /\ byte (chG p) /\ byte (chB p) /\ byte (chA p).

(** A PIL image: its mode, its size and its pixels in row-major order.
    [pixels] is the RGBA reading of the image, the one
    [img.convert("RGBA")] hands to NumPy, so [convert] only retags. *)
Record Image := mkImage {
  mode : string;
  width : nat;
  height : nat;
  pixels : list Pixel
}.

Definition size (img : Image) : nat * nat := (width img, height img).

Definition convert (m : string) (img : Image) : Image :=
  {| mode := m; width := width img; height := height img; pixels := pixels img |}.

(** [lum = 0.2126 * r + 0.7152 * g + 0.0722 * b] on [float32] arrays. *)
Definition luminance (r g b : Q) : Q :=
  fadd (fadd (fmul (literal (2126 # 10000)) r) (fmul (literal (7152 # 10000)) g))
       (fmul (literal (722 # 10000)) b).

(** [(lum - threshold) / soft * 255.0], before clipping. *)
Definition dark_ramp (lum : Q) (threshold softness : Z) : Q :=
  let soft := Z.max softness 1 in
  fmul (fdiv (fsub lum (of_int threshold)) (of_int soft)) (literal 255).

(** [alpha = np.clip((lum - threshold) / soft * 255.0, 0.0, 255.0)] *)
Definition dark_alpha (lum : Q) (threshold softness : Z) : Q :=
  clip (dark_ramp lum threshold softness) (literal 0) (literal 255).

(** [alpha = np.clip((threshold - lum) / soft * 255.0 + 255.0, 0.0, 255.0)] *)
Definition light_alpha (lum : Q) (threshold softness : Z) : Q :=
  let soft := Z.max softness 1 in
  clip (fadd (fmul (fdiv (fsub (of_int threshold) lum) (of_int soft)) (literal 255))
             (literal 255))
       (literal 0) (literal 255).

(** [mask = (alpha > 0) & (alpha < 200)] *)
Definition mask (alpha : Q) : bool :=
  Qlt_bool (of_int 0) alpha && Qlt_bool alpha (of_int 200).

(** [factor = 1.3] *)
Definition factor : Q := literal (13 # 10).

(** [np.clip(m + (data[:, :, ch] - m) * factor, 0, 255)], where [m] is
    [mx] in dark mode and [mn] in light mode. *)
Definition despill_channel (m ch : Q) : Q :=
  clip (fadd m (fmul (fsub ch m) factor)) (of_int 0) (of_int 255).

(** [np.where(mask, despilled, data[:, :, ch])] *)
Definition np_where (c : bool) (x y : Q) : Q := if c then x else y.

(** One pixel of [remove_dark_bg]. *)
Definition dark_pixel (threshold softness : Z) (despill : bool) (p : Pixel) : Pixel :=
  let r := of_int (chR p) in
  let g := of_int (chG p) in
  let b := of_int (chB p) in
  let lum := luminance r g b in
  let alpha := dark_alpha lum threshold softness in
  let m := despill && mask alpha in
  let mx := Qmax r (Qmax g b) in
  {| chR := astype_uint8 (np_where m (despill_channel mx r) r);
     chG := astype_uint8 (np_where m (despill_channel mx g) g);
     chB := astype_uint8 (np_where m (despill_channel mx b) b);
     chA := astype_uint8 alpha |}.

(** One pixel of [remove_light_bg]. *)
Definition light_pixel (threshold softness : Z) (despill : bool) (p : Pixel) : Pixel :=
  let r := of_int (chR p) in
  let g := of_int (chG p) in
  let b := of_int (chB p) in
  let lum := luminance r g b in
  let alpha := light_alpha lum threshold softness in
  let m := despill && mask alpha in
  let mn := Qmin r (Qmin g b) in
  {| chR := astype_uint8 (np_where m (despill_channel mn r) r);
     chG := astype_uint8 (np_where m (despill_channel mn g) g);
     chB := astype_uint8 (np_where m (despill_channel mn b) b);
     chA := astype_uint8 alpha |}.

Definition remove_dark_bg (img : Image) (threshold softness : Z) (despill : bool) : Image :=
  let rgba := convert "RGBA" img in
  {| mode := "RGBA"; width := width rgba; height := height rgba;
     pixels := map (dark_pixel threshold softness despill) (pixels rgba) |}.

Definition remove_light_bg (img : Image) (threshold softness : Z) (despill : bool) : Image :=
  let rgba := convert "RGBA" img in
  {| mode := "RGBA"; width := width rgba; height := height rgba;
     pixels := map (light_pixel threshold softness despill) (pixels rgba) |}.

(** The luminance the code computes for a pixel. *)
Definition pixel_lum (p : Pixel) : Q :=
  luminance (of_int (chR p)) (of_int (chG p)) (of_int (chB p)).

Definition rgb (p : Pixel) : Z * Z * Z := (chR p, chG p, chB p).

(** An opaque grey pixel, for the scenarios. *)
Definition grey (v : Z) : Pixel := mkPixel v v v 255.

(** The despill rule in the words of the specification,
    [clamp(m + (channel - m) * 1.3, 0, 255)], in exact arithmetic. *)
Definition despill_rule (m ch : Z) : Q :=
  Qmin (Qmax (inject_Z m + (inject_Z ch - inject_Z m) * (13 # 10)) 0) 255.

(** The luminance in the words of the specification, BT.709:
    [0.2126 R + 0.7152 G + 0.0722 B], in exact arithmetic. *)
Definition bt709 (p : Pixel) : Q :=
  (2126 # 10000) * inject_Z (chR p) + (7152 # 10000) * inject_Z (chG p)
  + (722 # 10000) * inject_Z (chB p).

(** [data[:, :, ch]] for [ch in [0, 1, 2]], and 3 for alpha. *)
Definition channel (ch : nat) (p : Pixel) : Z :=
  match ch with
  | 0%nat => chR p
  | 1%nat => chG p
  | 2%nat => chB p
  | _ => chA p
  end.

(** [mx] and [mn] of a pixel. *)
Definition mx_of (p : Pixel) : Z := Z.max (chR p) (Z.max (chG p) (chB p)).
Definition mn_of (p : Pixel) : Z := Z.min (chR p) (Z.min (chG p) (chB p)).

(** The 256 values of a channel, and what the despill of one channel
    value [ch] around [m] is compared with, pair by pair: the float32
    result stays within 2^-16 of the rule; below [m] its byte is the
    floor of the rule and does not exceed [ch]; above [m] its byte is
    the floor of the rule or one less, and not below [ch]. *)
Definition all_bytes : list Z := map Z.of_nat (seq 0 256).

Definition despill_entry_ok (m ch : Z) : bool :=
  let v := despill_channel (inject_Z m) (inject_Z ch) in
  let b := astype_uint8 v in
  let e := despill_rule m ch in
  Qle_bool (Qabs (v - e)) (1 # 65536)
  && (if (ch <=? m)%Z
      then (b =? Qfloor e)%Z && (0 <=? b)%Z && (b <=? ch)%Z
      else true)
  && (if (m <=? ch)%Z
      then (ch <=? b)%Z && (b <=? 255)%Z && (Qfloor e - 1 <=? b)%Z && (b <=? Qfloor e)%Z
      else true).

(** What the three float32 products of the luminance are compared with,
    byte by byte: none is negative, and each stays within 2^-17, 2^-15
    and 2^-18 of the exact product. *)
Definition lum_entry_ok (v : Z) : bool :=
  let x := inject_Z v in
  let a := fmul (literal (2126 # 10000)) x in
  let b := fmul (literal (7152 # 10000)) x in
  let c := fmul (literal (722 # 10000)) x in
  Qle_bool 0 a && Qle_bool (Qabs (a - (2126 # 10000) * x)) (1 # 131072)
  && Qle_bool 0 b && Qle_bool (Qabs (b - (7152 # 10000) * x)) (1 # 32768)
  && Qle_bool 0 c && Qle_bool (Qabs (c - (722 # 10000) * x)) (1 # 262144).

End Matte.

(** ** The world outside: rembg and Pillow

    [rembg.new_session], [rembg.remove] and Pillow's resampling are not
    code of this repository; the pipelines are embedded over any
    behaviour of theirs. *)

Module Sessions.

(** A loaded model. [serial] tells two objects built for one identifier
    apart: it is the number of sessions built before this one. *)
Record Session := mkSession { model_id : string; serial : nat }.

(** The module-level [_session_cache], with the record of every session
    [new_session] has built so far. *)
Record Store := mkStore {
  cache : gmap string Session;
  built : list Session
}.

Definition empty_store : Store := mkStore ∅ [].

(** How many sessions were built for [name]. *)
Definition constructions (name : string) (st : Store) : nat :=
  length (List.filter (fun s => String.eqb (model_id s) name) (built st)).

(** [new_session(model_name)]: [loadable] says whether the model artifact
    can be loaded; [None] is the exception it raises otherwise. *)
Definition new_session (loadable : string -> bool) (model_name : string) (st : Store)
  : option Session * Store :=
  if loadable model_name then
    let s := mkSession model_name (length (built st)) in
    (Some s, mkStore (cache st) (built st ++ [s]))
  else (None, st).

(** [get_session], run without interruption. *)
Definition get_session (loadable : string -> bool) (model_name : string) (st : Store)
  : option Session * Store :=
  match cache st !! model_name with
  | None =>
      match new_session loadable model_name st with
      | (Some s, st1) =>
          let st2 := mkStore (<[model_name := s]> (cache st1)) (built st1) in
          (cache st2 !! model_name, st2)
      | (None, st1) => (None, st1)
      end
  | Some _ => (cache st !! model_name, st)
  end.

(** [get_session] statement by statement, for requests served by
    several threads. *)
Inductive Pc :=
| AtTest                  (* [if model_name not in _session_cache:] *)
| AtNew                   (* [new_session(model_name)] *)
| AtAssign (s : Session)  (* [_session_cache[model_name] = ...] *)
| AtReturn                (* [return _session_cache[model_name]] *)
| Returned (s : Session)
| Raised.

Record Thread := mkThread { model_name : string; pc : Pc }.

Definition thread_step (loadable : string -> bool) (st : Store) (t : Thread)
  : option (Store * Thread) :=
  let name := model_name t in
  match pc t with
  | AtTest =>
      match cache st !! name with
      | None => Some (st, mkThread name AtNew)
      | Some _ => Some (st, mkThread name AtReturn)
      end
  | AtNew =>
      match new_session loadable name st with
      | (Some s, st1) => Some (st1, mkThread name (AtAssign s))
      | (None, st1) => Some (st1, mkThread name Raised)
      end
  | AtAssign s =>
      Some (mkStore (<[name := s]> (cache st)) (built st), mkThread name AtReturn)
  | AtReturn =>
      match cache st !! name with
      | Some s => Some (st, mkThread name (Returned s))
      | None => Some (st, mkThread name Raised)
      end
  | Returned _ | Raised => None
  end.

Record System := mkSystem { shared : Store; threads : list Thread }.

(** Thread [i] runs its next statement. *)
Definition step (loadable : string -> bool) (i : nat) (sys : System) : option System :=
  match threads sys !! i with
  | None => None
  | Some t =>
      match thread_step loadable (shared sys) t with
      | None => None
      | Some (st, t') => Some (mkSystem st (<[i := t']> (threads sys)))
      end
  end.

(** A schedule names the thread that moves at each instant. *)
Fixpoint run (loadable : string -> bool) (schedule : list nat) (sys : System)
  : option System :=
  match schedule with
  | [] => Some sys
  | i :: rest =>
      match step loadable i sys with
      | None => None
      | Some sys' => run loadable rest sys'
      end
  end.

Definition finished (t : Thread) : bool :=
  match pc t with Returned _ | Raised => true | _ => false end.

(** Two first requests for [a] and [b] arriving together. *)
Definition two_requests (a b : string) : System :=
  mkSystem empty_store [mkThread a AtTest; mkThread b AtTest].

End Sessions.

Module External.
Import Matte Sessions.

Record Env := mkEnv {
  (** can [rembg.new_session(name)] load the model? *)
  loadable : string -> bool;
  (** [rembg.remove(img, session=, alpha_matting=, ..foreground_threshold=,
      ..background_threshold=, ..erode_size=)]; [None] when it raises, for
      instance on a picture whose data cannot be decoded. Mode and size
      of the image it returns are the model's business. *)
  rembg_remove : Image -> option Session -> bool -> Z -> Z -> Z -> option Image;
  (** the pixels [Image.resize(size, Image.LANCZOS)] computes *)
  lanczos : Image -> nat -> nat -> list Pixel
}.

(** [img.resize(size, Image.LANCZOS)] *)
Definition resize (env : Env) (img : Image) (sz : nat * nat) : Image :=
  {| mode := mode img; width := fst sz; height := snd sz;
     pixels := lanczos env img (fst sz) (snd sz) |}.

(** The tail both [remove_ai_bg] share: normalise mode, then size. *)
Definition normalise (env : Env) (img result : Image) : Image :=
  let result := if String.eqb (mode result) "RGBA" then result else convert "RGBA" result in
  if decide (size result = size img) then result else resize env result (size img).

(** A stand-in world for the scenarios: every model loads; the model
    answers with one pixel in mode "LA", so that both normalisations
    run; resampling fills the new size with one grey. *)
Definition one_pixel_model : Env :=
  {| loadable := fun _ => true;
     rembg_remove := fun _ _ _ _ _ _ => Some (mkImage "LA" 1 1 [grey 255]);
     lanczos := fun _ w h => repeat (grey 128) (w * h) |}.

(** A picture of two pixels, black and white. *)
Definition two_pixels : Image := mkImage "RGB" 2 1 [grey 0; grey 255].

End External.

(** ** [app.py]: the [/process] route *)

Module Web.
Import Matte Sessions External.

Definition ALLOWED_EXT : list string :=
  [".jpg"; ".jpeg"; ".png"; ".webp"; ".bmp"; ".tiff"; ".tif"]%string.

(** The uploaded file: its name, [Path(secure_filename(name))]'s suffix
    (lower case) and stem, its length, what [Image.open] makes of its
    bytes ([None]: it raises), and whether [img.convert("RGBA")] can
    read its pixels. [Image.open] reads the header only: mode and size
    are known from then on; the data is decoded when it is first read,
    in the luminance routines by [img.convert], which raises for a file
    that is cut short. *)
Record Upload := mkUpload {
  filename : string;
  suffix : string;
  stem : string;
  raw_len : nat;
  opened : option Image;
  decodes : bool
}.

(** The request: the length of its body, the uploaded file, and the form
    after [request.form.get] has filled in the defaults and
    [.lower() == "true"] has read the flags. [form_threshold] and
    [form_softness] are what [int(...)] makes of the two fields: [None]
    when it raises [ValueError]. *)
Record Request := mkRequest {
  content_length : nat;
  file : option Upload;
  form_mode : string;
  form_threshold : option Z;
  form_softness : option Z;
  form_despill : bool;
  form_model : string;
  form_alpha : bool
}.

Inductive Body :=
| RequestTooLarge  (* the framework's 413: the body exceeds MAX_CONTENT_LENGTH *)
| NoFile           (* "Dosya bulunamadi" *)
| EmptyName        (* "Bos dosya adi" *)
| BadFormat (ext : string)
| ServerError      (* the framework's 500: an exception left the view *)
| TooLarge
| CannotOpen       (* "Resim acilamadi" *)
| InvalidMode      (* "Gecersiz mod" *)
| ProcessingFailed (* "Islem basarisiz: ..." *)
| Png (img : Image) (download_name : string).

Record Response := mkResponse { status : nat; body : Body }.

(** Which helper a request ran. *)
Inductive Call := CallDark | CallLight | CallAi (model : string).

Record State := mkState { sessions : Store; calls : list Call }.

Definition ran (c : Call) (st : State) : State :=
  mkState (sessions st) (calls st ++ [c]).

(** [remove_ai_bg(img, model, alpha_matting)] *)
Definition remove_ai_bg (env : Env) (img : Image) (model : string) (alpha_matting : bool)
  (st : Store) : option Image * Store :=
  match get_session (loadable env) model st with
  | (None, st1) => (None, st1)
  | (Some session, st1) =>
      match rembg_remove env img (Some session) alpha_matting 240 10 10 with
      | None => (None, st1)
      | Some result => (Some (normalise env img result), st1)
      end
  end.

Definition clamp_threshold (threshold : Z) : Z := Z.max 0 (Z.min threshold 255).
Definition clamp_softness (softness : Z) : Z := Z.max 1 (Z.min softness 200).

(** [app.config["MAX_CONTENT_LENGTH"] = MAX_FILE_BYTES + 512] *)
Definition MAX_CONTENT_LENGTH (MAX_FILE_BYTES : nat) : nat := (MAX_FILE_BYTES + 512)%nat.

(** The same request with other integers in the threshold and softness
    fields. *)
Definition with_params (req : Request) (threshold softness : Z) : Request :=
  mkRequest (content_length req) (file req) (form_mode req) (Some threshold) (Some softness)
            (form_despill req) (form_model req) (form_alpha req).

(** An upload of [two_pixels] as "logo.png", with the form defaults. *)
Definition logo_request (mode : string) : Request :=
  mkRequest 1200 (Some (mkUpload "logo.png" ".png" "logo" 1000 (Some two_pixels) true))
            mode (Some 35%Z) (Some 25%Z) true "silueta" false.

(** [process()], with [MAX_FILE_BYTES] read from the environment. The
    framework turns a body longer than [MAX_CONTENT_LENGTH] away when
    the view first reads [request.files]; the two [int(...)] stand
    before the first [try], so their [ValueError] leaves the view; a
    file that cannot be decoded raises inside the luminance helper,
    under the second [try]. *)
Definition process (env : Env) (MAX_FILE_BYTES : nat) (req : Request) (st : State)
  : Response * State :=
  if (MAX_CONTENT_LENGTH MAX_FILE_BYTES <? content_length req)%nat
  then (mkResponse 413 RequestTooLarge, st)
  else
  match file req with
  | None => (mkResponse 400 NoFile, st)
  | Some f =>
      if String.eqb (filename f) "" then (mkResponse 400 EmptyName, st)
      else if negb (existsb (String.eqb (suffix f)) ALLOWED_EXT)
      then (mkResponse 415 (BadFormat (suffix f)), st)
      else
        let mode := form_mode req in
        match form_threshold req, form_softness req with
        | Some threshold, Some softness =>
            let threshold := clamp_threshold threshold in
            let softness := clamp_softness softness in
            let despill := form_despill req in
            if (MAX_FILE_BYTES <? raw_len f)%nat then (mkResponse 413 TooLarge, st)
            else
              match opened f with
              | None => (mkResponse 400 CannotOpen, st)
              | Some img =>
                  let orig_size := size img in
                  let finish (result : Image) (st' : State) :=
                    let result :=
                      if decide (size result = orig_size) then result
                      else resize env result orig_size in
                    (mkResponse 200 (Png result (stem f ++ "_rmbg.png")), st') in
                  if String.eqb mode "dark" then
                    if decodes f
                    then finish (remove_dark_bg img threshold softness despill) (ran CallDark st)
                    else (mkResponse 500 ProcessingFailed, ran CallDark st)
                  else if String.eqb mode "light" then
                    if decodes f
                    then finish (remove_light_bg img threshold softness despill)
                                (ran CallLight st)
                    else (mkResponse 500 ProcessingFailed, ran CallLight st)
                  else if String.eqb mode "ai" then
                    let st1 := ran (CallAi (form_model req)) st in
                    match remove_ai_bg env img (form_model req) (form_alpha req)
                                       (sessions st1) with
                    | (None, ss) => (mkResponse 500 ProcessingFailed, mkState ss (calls st1))
                    | (Some result, ss) => finish result (mkState ss (calls st1))
                    end
                  else (mkResponse 400 InvalidMode, st)
              end
        | _, _ => (mkResponse 500 ServerError, st)
        end
  end.

End Web.

(** ** [rembg_app.py]: the batch worker *)

Module Desktop.
Import Matte Sessions External.

(** [remove_ai_bg(img, session, alpha_matting, fg_thresh, bg_thresh, erode)] *)
Definition remove_ai_bg (env : Env) (img : Image) (session : option Session)
  (alpha_matting : bool) (fg_thresh bg_thresh erode : Z) : option Image :=
  match rembg_remove env img session alpha_matting fg_thresh bg_thresh erode with
  | None => None
  | Some result => Some (normalise env img result)
  end.

(** A queued file: does [<stem>_rmbg.png] exist already; what
    [Image.open] makes of the file ([None]: it raises); can
    [img.convert("RGBA")] in the luminance routines read its pixels; and
    do [result.save(out, "PNG")] and [out.stat()] go through. *)
Record Entry := mkEntry {
  out_exists : bool;
  opened : option Image;
  decodes : bool;
  saves : bool
}.

Inductive Outcome :=
| Skipped
| Saved (result : Image)
| Failed.

(** Which routine the worker ran on a file. *)
Inductive Call := CallDark | CallLight | CallAi.

(** The body of the loop of [_worker] for one file: whatever raises
    under the [try], from [Image.open] to [out.stat()], counts the file
    as an error. *)
Definition worker_file (env : Env) (mode : string) (threshold softness : Z)
  (despill : bool) (session : option Session) (alpha : bool) (fp : Entry)
  : Outcome * list Call :=
  if out_exists fp then (Skipped, [])
  else
    match opened fp with
    | None => (Failed, [])
    | Some img =>
        let orig := size img in
        let finish (result : Image) :=
          if saves fp
          then Saved (if decide (size result = orig) then result else resize env result orig)
          else Failed in
        if String.eqb mode "dark" then
          (if decodes fp then finish (remove_dark_bg img threshold softness despill)
           else Failed, [CallDark])
        else if String.eqb mode "light" then
          (if decodes fp then finish (remove_light_bg img threshold softness despill)
           else Failed, [CallLight])
        else
          match remove_ai_bg env img session alpha 240 10 10 with
          | None => (Failed, [CallAi])
          | Some result => (finish result, [CallAi])
          end
    end.



End Desktop.

(** ** Any number of requests at the session cache *)

Module Requests.
Import Sessions.

(** First requests for the given model names, arriving together on a
    fresh process. *)
Definition requests (names : list string) : System :=
  mkSystem empty_store (map (fun name => mkThread name AtTest) names).

(** Can this thread still build a session for [name]? *)
Definition pending (name : string) (t : Thread) : nat :=
  if String.eqb (model_name t) name then
    match pc t with
    | AtTest | AtNew => 1
    | _ => 0
    end
  else 0.

(** Sessions built for [name], and those that may still come. *)
Definition budget (name : string) (sys : System) : nat :=
  constructions name (shared sys) + list_sum (map (pending name) (threads sys)).

(** What the program counter of a thread says about the model [name],
    of which [c0] sessions had been built when the requests arrived: a
    thread that holds a new session has built one; a thread about to
    return, or returned, has seen the model in the cache; a thread that
    raised found the model not loadable. *)
Definition settled (loadable : string -> bool) (name : string) (c0 : nat)
  (st : Store) (t : Thread) : Prop :=
  model_name t = name ->
  match pc t with
  | AtTest | AtNew => True
  | AtAssign _ => (c0 < constructions name st)%nat
  | AtReturn | Returned _ => is_Some (cache st !! name)
  | Raised => loadable name = false
  end.

(** The invariant of every run: sessions are never unbuilt, a cached
    model has been built, and every thread is [settled]. *)
Definition grown (loadable : string -> bool) (name : string) (c0 : nat)
  (sys : System) : Prop :=
  (c0 <= constructions name (shared sys))%nat /\
  (is_Some (cache (shared sys) !! name) -> (c0 < constructions name (shared sys))%nat) /\
  Forall (settled loadable name c0 (shared sys)) (threads sys).

End Requests.

(** ** [rembg_app.py]: the worker with its stop button, and the queue *)

Module Batch.
Import Matte Sessions External Desktop.



End Batch.

Module Queue.

Definition SUPPORTED : list string :=
  [".jpg"; ".jpeg"; ".png"; ".webp"; ".bmp"; ".tiff"; ".tif"]%string.

(** [_dup(p)]: is [p] queued already? If not, queue it. Paths are
    compared as [pathlib] compares them, here as strings. *)
Definition _dup (p : string) (files : list string) : bool * list string :=
  if existsb (String.eqb p) files then (true, files) else (false, files ++ [p]).

(** The count of [_pick_files], file by file: the generator calls
    [_dup] only on a file with a supported suffix. [suffix] is
    [Path(f).suffix.lower()]. *)
Fixpoint count_added (suffix : string -> string) (chosen : list string)
  (files : list string) : nat * list string :=
  match chosen with
  | [] => (0%nat, files)
  | f :: rest =>
      if existsb (String.eqb (suffix f)) SUPPORTED then
        let (dup, files1) := _dup f files in
        let (added, files2) := count_added suffix rest files1 in
        (if dup then added else S added, files2)
      else count_added suffix rest files
  end.

(** [_pick_files], given what the file dialog returned: the number it
    logs ([None] when the dialog was cancelled) and the queue. *)
Definition _pick_files (suffix : string -> string) (chosen : list string)
  (files : list string) : option nat * list string :=
  match chosen with
  | [] => (None, files)
  | _ => let (added, files') := count_added suffix chosen files in (Some added, files')
  end.

(** [_clear_queue] *)
Definition _clear_queue (files : list string) : list string := [].

End Queue.

(** ** [rembg_app.py]: [human_size] *)

Module Sizes.
Import Float.
Local Open Scope Q_scope.

(** [f"{n:.1f}"] of a number that is not negative: the decimal with one
    digit after the point nearest to [n], ties to the even digit;
    [tenths] is that decimal times ten. *)
Definition tenths (n : Q) : Z := rne (n * 10).

Definition fmt1 (n : Q) (u : string) : string :=
  (pretty (tenths n / 10)%Z ++ "." ++ pretty (tenths n mod 10)%Z ++ " " ++ u)%string.

(** The loop over the units: [n /= 1024] is a binary64 division. *)
Fixpoint pick_unit (units : list string) (n : Q) : Q * string :=
  match units with
  | [] => (n, "TB"%string)
  | u :: rest =>
      if Qlt_bool n 1024 then (n, u) else pick_unit rest (rnd64 (n / 1024))
  end.

Definition human_size (n : Z) : string :=
  let (v, u) := pick_unit ["B"; "KB"; "MB"; "GB"]%string (inject_Z n) in fmt1 v u.

End Sizes.

(** * Proofs *)

(** ** Facts about the rounding model *)

Module FloatFacts.
Import Float.
Local Open Scope Q_scope.

(** *** Powers of two *)

Lemma pow2_pos e : 0 < pow2 e.
Proof. apply Qpower_0_lt. reflexivity. Qed.

Lemma pow2_add a b : pow2 (a + b) == pow2 a * pow2 b.
Proof. apply Qpower_plus. discriminate. Qed.

Lemma pow2_sub a b : pow2 (a - b) == pow2 a / pow2 b.
Proof. apply Qpower_minus. discriminate. Qed.

Lemma pow2_le a b : (a <= b)%Z -> pow2 a <= pow2 b.
Proof. intros H. apply Qpower_le_compat_l; [exact H | discriminate]. Qed.

Lemma pow2_lt a b : (a < b)%Z -> pow2 a < pow2 b.
Proof. intros H. apply Qpower_lt_compat_l; [exact H | reflexivity]. Qed.

Lemma pow2_lt_inv a b : pow2 a < pow2 b -> (a < b)%Z.
Proof. intros H. apply (Qpower_lt_compat_l_inv 2); [exact H | reflexivity]. Qed.

Lemma pow2_Z n : (0 <= n)%Z -> pow2 n == inject_Z (2 ^ n).
Proof. intros H. unfold pow2. rewrite Zpower_Qpower by exact H. reflexivity. Qed.

Lemma pow2_succ a : pow2 (a + 1) == 2 * pow2 a.
Proof. rewrite pow2_add. unfold pow2 at 2. rewrite Qpower_1_r. ring. Qed.

(** *** Nearest-even rounding to an integer *)

Lemma rne_comp x y : x == y -> rne x = rne y.
Proof.
  intros H. unfold rne. rewrite (Qfloor_comp _ _ H).
  assert (E : x - inject_Z (Qfloor y) == y - inject_Z (Qfloor y)) by (rewrite H; reflexivity).
  rewrite (Qcompare_comp _ _ E _ _ (Qeq_refl _)). reflexivity.
Qed.

Lemma rne_Z z : rne (inject_Z z) = z.
Proof.
  unfold rne. rewrite Qfloor_Z.
  destruct (Qcompare_spec (inject_Z z - inject_Z z) (1 # 2)); [exfalso; lra | reflexivity | exfalso; lra].
Qed.

Lemma rne_mono x y : x <= y -> (rne x <= rne y)%Z.
Proof.
  intros Hxy. pose proof (Qfloor_resp_le _ _ Hxy) as Hf. unfold rne.
  destruct (Z.eq_dec (Qfloor x) (Qfloor y)) as [E | NE].
  - rewrite E.
    destruct (Qcompare_spec (x - inject_Z (Qfloor y)) (1 # 2));
      destruct (Qcompare_spec (y - inject_Z (Qfloor y)) (1 # 2));
      destruct (Z.even (Qfloor y)); try lia; exfalso; lra.
  - destruct (Qcompare (x - inject_Z (Qfloor x)) (1 # 2));
      destruct (Qcompare (y - inject_Z (Qfloor y)) (1 # 2));
      destruct (Z.even (Qfloor x)); destruct (Z.even (Qfloor y)); lia.
Qed.

Lemma rne_le_Z x n : x <= inject_Z n -> (rne x <= n)%Z.
Proof. intros H. rewrite <- (rne_Z n). apply rne_mono, H. Qed.

Lemma rne_ge_Z x n : inject_Z n <= x -> (n <= rne x)%Z.
Proof. intros H. rewrite <- (rne_Z n). apply rne_mono, H. Qed.

(** *** The binary exponent of a positive rational *)

Lemma Qmake_mult_den n d : (n # d) * inject_Z (Zpos d) == inject_Z n.
Proof. rewrite Qmake_Qdiv. field. discriminate. Qed.

Lemma mag_bounds n d :
  (0 < n)%Z ->
  let k := (Z.log2 n - Z.log2 (Zpos d))%Z in
  pow2 (k - 1) < n # d /\ n # d < pow2 (k + 1).
Proof.
  intros Hn k.
  destruct (Z.log2_spec n Hn) as [Ha1 Ha2].
  destruct (Z.log2_spec (Zpos d) (Pos2Z.is_pos d)) as [Hb1 Hb2].
  pose proof (Z.log2_nonneg n) as Ha0.
  pose proof (Z.log2_nonneg (Zpos d)) as Hb0.
  set (a := Z.log2 n) in *. set (b := Z.log2 (Zpos d)) in *.
  assert (A1 : pow2 a <= inject_Z n) by (rewrite pow2_Z by lia; rewrite <- Zle_Qle; exact Ha1).
  assert (A2 : inject_Z n < 2 * pow2 a).
  { rewrite <- pow2_succ, pow2_Z by lia. rewrite <- Zlt_Qlt. exact Ha2. }
  assert (B1 : pow2 b <= inject_Z (Zpos d)) by (rewrite pow2_Z by lia; rewrite <- Zle_Qle; exact Hb1).
  assert (B2 : inject_Z (Zpos d) < 2 * pow2 b).
  { rewrite <- pow2_succ, pow2_Z by lia. rewrite <- Zlt_Qlt. exact Hb2. }
  pose proof (Qmake_mult_den n d) as X.
  pose proof (pow2_pos a) as Pa. pose proof (pow2_pos b) as Pb.
  assert (K1 : 2 * pow2 (k - 1) * pow2 b == pow2 a).
  { rewrite <- pow2_succ, <- pow2_add. replace (k - 1 + 1 + b)%Z with a by (unfold k; lia). reflexivity. }
  assert (K2 : pow2 (k + 1) * pow2 b == 2 * pow2 a).
  { rewrite <- pow2_succ, <- pow2_add. replace (k + 1 + b)%Z with (a + 1)%Z by (unfold k; lia). reflexivity. }
  pose proof (pow2_pos (k - 1)) as P1. pose proof (pow2_pos (k + 1)) as P2.
  set (x := n # d) in *. set (N := inject_Z n) in *. set (D := inject_Z (Zpos d)) in *.
  set (u := pow2 (k - 1)) in *. set (v := pow2 (k + 1)) in *.
  set (A := pow2 a) in *. set (B := pow2 b) in *.
  split; nra.
Qed.

Lemma mag_spec x : 0 < x -> pow2 (mag x - 1) <= x /\ x < pow2 (mag x).
Proof.
  intros Hx. destruct x as [n d].
  assert (Hn : (0 < n)%Z) by (unfold Qlt in Hx; simpl in Hx; lia).
  destruct (mag_bounds n d Hn) as [Lo Hi]. unfold mag. simpl Qnum. simpl Qden.
  set (k := (Z.log2 n - Z.log2 (Zpos d))%Z) in *.
  destruct (Qle_bool (pow2 k) (n # d)) eqn:E.
  - apply Qle_bool_iff in E. replace (k + 1 - 1)%Z with k by lia. split; assumption.
  - assert (F : ~ pow2 k <= n # d) by (rewrite <- Qle_bool_iff, E; discriminate).
    apply Qnot_le_lt in F. split; [apply Qlt_le_weak; exact Lo | exact F].
Qed.

Lemma mag_unique x e : pow2 (e - 1) <= x -> x < pow2 e -> mag x = e.
Proof.
  intros Lo Hi.
  assert (Hx : 0 < x) by (pose proof (pow2_pos (e - 1)); lra).
  destruct (mag_spec x Hx) as [Lo' Hi'].
  assert (mag x - 1 < e)%Z by (apply pow2_lt_inv; lra).
  assert (e - 1 < mag x)%Z by (apply pow2_lt_inv; lra).
  lia.
Qed.

Lemma mag_comp x y : 0 < x -> x == y -> mag x = mag y.
Proof.
  intros Hx E. destruct (mag_spec x Hx) as [Lo Hi].
  symmetry. apply mag_unique; rewrite <- E; assumption.
Qed.

Lemma mag_mono x y : 0 < x -> x <= y -> (mag x <= mag y)%Z.
Proof.
  intros Hx Hxy.
  destruct (mag_spec x Hx) as [Lo _].
  destruct (mag_spec y) as [_ Hi]; [lra |].
  assert (mag x - 1 < mag y)%Z by (apply pow2_lt_inv; lra).
  lia.
Qed.

Lemma mag_lt_pow2 x e : 0 < x -> x < pow2 e -> (mag x <= e)%Z.
Proof.
  intros Hx Hlt. destruct (mag_spec x Hx) as [Lo _].
  assert (mag x - 1 < e)%Z by (apply pow2_lt_inv; lra).
  lia.
Qed.

(** *** Rounding to the format *)

Lemma Qcompare_Lt x y : x < y -> Qcompare x y = Lt.
Proof. intros H. destruct (Qcompare_spec x y); [exfalso; lra | reflexivity | exfalso; lra]. Qed.

Lemma Qcompare_Gt x y : y < x -> Qcompare x y = Gt.
Proof. intros H. destruct (Qcompare_spec x y); [exfalso; lra | exfalso; lra | reflexivity]. Qed.

Lemma Qcompare_Eq x y : x == y -> Qcompare x y = Eq.
Proof. intros H. destruct (Qcompare_spec x y); [reflexivity | exfalso; lra | exfalso; lra]. Qed.

Lemma Qdiv_le_mono x y p : 0 < p -> x <= y -> x / p <= y / p.
Proof.
  intros Hp Hxy. apply Qle_shift_div_l; [exact Hp |].
  assert (E : x / p * p == x) by (field; lra). rewrite E. exact Hxy.
Qed.

Section Rounding.
Variables prec emin : Z.

Lemma cexp_comp x y : 0 < x -> x == y -> cexp prec emin x = cexp prec emin y.
Proof. intros Hx E. unfold cexp. rewrite (mag_comp x y Hx E). reflexivity. Qed.

Lemma cexp_mono x y : 0 < x -> x <= y -> (cexp prec emin x <= cexp prec emin y)%Z.
Proof. intros Hx H. pose proof (mag_mono x y Hx H). unfold cexp. lia. Qed.

Lemma round_pos_comp x y :
  0 < x -> x == y -> round_pos prec emin x == round_pos prec emin y.
Proof.
  intros Hx E. unfold round_pos. rewrite (cexp_comp x y Hx E).
  assert (F : x / pow2 (cexp prec emin y) == y / pow2 (cexp prec emin y))
    by (rewrite E; reflexivity).
  rewrite (rne_comp _ _ F). reflexivity.
Qed.

Lemma round_pos_nonneg x : 0 < x -> 0 <= round_pos prec emin x.
Proof.
  intros Hx. unfold round_pos. pose proof (pow2_pos (cexp prec emin x)) as Hp.
  apply Qmult_le_0_compat; [| lra].
  change 0 with (inject_Z 0). rewrite <- Zle_Qle. apply rne_ge_Z.
  change (inject_Z 0) with 0. apply Qle_shift_div_l; [exact Hp | lra].
Qed.

Lemma round_pos_upper x :
  0 < x -> round_pos prec emin x <= pow2 (Z.max (mag x) (cexp prec emin x)).
Proof.
  intros Hx. destruct (mag_spec x Hx) as [_ Hi]. unfold round_pos.
  set (c := cexp prec emin x). set (M := Z.max (mag x) c).
  pose proof (pow2_pos c) as Hp.
  assert (HM : pow2 M == pow2 (M - c) * pow2 c)
    by (rewrite <- pow2_add; replace (M - c + c)%Z with M by lia; reflexivity).
  assert (HxM : x <= pow2 M).
  { apply Qlt_le_weak. apply Qlt_le_trans with (1 := Hi). apply pow2_le. unfold M. lia. }
  rewrite HM. apply Qmult_le_compat_r; [| lra].
  rewrite (pow2_Z (M - c)) by (unfold M; lia). rewrite <- Zle_Qle. apply rne_le_Z.
  rewrite <- pow2_Z by (unfold M; lia).
  apply Qle_shift_div_r; [exact Hp |]. rewrite <- HM. exact HxM.
Qed.

Lemma round_pos_lower x :
  (0 < prec)%Z -> 0 < x -> cexp prec emin x = (mag x - prec)%Z ->
  pow2 (mag x - 1) <= round_pos prec emin x.
Proof.
  intros Hprec Hx Hc. destruct (mag_spec x Hx) as [Lo _]. unfold round_pos.
  rewrite Hc. set (c := (mag x - prec)%Z).
  pose proof (pow2_pos c) as Hp.
  assert (HM : pow2 (mag x - 1) == pow2 (prec - 1) * pow2 c).
  { rewrite <- pow2_add. replace (prec - 1 + c)%Z with (mag x - 1)%Z by (unfold c; lia).
    reflexivity. }
  rewrite HM. apply Qmult_le_compat_r; [| lra].
  rewrite (pow2_Z (prec - 1)) by lia. rewrite <- Zle_Qle. apply rne_ge_Z.
  rewrite <- pow2_Z by lia.
  apply Qle_shift_div_l; [exact Hp |]. rewrite <- HM. exact Lo.
Qed.

Lemma round_pos_mono x y :
  (0 < prec)%Z -> 0 < x -> x <= y ->
  round_pos prec emin x <= round_pos prec emin y.
Proof.
  intros Hprec Hx Hxy. assert (Hy : 0 < y) by lra.
  pose proof (cexp_mono x y Hx Hxy) as Hc.
  destruct (Z.eq_dec (cexp prec emin x) (cexp prec emin y)) as [E | NE].
  - unfold round_pos. rewrite E. pose proof (pow2_pos (cexp prec emin y)) as Hp.
    apply Qmult_le_compat_r; [| lra].
    rewrite <- Zle_Qle. apply rne_mono. apply Qdiv_le_mono; assumption.
  - pose proof (mag_mono x y Hx Hxy) as Hm.
    assert (Hcy : cexp prec emin y = (mag y - prec)%Z) by (unfold cexp in *; lia).
    apply Qle_trans with (1 := round_pos_upper x Hx).
    apply Qle_trans with (2 := round_pos_lower y Hprec Hy Hcy).
    apply pow2_le. unfold cexp in *. lia.
Qed.

Lemma round_pos_exact x m e :
  0 < x -> x == inject_Z m * pow2 e -> (cexp prec emin x <= e)%Z ->
  round_pos prec emin x == x.
Proof.
  intros Hx E Hc. unfold round_pos. set (c := cexp prec emin x) in *.
  pose proof (pow2_pos c) as Hp.
  assert (He : pow2 e == pow2 (e - c) * pow2 c)
    by (rewrite <- pow2_add; replace (e - c + c)%Z with e by lia; reflexivity).
  assert (F : x / pow2 c == inject_Z (m * 2 ^ (e - c))).
  { rewrite inject_Z_mult, <- pow2_Z by lia. rewrite E, He. field. lra. }
  rewrite (rne_comp _ _ F), rne_Z.
  rewrite inject_Z_mult, <- pow2_Z by lia. rewrite E, He. ring.
Qed.

Lemma round_comp x y : x == y -> round prec emin x == round prec emin y.
Proof.
  intros E. unfold round. rewrite (Qcompare_comp _ _ E _ _ (Qeq_refl 0)).
  destruct (Qcompare_spec y 0) as [H | H | H]; [reflexivity | |].
  - apply Qopp_comp. apply round_pos_comp; [lra | rewrite E; reflexivity].
  - apply round_pos_comp; [lra | exact E].
Qed.

Lemma round_0 : round prec emin 0 == 0.
Proof. reflexivity. Qed.

Lemma round_opp x : round prec emin (- x) == - round prec emin x.
Proof.
  unfold round. destruct (Qcompare_spec x 0) as [H | H | H].
  - rewrite Qcompare_Eq by lra. reflexivity.
  - rewrite Qcompare_Gt by lra. lra.
  - rewrite Qcompare_Lt by lra. apply Qopp_comp.
    apply round_pos_comp; [lra | ring].
Qed.

Lemma round_mono x y :
  (0 < prec)%Z -> x <= y -> round prec emin x <= round prec emin y.
Proof.
  intros Hprec Hxy. unfold round.
  destruct (Qcompare_spec x 0) as [Hx | Hx | Hx];
    destruct (Qcompare_spec y 0) as [Hy | Hy | Hy]; try (exfalso; lra).
  - lra.
  - apply round_pos_nonneg; lra.
  - pose proof (round_pos_nonneg (- x) ltac:(lra)). lra.
  - assert (round_pos prec emin (- y) <= round_pos prec emin (- x))
      by (apply round_pos_mono; [exact Hprec | lra | lra]).
    lra.
  - pose proof (round_pos_nonneg (- x) ltac:(lra)).
    pose proof (round_pos_nonneg y ltac:(lra)). lra.
  - apply round_pos_mono; assumption.
Qed.

Lemma round_Z z :
  (emin <= 0)%Z -> (Z.abs z < 2 ^ prec)%Z -> (0 <= prec)%Z ->
  round prec emin (inject_Z z) == inject_Z z.
Proof.
  intros Hemin Hz Hprec.
  assert (P : forall n, (0 < n < 2 ^ prec)%Z ->
              round_pos prec emin (inject_Z n) == inject_Z n).
  { intros n Hn.
    assert (Hq : 0 < inject_Z n) by (change 0 with (inject_Z 0); rewrite <- Zlt_Qlt; lia).
    apply (round_pos_exact _ n 0 Hq).
    - change (pow2 0) with 1. ring.
    - assert (mag (inject_Z n) <= prec)%Z.
      { apply mag_lt_pow2; [exact Hq |]. rewrite pow2_Z by lia. rewrite <- Zlt_Qlt. lia. }
      unfold cexp. lia. }
  unfold round. destruct (Qcompare_spec (inject_Z z) 0) as [H | H | H].
  - lra.
  - change 0 with (inject_Z 0) in H. rewrite <- Zlt_Qlt in H.
    rewrite <- inject_Z_opp. rewrite P by lia. rewrite inject_Z_opp. ring.
  - change 0 with (inject_Z 0) in H. rewrite <- Zlt_Qlt in H. apply P. lia.
Qed.
End Rounding.

(** *** binary32 operations *)

Lemma rnd32_mono x y : x <= y -> rnd32 x <= rnd32 y.
Proof. apply round_mono. reflexivity. Qed.

Lemma rnd32_comp x y : x == y -> rnd32 x == rnd32 y.
Proof. apply round_comp. Qed.

Lemma rnd32_opp x : rnd32 (- x) == - rnd32 x.
Proof. apply round_opp. Qed.

Lemma rnd32_Z z : (Z.abs z < 2 ^ 24)%Z -> rnd32 (inject_Z z) == inject_Z z.
Proof. intros H. apply round_Z; [discriminate | exact H | discriminate]. Qed.

Lemma Qred_inject_Z z : Qred (inject_Z z) = inject_Z z.
Proof.
  unfold Qred, inject_Z.
  pose proof (Z.ggcd_gcd z 1) as Hg. pose proof (Z.ggcd_correct_divisors z 1) as Hd.
  destruct (Z.ggcd z 1) as [g [a b]]. simpl in *.
  rewrite Z.gcd_1_r in Hg. subst g. destruct Hd as [Ha Hb].
  replace a with z by lia. replace b with 1%Z by lia. reflexivity.
Qed.

Lemma of_int_exact z : (Z.abs z < 2 ^ 24)%Z -> of_int z = inject_Z z.
Proof.
  intros H. unfold of_int. rewrite <- (Qred_inject_Z z) at 2.
  apply Qred_complete, rnd32_Z, H.
Qed.

Lemma fadd_eq x y : fadd x y == rnd32 (x + y).
Proof. apply Qred_correct. Qed.

Lemma fsub_eq x y : fsub x y == rnd32 (x - y).
Proof. apply Qred_correct. Qed.

Lemma fmul_eq x y : fmul x y == rnd32 (x * y).
Proof. apply Qred_correct. Qed.

Lemma fdiv_eq x y : fdiv x y == rnd32 (x / y).
Proof. apply Qred_correct. Qed.

#[global] Instance rnd32_proper : Proper (Qeq ==> Qeq) rnd32.
Proof. intros x y E. apply rnd32_comp, E. Qed.

#[global] Instance fadd_proper : Proper (Qeq ==> Qeq ==> Qeq) fadd.
Proof. intros x x' Ex y y' Ey. rewrite !fadd_eq, Ex, Ey. reflexivity. Qed.

#[global] Instance fsub_proper : Proper (Qeq ==> Qeq ==> Qeq) fsub.
Proof. intros x x' Ex y y' Ey. rewrite !fsub_eq, Ex, Ey. reflexivity. Qed.

#[global] Instance fmul_proper : Proper (Qeq ==> Qeq ==> Qeq) fmul.
Proof. intros x x' Ex y y' Ey. rewrite !fmul_eq, Ex, Ey. reflexivity. Qed.

#[global] Instance fdiv_proper : Proper (Qeq ==> Qeq ==> Qeq) fdiv.
Proof. intros x x' Ex y y' Ey. rewrite !fdiv_eq, Ex, Ey. reflexivity. Qed.

#[global] Instance clip_proper : Proper (Qeq ==> Qeq ==> Qeq ==> Qeq) clip.
Proof. intros x x' Ex y y' Ey z z' Ez. unfold clip. rewrite Ex, Ey, Ez. reflexivity. Qed.

Lemma rnd32_le_Z x n : (Z.abs n < 2 ^ 24)%Z -> x <= inject_Z n -> rnd32 x <= inject_Z n.
Proof. intros Hn H. rewrite <- (rnd32_Z n Hn). apply rnd32_mono, H. Qed.

Lemma rnd32_ge_Z x n : (Z.abs n < 2 ^ 24)%Z -> inject_Z n <= x -> inject_Z n <= rnd32 x.
Proof. intros Hn H. rewrite <- (rnd32_Z n Hn). apply rnd32_mono, H. Qed.

Lemma literal_Z z : (Z.abs z < 2 ^ 24)%Z -> literal (inject_Z z) = inject_Z z.
Proof.
  intros H. unfold literal. rewrite <- (Qred_inject_Z z) at 2.
  apply Qred_complete.
  assert (E : rnd64 (inject_Z z) == inject_Z z).
  { apply round_Z; [discriminate | | discriminate].
    eapply Z.lt_trans; [exact H | reflexivity]. }
  rewrite E. apply rnd32_Z, H.
Qed.

(** *** Clipping and truncation *)

Lemma clip_lo x lo hi : lo <= hi -> x <= lo -> clip x lo hi == lo.
Proof. intros Hlh Hx. unfold clip. rewrite (Q.max_r x lo Hx). apply Q.min_l, Hlh. Qed.

Lemma clip_hi x lo hi : lo <= hi -> hi <= x -> clip x lo hi == hi.
Proof.
  intros Hlh Hx. unfold clip. apply Q.min_r.
  apply Qle_trans with (1 := Hx). apply Q.le_max_l.
Qed.

Lemma clip_id x lo hi : lo <= x -> x <= hi -> clip x lo hi == x.
Proof. intros Hl Hh. unfold clip. rewrite (Q.max_l x lo Hl). apply Q.min_l, Hh. Qed.

Lemma clip_mono x y lo hi : x <= y -> clip x lo hi <= clip y lo hi.
Proof. intros H. unfold clip. apply Q.min_le_compat_r, Q.max_le_compat_r, H. Qed.

Lemma clip_range x lo hi : lo <= hi -> lo <= clip x lo hi /\ clip x lo hi <= hi.
Proof.
  intros H. unfold clip. split.
  - apply Q.min_glb; [apply Q.le_max_r | exact H].
  - apply Q.le_min_r.
Qed.

Lemma astype_uint8_comp x y : x == y -> astype_uint8 x = astype_uint8 y.
Proof.
  intros E. unfold astype_uint8.
  rewrite (Qleb_comp _ _ (Qeq_refl 0) _ _ E), (Qfloor_comp _ _ E), (Qceiling_comp _ _ E).
  reflexivity.
Qed.

Lemma astype_uint8_Z z : astype_uint8 (inject_Z z) = z.
Proof. unfold astype_uint8. rewrite Qfloor_Z, Qceiling_Z. destruct (Qle_bool _ _); reflexivity. Qed.

Lemma astype_uint8_floor x : 0 <= x -> astype_uint8 x = Qfloor x.
Proof. intros H. unfold astype_uint8. apply Qle_bool_iff in H. rewrite H. reflexivity. Qed.

Lemma astype_uint8_mono x y : 0 <= x -> x <= y -> (astype_uint8 x <= astype_uint8 y)%Z.
Proof.
  intros Hx Hxy. rewrite !astype_uint8_floor by lra. apply Qfloor_resp_le, Hxy.
Qed.

Lemma Qlt_bool_iff x y : Qlt_bool x y = true <-> x < y.
Proof.
  unfold Qlt_bool. rewrite negb_true_iff. split.
  - intros H. apply Qnot_le_lt. rewrite <- Qle_bool_iff, H. discriminate.
  - intros H. destruct (Qle_bool y x) eqn:E; [| reflexivity].
    apply Qle_bool_iff in E. exfalso. lra.
Qed.

(** *** Exact and nearly exact roundings *)

(** The nearest integer is at most one half away. *)
Lemma rne_close x : Qabs (inject_Z (rne x) - x) <= 1 # 2.
Proof.
  pose proof (Qfloor_le x) as F1. pose proof (Qlt_floor x) as F2.
  rewrite inject_Z_plus in F2. change (inject_Z 1) with 1 in F2.
  unfold rne. apply Qabs_Qle_condition.
  destruct (Qcompare_spec (x - inject_Z (Qfloor x)) (1 # 2)) as [H | H | H].
  - destruct (Z.even (Qfloor x)).
    + split; lra.
    + rewrite inject_Z_plus. change (inject_Z 1) with 1. split; lra.
  - split; lra.
  - rewrite inject_Z_plus. change (inject_Z 1) with 1. split; lra.
Qed.

(** A number [m * 2^e] with [|m| < 2^24] is a binary32 number: rounding
    leaves it as it is. *)
Lemma rnd32_dyadic m e :
  (Z.abs m < 2 ^ 24)%Z -> (-149 <= e)%Z ->
  rnd32 (inject_Z m * pow2 e) == inject_Z m * pow2 e.
Proof.
  intros Hm He.
  assert (P : forall n, (0 < n < 2 ^ 24)%Z ->
              round_pos 24 (-149) (inject_Z n * pow2 e) == inject_Z n * pow2 e).
  { intros n Hn. pose proof (pow2_pos e) as Pe.
    assert (Hq : 0 < inject_Z n) by (change 0 with (inject_Z 0); rewrite <- Zlt_Qlt; lia).
    assert (Hx : 0 < inject_Z n * pow2 e) by nra.
    apply (round_pos_exact 24 (-149) _ n e Hx); [reflexivity |].
    assert (M : (mag (inject_Z n * pow2 e) <= 24 + e)%Z).
    { apply mag_lt_pow2; [exact Hx |]. rewrite pow2_add.
      apply Qmult_lt_compat_r; [exact Pe |].
      rewrite pow2_Z by lia. rewrite <- Zlt_Qlt. lia. }
    unfold cexp. lia. }
  unfold rnd32, round. pose proof (pow2_pos e) as Pe.
  destruct (Qcompare_spec (inject_Z m * pow2 e) 0) as [H | H | H].
  - rewrite H. reflexivity.
  - assert (Hm0 : (m < 0)%Z).
    { destruct (Z_lt_le_dec m 0) as [G | G]; [exact G |]. exfalso.
      assert (0 <= inject_Z m) by (change 0 with (inject_Z 0); rewrite <- Zle_Qle; lia).
      nra. }
    assert (E : - (inject_Z m * pow2 e) == inject_Z (- m) * pow2 e)
      by (rewrite inject_Z_opp; ring).
    assert (Hneg : 0 < - (inject_Z m * pow2 e)) by lra.
    rewrite (round_pos_comp 24 (-149) _ _ Hneg E).
    rewrite P by lia. rewrite inject_Z_opp. ring.
  - assert (Hm0 : (0 < m)%Z).
    { destruct (Z_lt_le_dec 0 m) as [G | G]; [exact G |]. exfalso.
      assert (inject_Z m <= 0) by (change 0 with (inject_Z 0); rewrite <- Zle_Qle; lia).
      nra. }
    apply P. lia.
Qed.

Lemma rnd32_fix q m e :
  q == inject_Z m * pow2 e -> (Z.abs m < 2 ^ 24)%Z -> (-149 <= e)%Z -> rnd32 q == q.
Proof.
  intros E Hm He. rewrite (rnd32_comp _ _ E), rnd32_dyadic by assumption.
  symmetry. exact E.
Qed.

Lemma rnd32_le_fix x q m e :
  x <= q -> q == inject_Z m * pow2 e -> (Z.abs m < 2 ^ 24)%Z -> (-149 <= e)%Z ->
  rnd32 x <= q.
Proof.
  intros H E Hm He. rewrite <- (rnd32_fix q m e E Hm He). apply rnd32_mono, H.
Qed.

Lemma rnd32_ge_fix x q m e :
  q <= x -> q == inject_Z m * pow2 e -> (Z.abs m < 2 ^ 24)%Z -> (-149 <= e)%Z ->
  q <= rnd32 x.
Proof.
  intros H E Hm He. rewrite <- (rnd32_fix q m e E Hm He). apply rnd32_mono, H.
Qed.

(** Below 256 a binary32 number is at most 2^-17 away. *)
Lemma rnd32_err x : 0 <= x -> x < 256 -> Qabs (rnd32 x - x) <= 1 # 131072.
Proof.
  intros H0 H1. apply Qabs_Qle_condition.
  destruct (Qlt_le_dec 0 x) as [Hx | Hx].
  - unfold rnd32, round. rewrite (Qcompare_Gt _ _ Hx). unfold round_pos.
    set (c := cexp 24 (-149) x).
    assert (Hm : (mag x <= 8)%Z) by (apply mag_lt_pow2; [exact Hx | exact H1]).
    assert (Hc : (c <= -16)%Z) by (unfold c, cexp; lia).
    pose proof (pow2_pos c) as Pp. pose proof (pow2_le c (-16) Hc) as Pl.
    change (pow2 (-16)) with (1 # 65536) in Pl.
    pose proof (rne_close (x / pow2 c)) as R. apply Qabs_Qle_condition in R.
    set (k := inject_Z (rne (x / pow2 c))) in *.
    assert (E : x == (x / pow2 c) * pow2 c) by (field; lra).
    set (y := x / pow2 c) in *. clearbody k y. destruct R as [R1 R2].
    split.
    + assert ((y - (1 # 2)) * pow2 c <= k * pow2 c) by (apply Qmult_le_compat_r; lra).
      assert ((1 # 2) * pow2 c <= 1 # 131072) by lra. lra.
    + assert (k * pow2 c <= (y + (1 # 2)) * pow2 c) by (apply Qmult_le_compat_r; lra).
      assert ((1 # 2) * pow2 c <= 1 # 131072) by lra. lra.
  - assert (E : x == 0) by lra.
    rewrite (rnd32_comp _ _ E). change (rnd32 0) with 0. split; lra.
Qed.

End FloatFacts.

(** ** Facts about the alpha ramps *)

Module RampFacts.
Import Float FloatFacts Matte.
Local Open Scope Q_scope.

Lemma fsub_mono_l x y t : x <= y -> fsub x t <= fsub y t.
Proof. intros H. rewrite !fsub_eq. apply rnd32_mono. lra. Qed.

Lemma fsub_anti_r t x y : x <= y -> fsub t y <= fsub t x.
Proof. intros H. rewrite !fsub_eq. apply rnd32_mono. lra. Qed.

Lemma fadd_mono_l x y c : x <= y -> fadd x c <= fadd y c.
Proof. intros H. rewrite !fadd_eq. apply rnd32_mono. lra. Qed.

Lemma fdiv_mono_l x y d : 0 < d -> x <= y -> fdiv x d <= fdiv y d.
Proof. intros Hd H. rewrite !fdiv_eq. apply rnd32_mono, Qdiv_le_mono; assumption. Qed.

Lemma fmul_mono_l x y c : 0 <= c -> x <= y -> fmul x c <= fmul y c.
Proof. intros Hc H. rewrite !fmul_eq. apply rnd32_mono, Qmult_le_compat_r; assumption. Qed.

(** The divisor [soft = max(softness, 1)] is at least one, whatever
    [softness] the caller passes. *)
Lemma soft_ge_1 softness : 1 <= of_int (Z.max softness 1).
Proof.
  unfold of_int. rewrite Qred_correct. apply (rnd32_ge_Z _ 1); [reflexivity |].
  rewrite <- Zle_Qle. lia.
Qed.

Lemma soft_exact softness :
  (1 <= softness <= 200)%Z -> of_int (Z.max softness 1) = inject_Z softness.
Proof. intros H. rewrite Z.max_l by lia. apply of_int_exact. lia. Qed.

Lemma lit255 : literal 255 = 255.
Proof. apply (literal_Z 255). reflexivity. Qed.

Lemma lit0 : literal 0 = 0.
Proof. apply (literal_Z 0). reflexivity. Qed.

Lemma dark_ramp_mono x y threshold softness :
  x <= y -> dark_ramp x threshold softness <= dark_ramp y threshold softness.
Proof.
  intros H. unfold dark_ramp. pose proof (soft_ge_1 softness) as Hs.
  rewrite lit255. apply fmul_mono_l; [lra |].
  apply fdiv_mono_l; [lra |]. apply fsub_mono_l, H.
Qed.

Lemma dark_alpha_mono x y threshold softness :
  x <= y -> dark_alpha x threshold softness <= dark_alpha y threshold softness.
Proof. intros H. apply clip_mono, dark_ramp_mono, H. Qed.

Lemma dark_alpha_range x threshold softness :
  0 <= dark_alpha x threshold softness /\ dark_alpha x threshold softness <= 255.
Proof. unfold dark_alpha. rewrite lit0, lit255. apply clip_range. lra. Qed.

Lemma light_alpha_range x threshold softness :
  0 <= light_alpha x threshold softness /\ light_alpha x threshold softness <= 255.
Proof. unfold light_alpha. rewrite lit0, lit255. apply clip_range. lra. Qed.

(** At or below the threshold the dark ramp is not positive. *)
Lemma dark_ramp_low x threshold softness :
  x <= of_int threshold -> dark_ramp x threshold softness <= 0.
Proof.
  intros H. unfold dark_ramp. pose proof (soft_ge_1 softness) as Hs.
  set (d := of_int (Z.max softness 1)) in *. rewrite lit255.
  assert (A : fsub x (of_int threshold) <= 0).
  { rewrite fsub_eq. apply (rnd32_le_Z _ 0); [reflexivity |].
    change (inject_Z 0) with 0. lra. }
  assert (B : fdiv (fsub x (of_int threshold)) d <= 0).
  { rewrite fdiv_eq. apply (rnd32_le_Z _ 0); [reflexivity |].
    change (inject_Z 0) with 0. apply Qle_shift_div_r; lra. }
  rewrite fmul_eq. apply (rnd32_le_Z _ 0); [reflexivity | ]. 
  change (inject_Z 0) with 0. nra.
Qed.

(** From [threshold + softness] on the dark ramp is at least 255. *)
Lemma dark_ramp_high x threshold softness :
  (Z.abs threshold < 2 ^ 24)%Z -> (1 <= softness < 2 ^ 24)%Z ->
  inject_Z (threshold + softness) <= x ->
  255 <= dark_ramp x threshold softness.
Proof.
  intros Ht Hs H. unfold dark_ramp.
  rewrite Z.max_l by lia. rewrite !of_int_exact by lia. rewrite lit255.
  rewrite inject_Z_plus in H.
  assert (S0 : 1 <= inject_Z softness) by (change 1 with (inject_Z 1); rewrite <- Zle_Qle; lia).
  assert (A : inject_Z softness <= fsub x (inject_Z threshold)).
  { rewrite fsub_eq. apply rnd32_ge_Z; [lia | lra]. }
  assert (B : 1 <= fdiv (fsub x (inject_Z threshold)) (inject_Z softness)).
  { rewrite fdiv_eq. apply (rnd32_ge_Z _ 1); [reflexivity |].
    apply Qle_shift_div_l; [lra |]. change (inject_Z 1) with 1. lra. }
  rewrite fmul_eq. apply (rnd32_ge_Z _ 255); [reflexivity |].
  change (inject_Z 255) with 255. nra.
Qed.

Lemma dark_alpha_low x threshold softness :
  x <= of_int threshold -> dark_alpha x threshold softness == 0.
Proof.
  intros H. unfold dark_alpha. rewrite lit0, lit255.
  apply clip_lo; [lra | apply dark_ramp_low, H].
Qed.

Lemma dark_alpha_high x threshold softness :
  (Z.abs threshold < 2 ^ 24)%Z -> (1 <= softness < 2 ^ 24)%Z ->
  inject_Z (threshold + softness) <= x ->
  dark_alpha x threshold softness == 255.
Proof.
  intros Ht Hs H. unfold dark_alpha. rewrite lit0, lit255.
  apply clip_hi; [lra | apply dark_ramp_high; assumption].
Qed.

Lemma light_alpha_anti x y threshold softness :
  x <= y -> light_alpha y threshold softness <= light_alpha x threshold softness.
Proof.
  intros H. unfold light_alpha. pose proof (soft_ge_1 softness) as Hs.
  apply clip_mono. rewrite lit255. apply fadd_mono_l.
  apply fmul_mono_l; [lra |]. apply fdiv_mono_l; [lra |]. apply fsub_anti_r, H.
Qed.

(** At or below the threshold the light ramp is saturated. *)
Lemma light_alpha_low x threshold softness :
  x <= of_int threshold -> light_alpha x threshold softness == 255.
Proof.
  intros H. unfold light_alpha. pose proof (soft_ge_1 softness) as Hs.
  set (d := of_int (Z.max softness 1)) in *. rewrite lit0, lit255.
  apply clip_hi; [lra |].
  assert (A : 0 <= fsub (of_int threshold) x).
  { rewrite fsub_eq. apply (rnd32_ge_Z _ 0); [reflexivity |].
    change (inject_Z 0) with 0. lra. }
  assert (B : 0 <= fdiv (fsub (of_int threshold) x) d).
  { rewrite fdiv_eq. apply (rnd32_ge_Z _ 0); [reflexivity |].
    change (inject_Z 0) with 0. apply Qle_shift_div_l; lra. }
  assert (C : 0 <= fmul (fdiv (fsub (of_int threshold) x) d) 255).
  { rewrite fmul_eq. apply (rnd32_ge_Z _ 0); [reflexivity |].
    change (inject_Z 0) with 0. nra. }
  rewrite fadd_eq. apply (rnd32_ge_Z _ 255); [reflexivity |].
  change (inject_Z 255) with 255. lra.
Qed.

(** From [threshold + softness] on the light ramp is zero. *)
Lemma light_alpha_high x threshold softness :
  (Z.abs threshold < 2 ^ 24)%Z -> (1 <= softness < 2 ^ 24)%Z ->
  inject_Z (threshold + softness) <= x ->
  light_alpha x threshold softness == 0.
Proof.
  intros Ht Hs H. unfold light_alpha.
  rewrite Z.max_l by lia. rewrite !of_int_exact by lia. rewrite lit0, lit255.
  rewrite inject_Z_plus in H.
  assert (S0 : 1 <= inject_Z softness) by (change 1 with (inject_Z 1); rewrite <- Zle_Qle; lia).
  apply clip_lo; [lra |].
  assert (A : fsub (inject_Z threshold) x <= inject_Z (- softness)).
  { rewrite fsub_eq. apply rnd32_le_Z; [lia |]. rewrite inject_Z_opp. lra. }
  rewrite inject_Z_opp in A.
  assert (B : fdiv (fsub (inject_Z threshold) x) (inject_Z softness) <= - (1)).
  { rewrite fdiv_eq. apply (rnd32_le_Z _ (-1)); [reflexivity |].
    change (inject_Z (-1)) with (- (1)). apply Qle_shift_div_r; lra. }
  assert (C : fmul (fdiv (fsub (inject_Z threshold) x) (inject_Z softness)) 255 <= - (255)).
  { rewrite fmul_eq. apply (rnd32_le_Z _ (-255)); [reflexivity |].
    change (inject_Z (-255)) with (- (255)). nra. }
  rewrite fadd_eq. apply (rnd32_le_Z _ 0); [reflexivity |].
  change (inject_Z 0) with 0. lra.
Qed.

(** Rounding is odd, so the light ramp is the dark ramp taken from 255. *)
Lemma light_alpha_complement x threshold softness :
  light_alpha x threshold softness
  == clip (fsub 255 (dark_ramp x threshold softness)) 0 255.
Proof.
  unfold light_alpha, dark_ramp. rewrite lit0, lit255.
  set (T := of_int threshold). set (d := of_int (Z.max softness 1)).
  assert (E : fadd (fmul (fdiv (fsub T x) d) 255) 255
              == fsub 255 (fmul (fdiv (fsub x T) d) 255)).
  { rewrite fadd_eq, fsub_eq, !fmul_eq, !fdiv_eq, !fsub_eq.
    assert (E1 : rnd32 (T - x) == - rnd32 (x - T)).
    { rewrite <- rnd32_opp. apply rnd32_comp. ring. }
    assert (E2 : rnd32 (rnd32 (T - x) / d) == - rnd32 (rnd32 (x - T) / d)).
    { rewrite <- rnd32_opp. apply rnd32_comp. rewrite E1. unfold Qdiv. ring. }
    assert (E3 : rnd32 (rnd32 (rnd32 (T - x) / d) * 255)
                 == - rnd32 (rnd32 (rnd32 (x - T) / d) * 255)).
    { rewrite <- rnd32_opp. apply rnd32_comp. rewrite E2. ring. }
    apply rnd32_comp. rewrite E3. ring. }
  rewrite E. reflexivity.
Qed.

End RampFacts.

(** ** The alpha ramps of the two luminance modes *)

Import Float FloatFacts Matte RampFacts.
Local Open Scope Q_scope.

Lemma dark_pixel_alpha threshold softness despill p :
  chA (dark_pixel threshold softness despill p)
  = astype_uint8 (dark_alpha (pixel_lum p) threshold softness).
Proof. reflexivity. Qed.

Lemma light_pixel_alpha threshold softness despill p :
  chA (light_pixel threshold softness despill p)
  = astype_uint8 (light_alpha (pixel_lum p) threshold softness).
Proof. reflexivity. Qed.

(** Every pixel of the result is the pixel function applied in place. *)
Lemma remove_dark_bg_pixel img threshold softness despill (i : nat) :
  pixels (remove_dark_bg img threshold softness despill) !! i
  = dark_pixel threshold softness despill <$> pixels img !! i.
Proof. apply list_lookup_fmap. Qed.

Lemma remove_light_bg_pixel img threshold softness despill (i : nat) :
  pixels (remove_light_bg img threshold softness despill) !! i
  = light_pixel threshold softness despill <$> pixels img !! i.
Proof. apply list_lookup_fmap. Qed.

(** *** The luminance float32 computes, against the BT.709 sum *)

Lemma in_all_bytes z : byte z -> In z all_bytes.
Proof.
  intros Hz. unfold all_bytes. rewrite <- (Z2Nat.id z) by (unfold byte in Hz; lia).
  apply in_map, in_seq. unfold byte in Hz. lia.
Qed.

Lemma of_int_byte z : byte z -> of_int z = inject_Z z.
Proof. intros H. apply of_int_exact. unfold byte in H. lia. Qed.

Lemma lum_table : forallb lum_entry_ok all_bytes = true.
Proof. vm_compute. reflexivity. Qed.

Lemma lum_entry v : byte v -> lum_entry_ok v = true.
Proof.
  intros Hv. pose proof lum_table as T. rewrite forallb_forall in T.
  apply T, in_all_bytes, Hv.
Qed.

(** The three products of the luminance, for a byte [v]. *)
Lemma lum_products v :
  byte v ->
  let x := inject_Z v in
  (0 <= fmul (literal (2126 # 10000)) x /\
   Qabs (fmul (literal (2126 # 10000)) x - (2126 # 10000) * x) <= 1 # 131072) /\
  (0 <= fmul (literal (7152 # 10000)) x /\
   Qabs (fmul (literal (7152 # 10000)) x - (7152 # 10000) * x) <= 1 # 32768) /\
  (0 <= fmul (literal (722 # 10000)) x /\
   Qabs (fmul (literal (722 # 10000)) x - (722 # 10000) * x) <= 1 # 262144).
Proof.
  intros Hv. pose proof (lum_entry v Hv) as E. unfold lum_entry_ok in E.
  apply andb_prop in E. destruct E as [E E6]. apply andb_prop in E. destruct E as [E E5].
  apply andb_prop in E. destruct E as [E E4]. apply andb_prop in E. destruct E as [E E3].
  apply andb_prop in E. destruct E as [E1 E2].
  cbv zeta. repeat split; apply Qle_bool_iff; assumption.
Qed.

(** The luminance the code computes is within 2^-14 of the BT.709 sum. *)
Lemma lum_close p :
  valid_pixel p -> Qabs (pixel_lum p - bt709 p) <= 1 # 16384.
Proof.
  intros (HR & HG & HB & _). unfold pixel_lum, bt709, luminance.
  rewrite (of_int_byte _ HR), (of_int_byte _ HG), (of_int_byte _ HB).
  destruct (lum_products _ HR) as ((A0 & A1) & _).
  destruct (lum_products _ HG) as (_ & (B0 & B1) & _).
  destruct (lum_products _ HB) as (_ & _ & (C0 & C1)).
  cbv zeta in *.
  assert (XR : 0 <= inject_Z (chR p) <= 255).
  { unfold byte in HR. split; [change 0 with (inject_Z 0) | change 255 with (inject_Z 255)];
      rewrite <- Zle_Qle; lia. }
  assert (XG : 0 <= inject_Z (chG p) <= 255).
  { unfold byte in HG. split; [change 0 with (inject_Z 0) | change 255 with (inject_Z 255)];
      rewrite <- Zle_Qle; lia. }
  assert (XB : 0 <= inject_Z (chB p) <= 255).
  { unfold byte in HB. split; [change 0 with (inject_Z 0) | change 255 with (inject_Z 255)];
      rewrite <- Zle_Qle; lia. }
  set (r := inject_Z (chR p)) in *. set (g := inject_Z (chG p)) in *.
  set (b := inject_Z (chB p)) in *.
  set (a1 := fmul (literal (2126 # 10000)) r) in *.
  set (a2 := fmul (literal (7152 # 10000)) g) in *.
  set (a3 := fmul (literal (722 # 10000)) b) in *.
  clearbody a1 a2 a3 r g b.
  apply Qabs_Qle_condition in A1, B1, C1.
  assert (S1 : Qabs (fadd a1 a2 - (a1 + a2)) <= 1 # 131072).
  { rewrite fadd_eq. apply rnd32_err; lra. }
  assert (P1 : 0 <= fadd a1 a2).
  { rewrite fadd_eq. change 0 with (rnd32 0). apply rnd32_mono. lra. }
  apply Qabs_Qle_condition in S1.
  set (s1 := fadd a1 a2) in *. clearbody s1.
  assert (S2 : Qabs (fadd s1 a3 - (s1 + a3)) <= 1 # 131072).
  { rewrite fadd_eq. apply rnd32_err; lra. }
  apply Qabs_Qle_condition in S2.
  set (s2 := fadd s1 a3) in *. clearbody s2.
  apply Qabs_Qle_condition. split; lra.
Qed.

(** The BT.709 sum of a pixel is a multiple of 1/5000. *)
Lemma bt709_grid p :
  bt709 p == inject_Z (1063 * chR p + 3576 * chG p + 361 * chB p) / 5000.
Proof.
  unfold bt709. rewrite !inject_Z_plus, !inject_Z_mult.
  change (inject_Z 1063) with 1063. change (inject_Z 3576) with 3576.
  change (inject_Z 361) with 361. field.
Qed.

Lemma grid_lt (m n : Z) :
  inject_Z m / 5000 < inject_Z n / 5000 -> inject_Z m / 5000 + (1 # 5000) <= inject_Z n / 5000.
Proof.
  intros H.
  assert (L : inject_Z m < inject_Z n).
  { destruct (Qlt_le_dec (inject_Z m) (inject_Z n)) as [G | G]; [exact G |].
    exfalso. assert (inject_Z n / 5000 <= inject_Z m / 5000) by (apply Qdiv_le_mono; lra). lra. }
  rewrite <- Zlt_Qlt in L.
  assert (L' : inject_Z (m + 1) <= inject_Z n) by (rewrite <- Zle_Qle; lia).
  rewrite inject_Z_plus in L'. change (inject_Z 1) with 1 in L'.
  assert (E : inject_Z m / 5000 + (1 # 5000) == (inject_Z m + 1) / 5000) by field.
  rewrite E. apply Qdiv_le_mono; lra.
Qed.

Lemma bt709_lt_pixel p q : bt709 p < bt709 q -> bt709 p + (1 # 5000) <= bt709 q.
Proof. rewrite !bt709_grid. apply grid_lt. Qed.

Lemma bt709_lt_int p (z : Z) : bt709 p < inject_Z z -> bt709 p + (1 # 5000) <= inject_Z z.
Proof.
  assert (E : inject_Z z == inject_Z (5000 * z) / 5000).
  { rewrite inject_Z_mult. change (inject_Z 5000) with 5000. field. }
  rewrite E, bt709_grid. apply grid_lt.
Qed.

Lemma bt709_gt_int p (z : Z) : inject_Z z < bt709 p -> inject_Z z + (1 # 5000) <= bt709 p.
Proof.
  assert (E : inject_Z z == inject_Z (5000 * z) / 5000).
  { rewrite inject_Z_mult. change (inject_Z 5000) with 5000. field. }
  rewrite E, bt709_grid. apply grid_lt.
Qed.

Lemma soft_dyadic (s : Z) :
  inject_Z s - (1 # 16384) == inject_Z (s * 16384 - 1) * pow2 (-14).
Proof.
  change (pow2 (-14)) with (1 # 16384). unfold Z.sub.
  rewrite inject_Z_plus, inject_Z_mult.
  change (inject_Z 16384) with 16384. change (inject_Z (- (1))) with (-1). field.
Qed.

Lemma soft_bounds (s : Z) : (1 <= s <= 200)%Z -> 1 <= inject_Z s /\ inject_Z s <= 200.
Proof.
  intros H. split; [change 1 with (inject_Z 1) | change 200 with (inject_Z 200)];
    rewrite <- Zle_Qle; lia.
Qed.

Lemma byte_of_small a : 0 <= a -> a <= 1 # 64 -> astype_uint8 a = 0%Z.
Proof.
  intros H0 H1. rewrite astype_uint8_floor by exact H0.
  pose proof (Qfloor_le a) as F1. pose proof (Qlt_floor a) as F2.
  assert (G1 : (0 <= Qfloor a)%Z).
  { rewrite <- (Qfloor_Z 0). apply Qfloor_resp_le. exact H0. }
  assert (G2 : (Qfloor a < 1)%Z).
  { rewrite Zlt_Qlt. change (inject_Z 1) with 1. lra. }
  lia.
Qed.

Lemma byte_of_large a : 254 <= a -> a <= 255 -> (254 <= astype_uint8 a <= 255)%Z.
Proof.
  intros H0 H1. rewrite astype_uint8_floor by lra. split.
  - rewrite <- (Qfloor_Z 254). apply Qfloor_resp_le. exact H0.
  - rewrite <- (Qfloor_Z 255). apply Qfloor_resp_le. exact H1.
Qed.

(** *** The ramps next to their ends

    A luminance within 2^-14 of an end of the ramp: the alpha byte is
    the one of that end, or one less at the opaque end. *)

Lemma dark_alpha_near_low x threshold softness :
  (0 <= threshold <= 255)%Z -> (1 <= softness <= 200)%Z ->
  x <= inject_Z threshold + (1 # 16384) ->
  astype_uint8 (dark_alpha x threshold softness) = 0%Z.
Proof.
  intros Ht Hs Hx. destruct (soft_bounds softness Hs) as [S1 S2].
  apply byte_of_small; [exact (proj1 (dark_alpha_range _ _ _)) |].
  unfold dark_alpha, dark_ramp. rewrite Z.max_l by lia. rewrite !of_int_exact by lia.
  rewrite lit0, lit255.
  assert (F1 : fsub x (inject_Z threshold) <= 1 # 16384).
  { rewrite fsub_eq. apply (rnd32_le_fix _ _ 1 (-14)); [lra | reflexivity | reflexivity | lia]. }
  set (f1 := fsub x (inject_Z threshold)) in *. clearbody f1.
  assert (F2 : fdiv f1 (inject_Z softness) <= 1 # 16384).
  { rewrite fdiv_eq. apply (rnd32_le_fix _ _ 1 (-14)); [| reflexivity | reflexivity | lia].
    apply Qle_shift_div_r; [lra | nra]. }
  set (f2 := fdiv f1 (inject_Z softness)) in *. clearbody f2.
  assert (F3 : fmul f2 255 <= 1 # 64).
  { rewrite fmul_eq. apply (rnd32_le_fix _ _ 1 (-6)); [lra | reflexivity | reflexivity | lia]. }
  set (f3 := fmul f2 255) in *. clearbody f3.
  unfold clip. apply Q.min_le_iff. left. apply Q.max_lub; lra.
Qed.

Lemma dark_alpha_near_high x threshold softness :
  (0 <= threshold <= 255)%Z -> (1 <= softness <= 200)%Z ->
  inject_Z (threshold + softness) - (1 # 16384) <= x ->
  (254 <= astype_uint8 (dark_alpha x threshold softness) <= 255)%Z.
Proof.
  intros Ht Hs Hx. destruct (soft_bounds softness Hs) as [S1 S2].
  rewrite inject_Z_plus in Hx.
  apply byte_of_large; [| exact (proj2 (dark_alpha_range _ _ _))].
  unfold dark_alpha, dark_ramp. rewrite Z.max_l by lia. rewrite !of_int_exact by lia.
  rewrite lit0, lit255.
  assert (F1 : inject_Z softness - (1 # 16384) <= fsub x (inject_Z threshold)).
  { rewrite fsub_eq.
    apply (rnd32_ge_fix _ _ (softness * 16384 - 1) (-14)); [lra | apply soft_dyadic | lia | lia]. }
  set (f1 := fsub x (inject_Z threshold)) in *. clearbody f1.
  assert (F2 : 16383 # 16384 <= fdiv f1 (inject_Z softness)).
  { rewrite fdiv_eq. apply (rnd32_ge_fix _ _ 16383 (-14)); [| reflexivity | reflexivity | lia].
    apply Qle_shift_div_l; [lra | nra]. }
  set (f2 := fdiv f1 (inject_Z softness)) in *. clearbody f2.
  assert (F3 : 254 <= fmul f2 255).
  { rewrite fmul_eq. apply (rnd32_ge_fix _ _ 254 0); [lra | reflexivity | reflexivity | lia]. }
  set (f3 := fmul f2 255) in *. clearbody f3.
  unfold clip. apply Q.min_glb; [| lra]. apply Q.max_le_iff. left. exact F3.
Qed.

Lemma light_alpha_near_high x threshold softness :
  (0 <= threshold <= 255)%Z -> (1 <= softness <= 200)%Z ->
  inject_Z (threshold + softness) - (1 # 16384) <= x ->
  astype_uint8 (light_alpha x threshold softness) = 0%Z.
Proof.
  intros Ht Hs Hx. destruct (soft_bounds softness Hs) as [S1 S2].
  rewrite inject_Z_plus in Hx.
  apply byte_of_small; [exact (proj1 (light_alpha_range _ _ _)) |].
  unfold light_alpha. rewrite Z.max_l by lia. rewrite !of_int_exact by lia.
  rewrite lit0, lit255.
  assert (F1 : fsub (inject_Z threshold) x <= - (inject_Z softness - (1 # 16384))).
  { rewrite fsub_eq.
    apply (rnd32_le_fix _ _ (- (softness * 16384 - 1)) (-14)); [lra | | lia | lia].
    rewrite inject_Z_opp, soft_dyadic. ring. }
  set (f1 := fsub (inject_Z threshold) x) in *. clearbody f1.
  assert (F2 : fdiv f1 (inject_Z softness) <= - (16383 # 16384)).
  { rewrite fdiv_eq. apply (rnd32_le_fix _ _ (-16383) (-14)); [| reflexivity | reflexivity | lia].
    apply Qle_shift_div_r; [lra | nra]. }
  set (f2 := fdiv f1 (inject_Z softness)) in *. clearbody f2.
  assert (F3 : fmul f2 255 <= - (4177665 # 16384)).
  { rewrite fmul_eq. apply (rnd32_le_fix _ _ (-4177665) (-14)); [lra | reflexivity | reflexivity | lia]. }
  set (f3 := fmul f2 255) in *. clearbody f3.
  assert (F4 : fadd f3 255 <= 1 # 64).
  { rewrite fadd_eq. apply (rnd32_le_fix _ _ 1 (-6)); [lra | reflexivity | reflexivity | lia]. }
  set (f4 := fadd f3 255) in *. clearbody f4.
  unfold clip. apply Q.min_le_iff. left. apply Q.max_lub; lra.
Qed.

Lemma light_alpha_near_low x threshold softness :
  (0 <= threshold <= 255)%Z -> (1 <= softness <= 200)%Z ->
  x <= inject_Z threshold + (1 # 16384) ->
  (254 <= astype_uint8 (light_alpha x threshold softness) <= 255)%Z.
Proof.
  intros Ht Hs Hx. destruct (soft_bounds softness Hs) as [S1 S2].
  apply byte_of_large; [| exact (proj2 (light_alpha_range _ _ _))].
  unfold light_alpha. rewrite Z.max_l by lia. rewrite !of_int_exact by lia.
  rewrite lit0, lit255.
  assert (F1 : - (1 # 16384) <= fsub (inject_Z threshold) x).
  { rewrite fsub_eq. apply (rnd32_ge_fix _ _ (-1) (-14)); [lra | reflexivity | reflexivity | lia]. }
  set (f1 := fsub (inject_Z threshold) x) in *. clearbody f1.
  assert (F2 : - (1 # 16384) <= fdiv f1 (inject_Z softness)).
  { rewrite fdiv_eq. apply (rnd32_ge_fix _ _ (-1) (-14)); [| reflexivity | reflexivity | lia].
    apply Qle_shift_div_l; [lra | nra]. }
  set (f2 := fdiv f1 (inject_Z softness)) in *. clearbody f2.
  assert (F3 : - (1 # 64) <= fmul f2 255).
  { rewrite fmul_eq. apply (rnd32_ge_fix _ _ (-1) (-6)); [lra | reflexivity | reflexivity | lia]. }
  set (f3 := fmul f2 255) in *. clearbody f3.
  assert (F4 : 254 <= fadd f3 255).
  { rewrite fadd_eq. apply (rnd32_ge_fix _ _ 254 0); [lra | reflexivity | reflexivity | lia]. }
  set (f4 := fadd f3 255) in *. clearbody f4.
  unfold clip. apply Q.min_glb; [| lra]. apply Q.max_le_iff. left. exact F4.
Qed.

(** C1, as the specification states it, fails at the opaque end of the
    ramp: at threshold 35 and softness 25 the pixel (190, 26, 14) has
    BT.709 luminance exactly 60 = threshold + softness, but float32
    computes a luminance just below 60 and the alpha written is 254.
    The grey pixel 60 has the same luminance and gets 255: the alpha is
    not a function of the luminance. *)
Lemma dark_alpha_254_at_ramp_end :
  let p := mkPixel 190 26 14 255 in
  valid_pixel p /\
  bt709 p == inject_Z (35 + 25) /\
  pixel_lum p < bt709 p /\
  chA (dark_pixel 35 25 false p) = 254%Z /\
  bt709 (grey 60) == bt709 p /\
  chA (dark_pixel 35 25 false (grey 60)) = 255%Z.
Proof.
  intros p. split; [unfold valid_pixel, byte; simpl; lia |].
  repeat split; vm_compute; reflexivity.
Qed.

(** C1, amended. Dark mode, for a threshold in [0,255], a softness in
    [1,200] and pixels with 8-bit channels, with [L] the BT.709
    luminance: the luminance the code computes in float32 is within
    2^-14 of [L]; a pixel with [L <= threshold] gets alpha 0; a pixel
    with [L >= threshold + softness] gets alpha 254 or 255, and 255 when
    [L > threshold + softness] or when the computed luminance reaches
    threshold + softness; and a pixel of larger [L], or of larger
    computed luminance, never gets a smaller alpha. *)
Theorem dark_alpha_ramp (threshold softness : Z) (despill : bool) (p q : Pixel) :
  (0 <= threshold <= 255)%Z -> (1 <= softness <= 200)%Z ->
  valid_pixel p -> valid_pixel q ->
  let out := chA (dark_pixel threshold softness despill p) in
  Qabs (pixel_lum p - bt709 p) <= 1 # 16384 /\
  (bt709 p <= inject_Z threshold -> out = 0%Z) /\
  (inject_Z (threshold + softness) <= bt709 p -> (254 <= out <= 255)%Z) /\
  (inject_Z (threshold + softness) < bt709 p -> out = 255%Z) /\
  (inject_Z (threshold + softness) <= pixel_lum p -> out = 255%Z) /\
  (bt709 p < bt709 q -> (out <= chA (dark_pixel threshold softness despill q))%Z) /\
  (pixel_lum p <= pixel_lum q -> (out <= chA (dark_pixel threshold softness despill q))%Z).
Proof.
  intros Ht Hs Hp Hq. cbv zeta. rewrite !dark_pixel_alpha.
  pose proof (lum_close p Hp) as Cp. pose proof (lum_close q Hq) as Cq.
  assert (High : forall x, inject_Z (threshold + softness) <= x ->
                 astype_uint8 (dark_alpha x threshold softness) = 255%Z).
  { intros x H. rewrite (astype_uint8_comp _ 255); [apply (astype_uint8_Z 255) |].
    apply dark_alpha_high; [lia | lia | exact H]. }
  assert (Mono : forall x y, x <= y ->
                 (astype_uint8 (dark_alpha x threshold softness)
                  <= astype_uint8 (dark_alpha y threshold softness))%Z).
  { intros x y H. apply astype_uint8_mono.
    - exact (proj1 (dark_alpha_range _ _ _)).
    - apply dark_alpha_mono, H. }
  split; [exact Cp |].
  apply Qabs_Qle_condition in Cp, Cq.
  split; [| split; [| split; [| split; [| split]]]].
  - intros H. apply dark_alpha_near_low; [exact Ht | exact Hs | lra].
  - intros H. apply dark_alpha_near_high; [exact Ht | exact Hs | lra].
  - intros H. apply bt709_gt_int in H. apply High. lra.
  - apply High.
  - intros H. apply bt709_lt_pixel in H. apply Mono. lra.
  - apply Mono.
Qed.

(** The two scenarios of the specification, black and white pixels at
    threshold 35, softness 25, and the pixel at the end of the ramp. *)
Lemma dark_alpha_ramp_witness :
  ((0 <= 35 <= 255)%Z /\ (1 <= 25 <= 200)%Z /\
   valid_pixel (grey 0) /\ valid_pixel (grey 255) /\ valid_pixel (mkPixel 190 26 14 255)) /\
  chA (dark_pixel 35 25 false (grey 0)) = 0%Z /\
  chA (dark_pixel 35 25 false (grey 255)) = 255%Z /\
  (chA (dark_pixel 35 25 false (grey 0)) <= chA (dark_pixel 35 25 false (grey 255)))%Z /\
  (254 <= chA (dark_pixel 35 25 false (mkPixel 190 26 14 255)) <= 255)%Z.
Proof.
  assert (H1 : (0 <= 35 <= 255)%Z) by lia.
  assert (H2 : (1 <= 25 <= 200)%Z) by lia.
  assert (V0 : valid_pixel (grey 0)) by (unfold valid_pixel, byte; simpl; lia).
  assert (V1 : valid_pixel (grey 255)) by (unfold valid_pixel, byte; simpl; lia).
  assert (V2 : valid_pixel (mkPixel 190 26 14 255)) by (unfold valid_pixel, byte; simpl; lia).
  destruct (dark_alpha_ramp 35 25 false (grey 0) (grey 255) H1 H2 V0 V1)
    as (_ & A & _ & _ & _ & C & _).
  destruct (dark_alpha_ramp 35 25 false (grey 255) (grey 0) H1 H2 V1 V0)
    as (_ & _ & _ & B & _).
  destruct (dark_alpha_ramp 35 25 false (mkPixel 190 26 14 255) (grey 0) H1 H2 V2 V0)
    as (_ & _ & D & _).
  split; [tauto |].
  split; [apply A; vm_compute; discriminate |].
  split; [apply B; vm_compute; reflexivity |].
  split; [apply C; vm_compute; reflexivity |].
  apply D. vm_compute. discriminate.
Defined.

(** C2, as the specification states it, fails: at threshold 35 and
    softness 25 a grey pixel of luminance 40 lies above the threshold,
    and light mode leaves it nearly opaque. *)
Lemma light_alpha_above_threshold :
  valid_pixel (grey 40) /\
  inject_Z 35 <= bt709 (grey 40) /\
  inject_Z 35 <= pixel_lum (grey 40) /\
  chA (light_pixel 35 25 false (grey 40)) = 204%Z.
Proof.
  split; [unfold valid_pixel, byte; simpl; lia |].
  split; [vm_compute; discriminate |].
  split; [vm_compute; discriminate | vm_compute; reflexivity].
Qed.

(** At the threshold itself the opaque end can lose one: the grey pixel
    14 has BT.709 luminance 14, float32 computes a little more, and at
    threshold 14 light mode writes 254. *)
Lemma light_alpha_254_at_threshold :
  bt709 (grey 14) == inject_Z 14 /\
  inject_Z 14 < pixel_lum (grey 14) /\
  chA (light_pixel 14 25 false (grey 14)) = 254%Z.
Proof. repeat split; vm_compute; reflexivity. Qed.

(** C2, amended. Light mode, for a threshold in [0,255], a softness in
    [1,200] and a pixel with 8-bit channels, with [L] the BT.709
    luminance: a pixel with [L >= threshold + softness] gets alpha 0; a
    pixel with [L < threshold], so also one with
    [L <= threshold - softness], gets alpha 255; a pixel with
    [L = threshold] gets 254 or 255. In terms of the luminance the code
    computes in float32 both ends are exact. *)
Theorem light_alpha_ends (threshold softness : Z) (despill : bool) (p : Pixel) :
  (0 <= threshold <= 255)%Z -> (1 <= softness <= 200)%Z -> valid_pixel p ->
  let out := chA (light_pixel threshold softness despill p) in
  (inject_Z (threshold + softness) <= bt709 p -> out = 0%Z) /\
  (bt709 p < inject_Z threshold -> out = 255%Z) /\
  (bt709 p <= inject_Z (threshold - softness) -> out = 255%Z) /\
  (bt709 p <= inject_Z threshold -> (254 <= out <= 255)%Z) /\
  (inject_Z (threshold + softness) <= pixel_lum p -> out = 0%Z) /\
  (pixel_lum p <= inject_Z threshold -> out = 255%Z).
Proof.
  intros Ht Hs Hp. cbv zeta. rewrite !light_pixel_alpha.
  pose proof (lum_close p Hp) as Cp. apply Qabs_Qle_condition in Cp.
  assert (Low : forall x, x <= inject_Z threshold ->
                astype_uint8 (light_alpha x threshold softness) = 255%Z).
  { intros x H. rewrite <- (of_int_exact threshold) in H by lia.
    rewrite (astype_uint8_comp _ _ (light_alpha_low _ _ softness H)).
    apply (astype_uint8_Z 255). }
  assert (Below : bt709 p < inject_Z threshold ->
                  astype_uint8 (light_alpha (pixel_lum p) threshold softness) = 255%Z).
  { intros H. apply bt709_lt_int in H. apply Low. lra. }
  split; [| split; [| split; [| split; [| split]]]].
  - intros H. apply light_alpha_near_high; [exact Ht | exact Hs | lra].
  - exact Below.
  - intros H. apply Below. apply Qle_lt_trans with (1 := H). rewrite <- Zlt_Qlt. lia.
  - intros H. apply light_alpha_near_low; [exact Ht | exact Hs | lra].
  - intros H. rewrite (astype_uint8_comp _ 0); [apply (astype_uint8_Z 0) |].
    apply light_alpha_high; [lia | lia | exact H].
  - apply Low.
Qed.

Lemma light_alpha_ends_witness :
  ((0 <= 35 <= 255)%Z /\ (1 <= 25 <= 200)%Z /\
   valid_pixel (grey 255) /\ valid_pixel (grey 0)) /\
  chA (light_pixel 35 25 false (grey 255)) = 0%Z /\
  chA (light_pixel 35 25 false (grey 0)) = 255%Z.
Proof.
  assert (H1 : (0 <= 35 <= 255)%Z) by lia.
  assert (H2 : (1 <= 25 <= 200)%Z) by lia.
  assert (V0 : valid_pixel (grey 0)) by (unfold valid_pixel, byte; simpl; lia).
  assert (V1 : valid_pixel (grey 255)) by (unfold valid_pixel, byte; simpl; lia).
  destruct (light_alpha_ends 35 25 false (grey 255) H1 H2 V1) as (A & _).
  destruct (light_alpha_ends 35 25 false (grey 0) H1 H2 V0) as (_ & B & _).
  split; [tauto |].
  split; [apply A; vm_compute; discriminate | apply B; vm_compute; reflexivity].
Defined.

(** C3, as the specification states it, fails: at threshold 35 and
    softness 25 the dark alpha at luminance 40 is 51, the light alpha at
    luminance 255 - 40 is 0. The grey pixels 40 and 215 show it on the
    pixel functions. *)
Lemma polarity_mirror_fails :
  astype_uint8 (dark_alpha 40 35 25) = 51%Z /\
  astype_uint8 (light_alpha (255 - 40) 35 25) = 0%Z /\
  pixel_lum (grey 215) == 255 - pixel_lum (grey 40) /\
  chA (dark_pixel 35 25 false (grey 40)) = 51%Z /\
  chA (light_pixel 35 25 false (grey 215)) = 0%Z.
Proof. repeat split; vm_compute; reflexivity. Qed.

(** C3, amended. For every threshold and softness, light mode is the
    complement of dark mode at the same luminance [L], not its mirror at
    [255 - L]: the light ramp is [clip(255 - d, 0, 255)] for [d] the
    dark ramp before clipping, and the two 8-bit alphas add up to 255,
    or to 254 when the truncation drops a fraction on both sides. *)
Theorem light_complements_dark (threshold softness : Z) (L : Q) :
  light_alpha L threshold softness
  == clip (fsub 255 (dark_ramp L threshold softness)) 0 255 /\
  (254 <= astype_uint8 (dark_alpha L threshold softness)
          + astype_uint8 (light_alpha L threshold softness) <= 255)%Z.
Proof.
  split; [apply light_alpha_complement |].
  rewrite (astype_uint8_comp _ _ (light_alpha_complement L threshold softness)).
  unfold dark_alpha. rewrite lit0, lit255.
  set (d := dark_ramp L threshold softness).
  destruct (Qlt_le_dec 0 d) as [Hd0 | Hd0]; [destruct (Qlt_le_dec d 255) as [Hd1 | Hd1] |].
  - (* inside the band *)
    assert (Ed : clip d 0 255 == d) by (apply clip_id; lra).
    rewrite (astype_uint8_comp _ _ Ed).
    rewrite astype_uint8_floor by lra.
    pose proof (Qfloor_le d) as F1. pose proof (Qlt_floor d) as F2.
    set (a := Qfloor d) in *.
    assert (Ha0 : (0 <= a)%Z).
    { unfold a. rewrite <- (Qfloor_Z 0). apply Qfloor_resp_le.
      change (inject_Z 0) with 0. lra. }
    assert (Ha1 : (a <= 254)%Z).
    { assert (inject_Z a < inject_Z 255) by (change (inject_Z 255) with 255; lra).
      rewrite <- Zlt_Qlt in H. lia. }
    rewrite inject_Z_plus in F2. change (inject_Z 1) with 1 in F2.
    assert (Y1 : inject_Z (254 - a) <= fsub 255 d).
    { rewrite fsub_eq. apply rnd32_ge_Z; [lia |].
      unfold Zminus. rewrite inject_Z_plus, inject_Z_opp.
      change (inject_Z 254) with 254. lra. }
    assert (Y2 : fsub 255 d <= inject_Z (255 - a)).
    { rewrite fsub_eq. apply rnd32_le_Z; [lia |].
      unfold Zminus. rewrite inject_Z_plus, inject_Z_opp.
      change (inject_Z 255) with 255. lra. }
    assert (B0 : 0 <= inject_Z (254 - a))
      by (change 0 with (inject_Z 0); rewrite <- Zle_Qle; lia).
    assert (B1 : inject_Z (255 - a) <= 255)
      by (change 255 with (inject_Z 255); rewrite <- Zle_Qle; lia).
    assert (Ey : clip (fsub 255 d) 0 255 == fsub 255 d) by (apply clip_id; lra).
    rewrite (astype_uint8_comp _ _ Ey).
    rewrite astype_uint8_floor by lra.
    pose proof (Qfloor_resp_le _ _ Y1) as G1. pose proof (Qfloor_resp_le _ _ Y2) as G2.
    rewrite Qfloor_Z in G1, G2. lia.
  - (* the dark ramp is saturated *)
    assert (Ed : clip d 0 255 == 255) by (apply clip_hi; lra).
    rewrite (astype_uint8_comp _ _ Ed).
    assert (Y : fsub 255 d <= 0).
    { rewrite fsub_eq. apply (rnd32_le_Z _ 0); [reflexivity |].
      change (inject_Z 0) with 0. lra. }
    assert (Ey : clip (fsub 255 d) 0 255 == 0) by (apply clip_lo; lra).
    rewrite (astype_uint8_comp _ _ Ey).
    change (astype_uint8 255) with 255%Z. change (astype_uint8 0) with 0%Z. lia.
  - (* the dark ramp is not positive *)
    assert (Ed : clip d 0 255 == 0) by (apply clip_lo; lra).
    rewrite (astype_uint8_comp _ _ Ed).
    assert (Y : 255 <= fsub 255 d).
    { rewrite fsub_eq. apply (rnd32_ge_Z _ 255); [reflexivity |].
      change (inject_Z 255) with 255. lra. }
    assert (Ey : clip (fsub 255 d) 0 255 == 255) by (apply clip_hi; lra).
    rewrite (astype_uint8_comp _ _ Ey).
    change (astype_uint8 255) with 255%Z. change (astype_uint8 0) with 0%Z. lia.
Qed.

(** ** The despill corrector *)

Lemma despill_table :
  forallb (fun m => forallb (despill_entry_ok m) all_bytes) all_bytes = true.
Proof. vm_compute. reflexivity. Qed.


Lemma forallb_bytes2 (f : Z -> Z -> bool) :
  forallb (fun m => forallb (f m) all_bytes) all_bytes = true ->
  forall m ch, byte m -> byte ch -> f m ch = true.
Proof.
  intros T m ch Hm Hc. rewrite forallb_forall in T.
  specialize (T m (in_all_bytes m Hm)). rewrite forallb_forall in T.
  exact (T ch (in_all_bytes ch Hc)).
Qed.

Lemma despill_entry m ch : byte m -> byte ch -> despill_entry_ok m ch = true.
Proof. exact (forallb_bytes2 despill_entry_ok despill_table m ch). Qed.

(** The float32 despill of a byte stays within 2^-16 of the rule. *)
Lemma despill_close m ch :
  byte m -> byte ch ->
  Qabs (despill_channel (inject_Z m) (inject_Z ch) - despill_rule m ch) <= 1 # 65536.
Proof.
  intros Hm Hc. pose proof (despill_entry m ch Hm Hc) as E.
  unfold despill_entry_ok in E. apply andb_prop in E. destruct E as [E _].
  apply andb_prop in E. destruct E as [E _]. apply Qle_bool_iff, E.
Qed.

(** Towards [mx]: a channel at or below [m]. *)
Lemma despill_below m ch :
  byte m -> byte ch -> (ch <= m)%Z ->
  let b := astype_uint8 (despill_channel (inject_Z m) (inject_Z ch)) in
  b = Qfloor (despill_rule m ch) /\ (0 <= b <= ch)%Z.
Proof.
  intros Hm Hc Hle. pose proof (despill_entry m ch Hm Hc) as E.
  unfold despill_entry_ok in E. apply andb_prop in E. destruct E as [E _].
  apply andb_prop in E. destruct E as [_ E].
  apply Z.leb_le in Hle. rewrite Hle in E.
  apply andb_prop in E. destruct E as [E E3]. apply andb_prop in E. destruct E as [E1 E2].
  apply Z.eqb_eq in E1. apply Z.leb_le in E2, E3. cbv zeta. lia.
Qed.

(** Towards [mn]: a channel at or above [m]. *)
Lemma despill_above m ch :
  byte m -> byte ch -> (m <= ch)%Z ->
  let b := astype_uint8 (despill_channel (inject_Z m) (inject_Z ch)) in
  (ch <= b <= 255)%Z /\ (Qfloor (despill_rule m ch) - 1 <= b <= Qfloor (despill_rule m ch))%Z.
Proof.
  intros Hm Hc Hle. pose proof (despill_entry m ch Hm Hc) as E.
  unfold despill_entry_ok in E. apply andb_prop in E. destruct E as [_ E].
  apply Z.leb_le in Hle. rewrite Hle in E.
  apply andb_prop in E. destruct E as [E E4]. apply andb_prop in E. destruct E as [E E3].
  apply andb_prop in E. destruct E as [E1 E2].
  apply Z.leb_le in E1, E2, E3, E4. cbv zeta. lia.
Qed.

Lemma Qmax_inject_Z a b : Qmax (inject_Z a) (inject_Z b) = inject_Z (Z.max a b).
Proof.
  unfold Qmax, GenericMinMax.gmax.
  destruct (Qcompare_spec (inject_Z a) (inject_Z b)) as [H | H | H].
  - apply (proj1 (inject_Z_injective a b)) in H. subst b. rewrite Z.max_id. reflexivity.
  - rewrite <- Zlt_Qlt in H. rewrite Z.max_r by lia. reflexivity.
  - rewrite <- Zlt_Qlt in H. rewrite Z.max_l by lia. reflexivity.
Qed.

Lemma Qmin_inject_Z a b : Qmin (inject_Z a) (inject_Z b) = inject_Z (Z.min a b).
Proof.
  unfold Qmin, GenericMinMax.gmin.
  destruct (Qcompare_spec (inject_Z a) (inject_Z b)) as [H | H | H].
  - apply (proj1 (inject_Z_injective a b)) in H. subst b. rewrite Z.min_id. reflexivity.
  - rewrite <- Zlt_Qlt in H. rewrite Z.min_l by lia. reflexivity.
  - rewrite <- Zlt_Qlt in H. rewrite Z.min_r by lia. reflexivity.
Qed.


(** What the two pixel functions store in a colour channel. *)
Lemma dark_pixel_channel threshold softness despill p ch :
  valid_pixel p -> In ch [0; 1; 2]%nat ->
  channel ch (dark_pixel threshold softness despill p)
  = astype_uint8
      (np_where (despill && mask (dark_alpha (pixel_lum p) threshold softness))
                (despill_channel (inject_Z (mx_of p)) (inject_Z (channel ch p)))
                (inject_Z (channel ch p))).
Proof.
  intros (HR & HG & HB & _) Hch. unfold dark_pixel, mx_of, pixel_lum.
  rewrite !(of_int_byte _ HR), !(of_int_byte _ HG), !(of_int_byte _ HB).
  rewrite !Qmax_inject_Z.
  destruct Hch as [<- | [<- | [<- | []]]]; reflexivity.
Qed.

Lemma light_pixel_channel threshold softness despill p ch :
  valid_pixel p -> In ch [0; 1; 2]%nat ->
  channel ch (light_pixel threshold softness despill p)
  = astype_uint8
      (np_where (despill && mask (light_alpha (pixel_lum p) threshold softness))
                (despill_channel (inject_Z (mn_of p)) (inject_Z (channel ch p)))
                (inject_Z (channel ch p))).
Proof.
  intros (HR & HG & HB & _) Hch. unfold light_pixel, mn_of, pixel_lum.
  rewrite !(of_int_byte _ HR), !(of_int_byte _ HG), !(of_int_byte _ HB).
  rewrite !Qmin_inject_Z.
  destruct Hch as [<- | [<- | [<- | []]]]; reflexivity.
Qed.

Lemma channel_byte p ch : valid_pixel p -> byte (channel ch p).
Proof.
  intros (HR & HG & HB & HA).
  destruct ch as [| [| [| ch]]]; assumption.
Qed.

Lemma mx_of_spec p :
  valid_pixel p -> byte (mx_of p) /\ forall ch, In ch [0; 1; 2]%nat -> (channel ch p <= mx_of p)%Z.
Proof.
  intros (HR & HG & HB & _). unfold mx_of, byte in *. split; [lia |].
  intros ch [<- | [<- | [<- | []]]]; simpl; lia.
Qed.

Lemma mn_of_spec p :
  valid_pixel p -> byte (mn_of p) /\ forall ch, In ch [0; 1; 2]%nat -> (mn_of p <= channel ch p)%Z.
Proof.
  intros (HR & HG & HB & _). unfold mn_of, byte in *. split; [lia |].
  intros ch [<- | [<- | [<- | []]]]; simpl; lia.
Qed.

(** The band, as the mask tests it. *)
Lemma mask_iff a : mask a = true <-> 0 < a /\ a < 200.
Proof.
  unfold mask. rewrite andb_true_iff, !Qlt_bool_iff.
  rewrite (of_int_exact 0), (of_int_exact 200) by reflexivity. reflexivity.
Qed.

Lemma rgb_channels p : rgb p = (channel 0 p, channel 1 p, channel 2 p).
Proof. reflexivity. Qed.

Lemma mask_false a : a <= 0 \/ 200 <= a -> mask a = false.
Proof.
  intros H. destruct (mask a) eqn:E; [| reflexivity].
  apply mask_iff in E. exfalso. destruct H; lra.
Qed.

Lemma dark_unmasked threshold softness despill p :
  valid_pixel p ->
  despill && mask (dark_alpha (pixel_lum p) threshold softness) = false ->
  rgb (dark_pixel threshold softness despill p) = rgb p.
Proof.
  intros Hp Hm. rewrite !rgb_channels.
  rewrite !(dark_pixel_channel _ _ _ _ _ Hp) by (simpl; tauto).
  rewrite Hm. unfold np_where. rewrite !astype_uint8_Z. reflexivity.
Qed.

Lemma light_unmasked threshold softness despill p :
  valid_pixel p ->
  despill && mask (light_alpha (pixel_lum p) threshold softness) = false ->
  rgb (light_pixel threshold softness despill p) = rgb p.
Proof.
  intros Hp Hm. rewrite !rgb_channels.
  rewrite !(light_pixel_channel _ _ _ _ _ Hp) by (simpl; tauto).
  rewrite Hm. unfold np_where. rewrite !astype_uint8_Z. reflexivity.
Qed.

Lemma alpha_byte_200 a : 0 <= a -> (200 <= astype_uint8 a)%Z -> 200 <= a.
Proof.
  intros Ha H. rewrite astype_uint8_floor in H by exact Ha.
  apply Qle_trans with (2 := Qfloor_le a).
  change 200 with (inject_Z 200). rewrite <- Zle_Qle. exact H.
Qed.

(** C5, as the specification states it, fails: at threshold 35 and
    softness 25 the pixel (29, 40, 4) has a ramp value between 0 and 1;
    it is written with alpha 0, and despill has changed its red and blue
    channels. *)
Lemma despill_changes_alpha0_pixel :
  let p := mkPixel 29 40 4 255 in
  valid_pixel p /\
  chA (dark_pixel 35 25 true p) = 0%Z /\
  rgb p = (29, 40, 4)%Z /\
  rgb (dark_pixel 35 25 true p) = (25, 40, 0)%Z.
Proof.
  intros p. split; [unfold valid_pixel, byte; simpl; lia |].
  repeat split; vm_compute; reflexivity.
Qed.

(** C5, amended. With [a] the ramp value of a pixel before its
    truncation to 8 bits: when despill is off, or [a <= 0], or
    [200 <= a] (which covers every pixel whose output alpha byte is 200
    or more, 255 included) the R, G, B channels leave unchanged; a pixel
    whose R, G, B change has despill on and [0 < a < 200]. This holds in
    dark and in light mode. *)
Theorem despill_frame (threshold softness : Z) (despill : bool) (p : Pixel) :
  valid_pixel p ->
  let ad := dark_alpha (pixel_lum p) threshold softness in
  let al := light_alpha (pixel_lum p) threshold softness in
  let outd := dark_pixel threshold softness despill p in
  let outl := light_pixel threshold softness despill p in
  (despill = false \/ ad <= 0 \/ 200 <= ad -> rgb outd = rgb p) /\
  (despill = false \/ al <= 0 \/ 200 <= al -> rgb outl = rgb p) /\
  ((200 <= chA outd)%Z -> rgb outd = rgb p) /\
  ((200 <= chA outl)%Z -> rgb outl = rgb p) /\
  (rgb outd <> rgb p -> despill = true /\ 0 < ad /\ ad < 200) /\
  (rgb outl <> rgb p -> despill = true /\ 0 < al /\ al < 200).
Proof.
  intros Hp ad al outd outl.
  assert (Fd : despill = false \/ ad <= 0 \/ 200 <= ad -> rgb outd = rgb p).
  { intros H. apply dark_unmasked; [exact Hp |]. fold ad.
    destruct H as [-> | H]; [reflexivity |]. rewrite (mask_false _ H). apply andb_false_r. }
  assert (Fl : despill = false \/ al <= 0 \/ 200 <= al -> rgb outl = rgb p).
  { intros H. apply light_unmasked; [exact Hp |]. fold al.
    destruct H as [-> | H]; [reflexivity |]. rewrite (mask_false _ H). apply andb_false_r. }
  assert (Bd : (200 <= chA outd)%Z -> 200 <= ad).
  { unfold outd. rewrite dark_pixel_alpha. fold ad.
    exact (alpha_byte_200 ad (proj1 (dark_alpha_range _ _ _))). }
  assert (Bl : (200 <= chA outl)%Z -> 200 <= al).
  { unfold outl. rewrite light_pixel_alpha. fold al.
    exact (alpha_byte_200 al (proj1 (light_alpha_range _ _ _))). }
  clearbody outd outl. clearbody ad al.
  split; [exact Fd |]. split; [exact Fl |].
  split; [intros H; apply Fd; right; right; exact (Bd H) |].
  split; [intros H; apply Fl; right; right; exact (Bl H) |].
  split.
  - intros H. split; [| split].
    + destruct despill; [reflexivity |]. exfalso. apply H, Fd. left. reflexivity.
    + destruct (Qlt_le_dec 0 ad) as [G | G]; [exact G |]. exfalso. apply H, Fd. tauto.
    + destruct (Qlt_le_dec ad 200) as [G | G]; [exact G |]. exfalso. apply H, Fd. tauto.
  - intros H. split; [| split].
    + destruct despill; [reflexivity |]. exfalso. apply H, Fl. left. reflexivity.
    + destruct (Qlt_le_dec 0 al) as [G | G]; [exact G |]. exfalso. apply H, Fl. tauto.
    + destruct (Qlt_le_dec al 200) as [G | G]; [exact G |]. exfalso. apply H, Fl. tauto.
Qed.

(** An opaque pixel at threshold 35, softness 25, despill on. *)
Lemma despill_frame_witness :
  valid_pixel (mkPixel 100 60 30 255) /\
  rgb (dark_pixel 35 25 true (mkPixel 100 60 30 255)) = rgb (mkPixel 100 60 30 255).
Proof.
  assert (V : valid_pixel (mkPixel 100 60 30 255)) by (unfold valid_pixel, byte; simpl; lia).
  split; [exact V |].
  destruct (despill_frame 35 25 true (mkPixel 100 60 30 255) V) as (_ & _ & F & _).
  apply F. vm_compute. discriminate.
Defined.

(** C6, as the specification states it, fails in light mode: the pixel
    (100, 10, 200) lies in the band at threshold 10, softness 100; with
    [mn] = 10 the rule gives 10 + 90 * 1.3 = 127 for its red channel,
    float32 with the factor float32(1.3) lands just below 127, and the
    byte written is 126. *)
Lemma light_despill_below_rule :
  let p := mkPixel 100 10 200 255 in
  valid_pixel p /\
  mask (light_alpha (pixel_lum p) 10 100) = true /\
  mn_of p = 10%Z /\
  despill_rule (mn_of p) (chR p) == 127 /\
  chR (light_pixel 10 100 true p) = 126%Z.
Proof.
  intros p. split; [unfold valid_pixel, byte; simpl; lia |].
  repeat split; vm_compute; reflexivity.
Qed.

(** C6, amended. For a pixel of the band ([0 < alpha < 200], despill on) and each
    of its channels 0, 1, 2: in dark mode, with [mx] the largest of R, G,
    B, the value stored is [clip(mx + (channel - mx) * factor, 0, 255)]
    computed in float32 with [factor = 1.3]; it lies within 2^-16 of the
    rule [clamp(mx + (channel - mx) * 1.3, 0, 255)] of exact arithmetic,
    and the byte written is the floor of that rule. Light mode is the
    same with [mn], the smallest of R, G, B; there the byte is the floor
    of the rule or one less. The band is [0 < alpha < 200]. *)
Theorem despill_formula (threshold softness : Z) (p : Pixel) (ch : nat) :
  valid_pixel p -> In ch [0; 1; 2]%nat ->
  (mask (dark_alpha (pixel_lum p) threshold softness) = true ->
   let v := despill_channel (inject_Z (mx_of p)) (inject_Z (channel ch p)) in
   let out := channel ch (dark_pixel threshold softness true p) in
   out = astype_uint8 v /\
   Qabs (v - despill_rule (mx_of p) (channel ch p)) <= 1 # 65536 /\
   out = Qfloor (despill_rule (mx_of p) (channel ch p))) /\
  (mask (light_alpha (pixel_lum p) threshold softness) = true ->
   let v := despill_channel (inject_Z (mn_of p)) (inject_Z (channel ch p)) in
   let out := channel ch (light_pixel threshold softness true p) in
   out = astype_uint8 v /\
   Qabs (v - despill_rule (mn_of p) (channel ch p)) <= 1 # 65536 /\
   (Qfloor (despill_rule (mn_of p) (channel ch p)) - 1 <= out
    <= Qfloor (despill_rule (mn_of p) (channel ch p)))%Z) /\
  (forall m c, despill_channel m c = clip (fadd m (fmul (fsub c m) (literal (13 # 10)))) 0 255) /\
  (forall a, mask a = true <-> 0 < a /\ a < 200).
Proof.
  intros Hp Hch.
  pose proof (channel_byte p ch Hp) as Hc.
  destruct (mx_of_spec p Hp) as [Hmx Hle]. destruct (mn_of_spec p Hp) as [Hmn Hge].
  split; [| split; [| split]].
  - intros H. cbv zeta.
    rewrite (dark_pixel_channel _ _ _ _ _ Hp Hch), H. simpl np_where.
    split; [reflexivity |]. split; [apply despill_close; assumption |].
    apply despill_below; [assumption | assumption | apply Hle, Hch].
  - intros H. cbv zeta.
    rewrite (light_pixel_channel _ _ _ _ _ Hp Hch), H. simpl np_where.
    split; [reflexivity |]. split; [apply despill_close; assumption |].
    apply despill_above; [assumption | assumption | apply Hge, Hch].
  - intros m c. unfold despill_channel, factor.
    rewrite (of_int_exact 0), (of_int_exact 255) by reflexivity. reflexivity.
  - apply mask_iff.
Qed.

(** The red channel of a band pixel in dark mode, and of one in light
    mode where the byte falls one below the floor of the rule. *)
Lemma despill_formula_witness :
  (valid_pixel (mkPixel 60 100 30 255) /\ In 0%nat [0; 1; 2]%nat) /\
  channel 0 (dark_pixel 35 200 true (mkPixel 60 100 30 255)) = 48%Z /\
  (valid_pixel (mkPixel 100 10 200 255) /\ In 0%nat [0; 1; 2]%nat) /\
  (Qfloor (despill_rule 10 100) - 1
   <= channel 0 (light_pixel 10 100 true (mkPixel 100 10 200 255))
   <= Qfloor (despill_rule 10 100))%Z.
Proof.
  assert (V1 : valid_pixel (mkPixel 60 100 30 255)) by (unfold valid_pixel, byte; simpl; lia).
  assert (V2 : valid_pixel (mkPixel 100 10 200 255)) by (unfold valid_pixel, byte; simpl; lia).
  assert (I : In 0%nat [0; 1; 2]%nat) by (left; reflexivity).
  destruct (despill_formula 35 200 (mkPixel 60 100 30 255) 0 V1 I) as (D & _ & _).
  destruct (despill_formula 10 100 (mkPixel 100 10 200 255) 0 V2 I) as (_ & L & _).
  split; [split; assumption |].
  split.
  - destruct D as (_ & _ & D); [vm_compute; reflexivity |]. rewrite D. vm_compute. reflexivity.
  - split; [split; assumption |].
    destruct L as (_ & _ & L); [vm_compute; reflexivity |]. exact L.
Defined.

(** C10. For every pixel with 8-bit channels, so for every pixel of the
    band: dark-mode despill raises no channel and keeps the largest of
    R, G, B; light-mode despill lowers no channel and keeps the smallest
    of R, G, B. *)
Theorem despill_direction (threshold softness : Z) (despill : bool) (p : Pixel) :
  valid_pixel p ->
  let outd := dark_pixel threshold softness despill p in
  let outl := light_pixel threshold softness despill p in
  (forall ch, In ch [0; 1; 2]%nat -> (channel ch outd <= channel ch p)%Z) /\
  mx_of outd = mx_of p /\
  (forall ch, In ch [0; 1; 2]%nat -> (channel ch p <= channel ch outl)%Z) /\
  mn_of outl = mn_of p.
Proof.
  intros Hp outd outl.
  destruct (mx_of_spec p Hp) as [Hmx Hle]. destruct (mn_of_spec p Hp) as [Hmn Hge].
  assert (D : forall ch, In ch [0; 1; 2]%nat ->
              (channel ch outd <= channel ch p)%Z /\
              (channel ch p = mx_of p -> channel ch outd = channel ch p)).
  { intros ch Hch. unfold outd. rewrite (dark_pixel_channel _ _ _ _ _ Hp Hch).
    destruct (despill && mask _); simpl np_where.
    - pose proof (despill_below _ _ Hmx (channel_byte p ch Hp) (Hle ch Hch)) as [_ B].
      pose proof (despill_above _ _ Hmx (channel_byte p ch Hp)) as A.
      cbv zeta in B, A. split; [lia |]. intros E.
      assert (E' : (mx_of p <= channel ch p)%Z) by lia.
      specialize (A E'). lia.
    - rewrite astype_uint8_Z. split; [lia | reflexivity]. }
  assert (L : forall ch, In ch [0; 1; 2]%nat ->
              (channel ch p <= channel ch outl)%Z /\
              (channel ch p = mn_of p -> channel ch outl = channel ch p)).
  { intros ch Hch. unfold outl. rewrite (light_pixel_channel _ _ _ _ _ Hp Hch).
    destruct (despill && mask _); simpl np_where.
    - pose proof (despill_above _ _ Hmn (channel_byte p ch Hp) (Hge ch Hch)) as [A _].
      pose proof (despill_below _ _ Hmn (channel_byte p ch Hp)) as B.
      cbv zeta in B, A. split; [lia |]. intros E.
      assert (E' : (channel ch p <= mn_of p)%Z) by lia.
      specialize (B E'). lia.
    - rewrite astype_uint8_Z. split; [lia | reflexivity]. }
  clearbody outd outl.
  destruct (D 0%nat ltac:(simpl; tauto)) as [D0 D0'].
  destruct (D 1%nat ltac:(simpl; tauto)) as [D1 D1'].
  destruct (D 2%nat ltac:(simpl; tauto)) as [D2 D2'].
  destruct (L 0%nat ltac:(simpl; tauto)) as [L0 L0'].
  destruct (L 1%nat ltac:(simpl; tauto)) as [L1 L1'].
  destruct (L 2%nat ltac:(simpl; tauto)) as [L2 L2'].
  split; [intros ch Hch; apply D, Hch |].
  split; [| split; [intros ch Hch; apply L, Hch |]].
  - clear D L. unfold mx_of in *. simpl channel in *. lia.
  - clear D L. unfold mn_of in *. simpl channel in *. lia.
Qed.

(** A band pixel in dark mode: red and blue fall, green (the largest)
    stays. *)
Lemma despill_direction_witness :
  valid_pixel (mkPixel 60 100 30 255) /\
  rgb (dark_pixel 35 200 true (mkPixel 60 100 30 255)) = (48, 100, 9)%Z /\
  mx_of (dark_pixel 35 200 true (mkPixel 60 100 30 255)) = mx_of (mkPixel 60 100 30 255).
Proof.
  assert (V : valid_pixel (mkPixel 60 100 30 255)) by (unfold valid_pixel, byte; simpl; lia).
  destruct (despill_direction 35 200 true (mkPixel 60 100 30 255) V) as (_ & M & _).
  split; [exact V |]. split; [vm_compute; reflexivity | exact M].
Defined.

(** ** The session cache *)

Import Sessions.

(** C9, as the specification states it, fails: [get_session] holds no
    lock. When two first requests for "silueta" both run the membership
    test before either stores its session, each builds one. *)
Lemma two_sessions_for_one_model :
  exists sys,
    run (fun _ => true) [0; 1; 0; 1; 0; 1; 0; 1]%nat (two_requests "silueta" "silueta")
    = Some sys /\
    forallb finished (threads sys) = true /\
    constructions "silueta" (shared sys) = 2%nat.
Proof. eexists. split; [reflexivity |]. split; vm_compute; reflexivity. Qed.

Lemma constructions_snoc name s st c :
  constructions name (mkStore c (built st ++ [s]))
  = (constructions name st + (if String.eqb (model_id s) name then 1 else 0))%nat.
Proof.
  unfold constructions. simpl built. rewrite List.filter_app, length_app. simpl.
  destruct (String.eqb (model_id s) name); reflexivity.
Qed.

Lemma constructions_cache name c1 c2 b :
  constructions name (mkStore c1 b) = constructions name (mkStore c2 b).
Proof. reflexivity. Qed.

Lemma step_0 loadable st t ts :
  step loadable 0 (mkSystem st (t :: ts))
  = match thread_step loadable st t with
    | None => None
    | Some (st', t') => Some (mkSystem st' (t' :: ts))
    end.
Proof. reflexivity. Qed.

Lemma step_1 loadable st t0 t ts :
  step loadable 1 (mkSystem st (t0 :: t :: ts))
  = match thread_step loadable st t with
    | None => None
    | Some (st', t') => Some (mkSystem st' (t0 :: t' :: ts))
    end.
Proof. reflexivity. Qed.

Lemma at_test_absent loadable st name :
  cache st !! name = None ->
  thread_step loadable st (mkThread name AtTest) = Some (st, mkThread name AtNew).
Proof. intros H. unfold thread_step. simpl. rewrite H. reflexivity. Qed.

Lemma at_test_present loadable st name s :
  cache st !! name = Some s ->
  thread_step loadable st (mkThread name AtTest) = Some (st, mkThread name AtReturn).
Proof. intros H. unfold thread_step. simpl. rewrite H. reflexivity. Qed.

Lemma at_new loadable st name :
  loadable name = true ->
  thread_step loadable st (mkThread name AtNew)
  = Some (mkStore (cache st) (built st ++ [mkSession name (length (built st))]),
          mkThread name (AtAssign (mkSession name (length (built st))))).
Proof. intros H. unfold thread_step, new_session. simpl. rewrite H. reflexivity. Qed.

Lemma at_assign loadable st name s :
  thread_step loadable st (mkThread name (AtAssign s))
  = Some (mkStore (<[name := s]> (cache st)) (built st), mkThread name AtReturn).
Proof. reflexivity. Qed.

Lemma at_return loadable st name s :
  cache st !! name = Some s ->
  thread_step loadable st (mkThread name AtReturn) = Some (st, mkThread name (Returned s)).
Proof. intros H. unfold thread_step. simpl. rewrite H. reflexivity. Qed.

(** One request served alone: the statement-by-statement machine does
    what [get_session] does. *)
Lemma run_alone loadable name st ts :
  loadable name = true -> cache st !! name = None ->
  let s := mkSession name (length (built st)) in
  let st1 := mkStore (<[name := s]> (cache st)) (built st ++ [s]) in
  get_session loadable name st = (Some s, st1) /\
  run loadable [0; 0; 0; 0]%nat (mkSystem st (mkThread name AtTest :: ts))
  = Some (mkSystem st1 (mkThread name (Returned s) :: ts)).
Proof.
  intros Hl Hc s st1. split.
  - unfold get_session, new_session. rewrite Hc, Hl. simpl.
    rewrite lookup_insert_eq. reflexivity.
  - unfold run. rewrite step_0, (at_test_absent _ _ _ Hc).
    rewrite step_0, (at_new _ _ _ Hl). rewrite step_0, at_assign.
    rewrite step_0, (at_return _ _ _ s); [reflexivity |].
    simpl. apply lookup_insert_eq.
Qed.

Import Requests.

(** *** Every schedule: what is built at most, and at least *)

Lemma list_sum_insert (f : Thread -> nat) (l : list Thread) (i : nat) (t t' : Thread) :
  l !! i = Some t ->
  (list_sum (map f (<[i := t']> l)) + f t = list_sum (map f l) + f t')%nat.
Proof.
  revert i. induction l as [| a l IH]; intros i H; [discriminate |].
  destruct i as [| i]; simpl in *.
  - injection H as ->. lia.
  - specialize (IH i H). lia.
Qed.

Lemma constructions_same_built name c1 c2 b :
  constructions name (mkStore c1 b) = constructions name (mkStore c2 b).
Proof. reflexivity. Qed.

Lemma thread_step_budget loadable name st t st' t' :
  thread_step loadable st t = Some (st', t') ->
  (constructions name st' + pending name t' <= constructions name st + pending name t)%nat.
Proof.
  unfold thread_step, pending. destruct t as [n p]. simpl.
  destruct p as [| | s | | s |].
  - destruct (cache st !! n); intros [= <- <-]; simpl; destruct (String.eqb n name); lia.
  - unfold new_session. destruct (loadable n).
    + intros [= <- <-]. simpl. rewrite constructions_snoc. simpl.
      destruct (String.eqb n name); lia.
    + intros [= <- <-]. simpl. destruct (String.eqb n name); lia.
  - intros [= <- <-]. simpl.
    rewrite (constructions_same_built name _ (cache st)).
    destruct st as [c b]. simpl. destruct (String.eqb n name); lia.
  - destruct (cache st !! n); intros [= <- <-]; simpl; destruct (String.eqb n name); lia.
  - discriminate.
  - discriminate.
Qed.

Lemma step_budget loadable name i sys sys' :
  step loadable i sys = Some sys' -> (budget name sys' <= budget name sys)%nat.
Proof.
  unfold step, budget. destruct (threads sys !! i) as [t |] eqn:Ht; [| discriminate].
  destruct (thread_step loadable (shared sys) t) as [[st t'] |] eqn:Hs; [| discriminate].
  intros [= <-]. simpl.
  pose proof (thread_step_budget loadable name _ _ _ _ Hs).
  pose proof (list_sum_insert (pending name) _ _ _ t' Ht). lia.
Qed.

Lemma run_budget loadable name schedule sys sys' :
  run loadable schedule sys = Some sys' -> (budget name sys' <= budget name sys)%nat.
Proof.
  revert sys. induction schedule as [| i rest IH]; intros sys; simpl.
  - intros [= <-]. lia.
  - destruct (step loadable i sys) as [sys1 |] eqn:Hs; [| discriminate].
    intros H. pose proof (step_budget loadable name _ _ _ Hs). specialize (IH _ H). lia.
Qed.

Lemma settled_mono loadable name c0 st st' t :
  (constructions name st <= constructions name st')%nat ->
  (is_Some (cache st !! name) -> is_Some (cache st' !! name)) ->
  settled loadable name c0 st t -> settled loadable name c0 st' t.
Proof.
  intros Hc Hk H Hn. specialize (H Hn). destruct (pc t); try exact H; try (apply Hk, H). lia.
Qed.

Lemma thread_step_grown loadable name c0 st t st' t' :
  thread_step loadable st t = Some (st', t') ->
  (c0 <= constructions name st)%nat ->
  (is_Some (cache st !! name) -> (c0 < constructions name st)%nat) ->
  settled loadable name c0 st t ->
  model_name t' = model_name t /\
  (constructions name st <= constructions name st')%nat /\
  (is_Some (cache st !! name) -> is_Some (cache st' !! name)) /\
  (is_Some (cache st' !! name) -> (c0 < constructions name st')%nat) /\
  settled loadable name c0 st' t'.
Proof.
  unfold thread_step, settled. destruct t as [n p]. simpl.
  destruct p as [| | s | | s |]; intros Hs H0 H1 H2.
  - destruct (cache st !! n) as [s |] eqn:Hc; injection Hs as <- <-; simpl.
    + repeat split; auto. intros ->. rewrite Hc. eauto.
    + repeat split; auto.
  - unfold new_session in Hs. destruct (loadable n) eqn:Hl; injection Hs as <- <-; simpl.
    + rewrite constructions_snoc. simpl.
      split; [reflexivity |]. split; [lia |]. split; [tauto |].
      split; [intros H; specialize (H1 H); lia |].
      intros ->. rewrite String.eqb_refl. lia.
    + repeat split; auto; try (intros ->; exact Hl).
  - injection Hs as <- <-. simpl.
    rewrite (constructions_same_built name _ (cache st)).
    assert (E : constructions name (mkStore (cache st) (built st)) = constructions name st)
      by (destruct st; reflexivity).
    rewrite E.
    split; [reflexivity |]. split; [lia |].
    destruct (decide (n = name)) as [-> | Hne].
    + split; [intros _; rewrite lookup_insert_eq; eauto |].
      split; [intros _; apply H2; reflexivity |].
      intros _. rewrite lookup_insert_eq. eauto.
    + split; [rewrite lookup_insert_ne by exact Hne; tauto |].
      split; [rewrite lookup_insert_ne by exact Hne; exact H1 |].
      intros E'. congruence.
  - destruct (cache st !! n) as [s |] eqn:Hc; injection Hs as <- <-; simpl.
    + repeat split; auto.
    + repeat split; auto. intros ->. specialize (H2 eq_refl).
      rewrite Hc in H2. destruct H2 as [x Hx]. discriminate Hx.
  - discriminate.
  - discriminate.
Qed.

Lemma step_grown loadable name c0 i sys sys' :
  step loadable i sys = Some sys' ->
  grown loadable name c0 sys ->
  grown loadable name c0 sys' /\
  model_name <$> threads sys' = model_name <$> threads sys.
Proof.
  unfold step, grown. destruct (threads sys !! i) as [t |] eqn:Ht; [| discriminate].
  destruct (thread_step loadable (shared sys) t) as [[st t'] |] eqn:Hs; [| discriminate].
  intros [= <-] (H0 & H1 & H2). simpl.
  destruct (thread_step_grown loadable name c0 _ _ _ _ Hs H0 H1
              (proj1 (Forall_lookup _ _) H2 i t Ht)) as (Hn & Hc & Hk & H1' & H2').
  split; [split; [lia | split; [exact H1' |]] |].
  - apply Forall_insert; [| exact H2'].
    eapply List.Forall_impl; [| exact H2]. intros x. apply settled_mono; assumption.
  - rewrite list_fmap_insert, Hn. apply list_insert_id.
    rewrite list_lookup_fmap, Ht. reflexivity.
Qed.

Lemma run_grown loadable name c0 schedule sys sys' :
  run loadable schedule sys = Some sys' ->
  grown loadable name c0 sys ->
  grown loadable name c0 sys' /\
  model_name <$> threads sys' = model_name <$> threads sys.
Proof.
  revert sys. induction schedule as [| i rest IH]; intros sys; simpl.
  - intros [= <-] H. split; [exact H | reflexivity].
  - destruct (step loadable i sys) as [sys1 |] eqn:Hs; [| discriminate].
    intros H G. destruct (step_grown _ _ _ _ _ _ Hs G) as [G1 N1].
    destruct (IH _ H G1) as [G2 N2]. split; [exact G2 | congruence].
Qed.

(** First requests on a store where [name] is not cached. *)
Lemma grown_start loadable name st names :
  cache st !! name = None ->
  grown loadable name (constructions name st)
        (mkSystem st (map (fun n => mkThread n AtTest) names)).
Proof.
  intros Hc. unfold grown. simpl. split; [lia |]. split.
  - rewrite Hc. intros [x Hx]. discriminate Hx.
  - apply Forall_forall. intros t Ht. apply in_map_iff in Ht.
    destruct Ht as (n & <- & _). intros _. exact I.
Qed.

(** A finished request for a loadable model has left the model built. *)
Lemma grown_finished loadable name c0 sys i t :
  grown loadable name c0 sys -> threads sys !! i = Some t ->
  model_name t = name -> finished t = true -> loadable name = true ->
  (c0 < constructions name (shared sys))%nat.
Proof.
  intros (H0 & H1 & H2) Ht Hn Hf Hl.
  pose proof (proj1 (Forall_lookup _ _) H2 i t Ht Hn) as S.
  unfold finished in Hf. destruct (pc t); try discriminate.
  - apply H1, S.
  - congruence.
Qed.

Lemma budget_start name st names :
  budget name (mkSystem st (map (fun n => mkThread n AtTest) names))
  = (constructions name st + length (List.filter (fun n => String.eqb n name) names))%nat.
Proof.
  unfold budget. simpl. f_equal.
  induction names as [| n names IH]; [reflexivity |].
  simpl. unfold pending at 1. simpl. destruct (String.eqb n name); simpl; lia.
Qed.

(** Two first requests for different models, on any store and under any
    schedule: at most one session is built for each, and exactly one for
    a loadable model that was not cached, once both have finished. *)
Lemma two_models_any_schedule loadable a b st schedule sys :
  a <> b ->
  run loadable schedule (mkSystem st [mkThread a AtTest; mkThread b AtTest]) = Some sys ->
  (constructions a (shared sys) <= S (constructions a st))%nat /\
  (constructions b (shared sys) <= S (constructions b st))%nat /\
  (forallb finished (threads sys) = true ->
   (loadable a = true -> cache st !! a = None ->
    constructions a (shared sys) = S (constructions a st)) /\
   (loadable b = true -> cache st !! b = None ->
    constructions b (shared sys) = S (constructions b st))).
Proof.
  intros Hab H.
  change [mkThread a AtTest; mkThread b AtTest]
    with (map (fun n => mkThread n AtTest) [a; b]) in H.
  assert (Ea : String.eqb b a = false) by (apply String.eqb_neq; congruence).
  assert (Eb : String.eqb a b = false) by (apply String.eqb_neq; congruence).
  pose proof (run_budget loadable a _ _ _ H) as Ba.
  pose proof (run_budget loadable b _ _ _ H) as Bb.
  rewrite budget_start in Ba, Bb.
  assert (La : length (List.filter (fun n => String.eqb n a) [a; b]) = 1%nat)
    by (simpl; rewrite String.eqb_refl, Ea; reflexivity).
  assert (Lb : length (List.filter (fun n => String.eqb n b) [a; b]) = 1%nat)
    by (simpl; rewrite String.eqb_refl, Eb; reflexivity).
  rewrite La in Ba. rewrite Lb in Bb. unfold budget in Ba, Bb.
  split; [lia |]. split; [lia |].
  intros Hf. split.
  - intros Hl Hc.
    destruct (run_grown loadable a _ _ _ _ H (grown_start loadable a st [a; b] Hc)) as [G N].
    simpl in N. destruct (threads sys) as [| t0 [| t1 ts]] eqn:Et; try discriminate.
    injection N as N0 N1 _. simpl in Hf. apply andb_prop in Hf. destruct Hf as [F0 _].
    assert (L : (constructions a st < constructions a (shared sys))%nat).
    { apply (grown_finished loadable a _ sys 0 t0 G); [rewrite Et; reflexivity | | |]; assumption. }
    lia.
  - intros Hl Hc.
    destruct (run_grown loadable b _ _ _ _ H (grown_start loadable b st [a; b] Hc)) as [G N].
    simpl in N. destruct (threads sys) as [| t0 [| t1 ts]] eqn:Et; try discriminate.
    injection N as N0 N1 _. simpl in Hf. apply andb_prop in Hf. destruct Hf as [_ F1].
    apply andb_prop in F1. destruct F1 as [F1 _].
    assert (L : (constructions b st < constructions b (shared sys))%nat).
    { apply (grown_finished loadable b _ sys 1 t1 G); [rewrite Et; reflexivity | | |]; assumption. }
    lia.
Qed.

(** C9, amended. Resolutions of one identifier that run one after the
    other build exactly one session: the first builds and stores it and
    every later one returns that same object without building; other
    identifiers are left alone. Two first requests for different
    identifiers build at most one session each however their statements
    interleave, and exactly one each once both have finished (for the
    other identifier: when it is loadable and was not cached). No lock
    guards the test and the store, so this does not hold of two
    interleaved first requests for the same identifier. *)
Theorem one_session_when_sequential (loadable : string -> bool) (name : string) (st : Store) :
  loadable name = true -> cache st !! name = None ->
  exists s st1,
    get_session loadable name st = (Some s, st1) /\
    constructions name st1 = S (constructions name st) /\
    get_session loadable name st1 = (Some s, st1) /\
    (forall other, other <> name ->
       cache st1 !! other = cache st !! other /\
       constructions other st1 = constructions other st) /\
    (exists sys,
       run loadable [0; 0; 0; 0; 1; 1]%nat
           (mkSystem st [mkThread name AtTest; mkThread name AtTest]) = Some sys /\
       shared sys = st1 /\
       threads sys = [mkThread name (Returned s); mkThread name (Returned s)]) /\
    (forall other, other <> name -> loadable other = true -> cache st !! other = None ->
       exists sys,
         run loadable [0; 1; 0; 1; 0; 1; 0; 1]%nat
             (mkSystem st [mkThread name AtTest; mkThread other AtTest]) = Some sys /\
         forallb finished (threads sys) = true /\
         constructions name (shared sys) = S (constructions name st) /\
         constructions other (shared sys) = S (constructions other st)) /\
    (forall other schedule sys, other <> name ->
       run loadable schedule (mkSystem st [mkThread name AtTest; mkThread other AtTest])
       = Some sys ->
       (constructions name (shared sys) <= S (constructions name st))%nat /\
       (constructions other (shared sys) <= S (constructions other st))%nat /\
       (forallb finished (threads sys) = true ->
        constructions name (shared sys) = S (constructions name st) /\
        (loadable other = true -> cache st !! other = None ->
         constructions other (shared sys) = S (constructions other st)))).
Proof.
  intros Hl Hc.
  set (s := mkSession name (length (built st))).
  set (st1 := mkStore (<[name := s]> (cache st)) (built st ++ [s])).
  assert (Hs1 : cache st1 !! name = Some s) by (simpl; apply lookup_insert_eq).
  exists s, st1.
  split; [| split; [| split; [| split; [| split; [| split]]]]];
    [| | | | | | intros other schedule sys Hne Hrun;
               destruct (two_models_any_schedule loadable name other st schedule sys
                           ltac:(congruence) Hrun) as (U1 & U2 & F);
               split; [exact U1 |]; split; [exact U2 |];
               intros Hf; destruct (F Hf) as [F1 F2];
               split; [exact (F1 Hl Hc) | exact F2]];
    repeat split.
  - apply (run_alone loadable name st [] Hl Hc).
  - unfold st1. rewrite constructions_snoc. simpl model_id.
    rewrite String.eqb_refl. lia.
  - unfold get_session. rewrite Hs1. reflexivity.
  - simpl. apply lookup_insert_ne. congruence.
  - unfold st1. rewrite constructions_snoc. simpl model_id.
    assert (E : String.eqb name other = false) by (apply String.eqb_neq; congruence).
    rewrite E. lia.
  - eexists. split.
    { unfold run.
      rewrite step_0, (at_test_absent _ _ _ Hc).
      rewrite step_0, (at_new _ _ _ Hl). rewrite step_0, at_assign.
      rewrite step_0, (at_return _ _ _ s); [| simpl; apply lookup_insert_eq].
      rewrite step_1, (at_test_present _ _ _ s); [| simpl; apply lookup_insert_eq].
      rewrite step_1, (at_return _ _ _ s); [| simpl; apply lookup_insert_eq].
      reflexivity. }
    split; reflexivity.
  - intros other Hne Hlo Hco. eexists. split; [| split].
    + unfold run.
      rewrite step_0, (at_test_absent _ _ _ Hc).
      rewrite step_1, (at_test_absent _ _ _ Hco).
      rewrite step_0, (at_new _ _ _ Hl).
      rewrite step_1, (at_new _ _ _ Hlo).
      rewrite step_0, at_assign. rewrite step_1, at_assign.
      rewrite step_0, (at_return _ _ _ s);
        [| simpl; rewrite lookup_insert_ne by congruence; apply lookup_insert_eq].
      rewrite step_1, (at_return _ _ _ (mkSession other (length (built st ++ [s]))));
        [| simpl; apply lookup_insert_eq].
      reflexivity.
    + reflexivity.
    + simpl shared. split.
      * rewrite (constructions_cache _ _ (cache st)).
        change (constructions name
                  (mkStore (cache st)
                     (built (mkStore (cache st) (built st ++ [s]))
                      ++ [mkSession other (length (built st ++ [s]))]))
                = S (constructions name st)).
        rewrite constructions_snoc. simpl model_id.
        rewrite (proj2 (String.eqb_neq other name) Hne).
        rewrite constructions_snoc. simpl model_id. rewrite String.eqb_refl. lia.
      * rewrite (constructions_cache _ _ (cache st)).
        change (constructions other
                  (mkStore (cache st)
                     (built (mkStore (cache st) (built st ++ [s]))
                      ++ [mkSession other (length (built st ++ [s]))]))
                = S (constructions other st)).
        rewrite constructions_snoc. simpl model_id. rewrite String.eqb_refl.
        rewrite constructions_snoc. simpl model_id.
        assert (E : String.eqb name other = false) by (apply String.eqb_neq; congruence).
        rewrite E. lia.
Qed.

(** Two requests for "silueta", one after the other, on a fresh cache. *)
Lemma one_session_when_sequential_witness :
  ((fun _ : string => true) "silueta" = true /\
   cache empty_store !! "silueta" = None) /\
  exists s st1,
    get_session (fun _ => true) "silueta" empty_store = (Some s, st1) /\
    constructions "silueta" st1 = 1%nat /\
    get_session (fun _ => true) "silueta" st1 = (Some s, st1).
Proof.
  assert (H1 : (fun _ : string => true) "silueta" = true) by reflexivity.
  assert (H2 : cache empty_store !! "silueta" = None) by reflexivity.
  split; [split; assumption |].
  destruct (one_session_when_sequential (fun _ => true) "silueta" empty_store H1 H2)
    as (s & st1 & A & B & C & _).
  exists s, st1. split; [exact A |]. split; [exact B | exact C].
Defined.

(** ** The two pipelines *)

Import External.

Lemma size_resize env img sz : size (resize env img sz) = sz.
Proof. destruct sz. reflexivity. Qed.

Lemma size_fit env result sz :
  size (if decide (size result = sz) then result else resize env result sz) = sz.
Proof. destruct (decide (size result = sz)); [assumption | apply size_resize]. Qed.

Lemma size_normalise env img result : size (normalise env img result) = size img.
Proof. unfold normalise. apply size_fit. Qed.

(** C4. Whatever the mode, the picture handed back has the width and
    height of the input: the two luminance routines keep the size; the
    tail of [remove_ai_bg] brings whatever the model returns, of any size
    and mode, back to the size of the input, in both entry points; every
    PNG [process] sends and every file the worker saves has the size of
    the picture that was opened. *)
Theorem output_dimensions (env : Env) (img : Image) :
  (forall threshold softness despill,
     size (remove_dark_bg img threshold softness despill) = size img /\
     size (remove_light_bg img threshold softness despill) = size img) /\
  (forall model alpha st session st1 result,
     get_session (loadable env) model st = (Some session, st1) ->
     rembg_remove env img (Some session) alpha 240 10 10 = Some result ->
     exists out, Web.remove_ai_bg env img model alpha st = (Some out, st1) /\
                 size out = size img) /\
  (forall session alpha fg bg erode result,
     rembg_remove env img session alpha fg bg erode = Some result ->
     exists out, Desktop.remove_ai_bg env img session alpha fg bg erode = Some out /\
                 size out = size img) /\
  (forall MAX_FILE_BYTES req st f out name,
     Web.file req = Some f -> Web.opened f = Some img ->
     Web.body (fst (Web.process env MAX_FILE_BYTES req st)) = Web.Png out name ->
     size out = size img) /\
  (forall mode threshold softness despill session alpha fp out,
     Desktop.opened fp = Some img ->
     fst (Desktop.worker_file env mode threshold softness despill session alpha fp)
     = Desktop.Saved out ->
     size out = size img).
Proof.
  split; [| split; [| split; [| split]]].
  - intros. split; reflexivity.
  - intros model alpha st session st1 result Hs Hr.
    unfold Web.remove_ai_bg. rewrite Hs, Hr. eexists. split; [reflexivity |].
    apply size_normalise.
  - intros session alpha fg bg erode result Hr.
    unfold Desktop.remove_ai_bg. rewrite Hr. eexists. split; [reflexivity |].
    apply size_normalise.
  - intros M req st f out name Hf Ho. unfold Web.process. rewrite Hf, Ho.
    destruct (Web.MAX_CONTENT_LENGTH M <? Web.content_length req)%nat; [discriminate |].
    destruct (String.eqb (Web.filename f) ""); [discriminate |].
    destruct (negb _); [discriminate |].
    destruct (Web.form_threshold req) as [t |]; [| discriminate].
    destruct (Web.form_softness req) as [s |]; [| discriminate].
    destruct (M <? Web.raw_len f)%nat; [discriminate |].
    destruct (String.eqb (Web.form_mode req) "dark").
    { destruct (Web.decodes f); [| discriminate]. simpl. intros [= <- _]. apply size_fit. }
    destruct (String.eqb (Web.form_mode req) "light").
    { destruct (Web.decodes f); [| discriminate]. simpl. intros [= <- _]. apply size_fit. }
    destruct (String.eqb (Web.form_mode req) "ai"); [| discriminate].
    destruct (Web.remove_ai_bg _ _ _ _ _) as [[result |] ss]; [| discriminate].
    simpl. intros [= <- _]. apply size_fit.
  - intros mode threshold softness despill session alpha fp out Ho.
    unfold Desktop.worker_file. rewrite Ho.
    destruct (Desktop.out_exists fp); [discriminate |].
    destruct (String.eqb mode "dark").
    { destruct (Desktop.decodes fp); [| discriminate].
      destruct (Desktop.saves fp); [| discriminate]. simpl. intros [= <-]. apply size_fit. }
    destruct (String.eqb mode "light").
    { destruct (Desktop.decodes fp); [| discriminate].
      destruct (Desktop.saves fp); [| discriminate]. simpl. intros [= <-]. apply size_fit. }
    destruct (Desktop.remove_ai_bg _ _ _ _ _ _ _) as [result |]; [| discriminate].
    destruct (Desktop.saves fp); [| discriminate]. simpl. intros [= <-]. apply size_fit.
Qed.

(** A model that answers with one pixel: the picture of two pixels
    still comes back two pixels wide, from both entry points. *)
Lemma output_dimensions_witness :
  exists out name,
    Web.body (fst (Web.process one_pixel_model 4096 (Web.logo_request "ai")
                               (Web.mkState empty_store [])))
    = Web.Png out name /\
    size out = (2, 1)%nat /\
    exists saved,
      fst (Desktop.worker_file one_pixel_model "ai" 35 25 true None true
                               (Desktop.mkEntry false (Some two_pixels) true true))
      = Desktop.Saved saved /\
      size saved = (2, 1)%nat.
Proof.
  destruct (output_dimensions one_pixel_model two_pixels) as (_ & _ & _ & W & D).
  eexists. eexists. split; [vm_compute; reflexivity |].
  split.
  - eapply (W 4096%nat (Web.logo_request "ai") (Web.mkState empty_store []));
      [reflexivity | reflexivity | vm_compute; reflexivity].
  - eexists. split; [vm_compute; reflexivity |].
    eapply (D "ai"%string 35%Z 25%Z true None true
              (Desktop.mkEntry false (Some two_pixels) true true));
      [reflexivity | vm_compute; reflexivity].
Defined.

(** C7. Whatever integers the threshold and softness fields carry,
    [process] works with [max(0, min(threshold, 255))] and
    [max(1, min(softness, 200))], which lie in [0,255] and [1,200] and
    are the values themselves when these are in range: in a luminance
    mode the picture sent is the matte at exactly these two values. The
    status of the answer does not depend on the two integers, so none is
    ever rejected. The ramps divide by [max(softness, 1)], which is at
    least one: a softness of zero or less gives the ramp of softness 1,
    never a division by zero. *)
Theorem parameters_clamped (env : Env) (MAX_FILE_BYTES : nat) (req : Web.Request)
  (st : Web.State) (f : Web.Upload) (img : Image) (t s : Z) :
  (Web.content_length req <= Web.MAX_CONTENT_LENGTH MAX_FILE_BYTES)%nat ->
  Web.file req = Some f -> Web.filename f <> ""%string ->
  In (Web.suffix f) Web.ALLOWED_EXT -> (Web.raw_len f <= MAX_FILE_BYTES)%nat ->
  Web.opened f = Some img -> Web.decodes f = true ->
  Web.form_threshold req = Some t -> Web.form_softness req = Some s ->
  let threshold := Z.max 0 (Z.min t 255) in
  let softness := Z.max 1 (Z.min s 200) in
  ((0 <= threshold <= 255)%Z /\ (1 <= softness <= 200)%Z /\
   ((0 <= t <= 255)%Z -> threshold = t) /\ ((1 <= s <= 200)%Z -> softness = s)) /\
  (Web.form_mode req = "dark"%string ->
   fst (Web.process env MAX_FILE_BYTES req st)
   = Web.mkResponse 200
       (Web.Png (remove_dark_bg img threshold softness (Web.form_despill req))
                (Web.stem f ++ "_rmbg.png"))) /\
  (Web.form_mode req = "light"%string ->
   fst (Web.process env MAX_FILE_BYTES req st)
   = Web.mkResponse 200
       (Web.Png (remove_light_bg img threshold softness (Web.form_despill req))
                (Web.stem f ++ "_rmbg.png"))) /\
  (forall (other : Web.Request) (t1 s1 t2 s2 : Z),
     Web.status (fst (Web.process env MAX_FILE_BYTES (Web.with_params other t1 s1) st))
     = Web.status (fst (Web.process env MAX_FILE_BYTES (Web.with_params other t2 s2) st))) /\
  (forall (L : Q) (th so : Z),
     dark_ramp L th so
     = fmul (fdiv (fsub L (of_int th)) (of_int (Z.max so 1))) (literal 255) /\
     1 <= of_int (Z.max so 1) /\
     ((so <= 1)%Z ->
      dark_alpha L th so = dark_alpha L th 1 /\ light_alpha L th so = light_alpha L th 1)).
Proof.
  intros Hc Hf Hn Hs Hl Ho Hd Ht Hso. cbv zeta.
  apply String.eqb_neq in Hn. apply Nat.ltb_ge in Hc, Hl.
  assert (Es : existsb (String.eqb (Web.suffix f)) Web.ALLOWED_EXT = true).
  { apply existsb_exists. exists (Web.suffix f). split; [exact Hs | apply String.eqb_refl]. }
  split; [lia |].
  split; [| split; [| split]].
  - intros Hm. unfold Web.process, Web.clamp_threshold, Web.clamp_softness.
    rewrite Hc, Hf, Hn, Es, Ht, Hso, Hl, Ho, Hd, Hm. simpl.
    rewrite decide_True by reflexivity. reflexivity.
  - intros Hm. unfold Web.process, Web.clamp_threshold, Web.clamp_softness.
    rewrite Hc, Hf, Hn, Es, Ht, Hso, Hl, Ho, Hd, Hm. simpl.
    rewrite decide_True by reflexivity. reflexivity.
  - intros other t1 s1 t2 s2. unfold Web.process, Web.with_params. simpl.
    destruct (Web.MAX_CONTENT_LENGTH MAX_FILE_BYTES <? Web.content_length other)%nat;
      [reflexivity |].
    destruct (Web.file other) as [f0 |]; [| reflexivity].
    destruct (String.eqb (Web.filename f0) ""); [reflexivity |].
    destruct (negb _); [reflexivity |].
    destruct (MAX_FILE_BYTES <? Web.raw_len f0)%nat; [reflexivity |].
    destruct (Web.opened f0) as [img0 |]; [| reflexivity].
    destruct (String.eqb (Web.form_mode other) "dark");
      [destruct (Web.decodes f0); reflexivity |].
    destruct (String.eqb (Web.form_mode other) "light");
      [destruct (Web.decodes f0); reflexivity |].
    destruct (String.eqb (Web.form_mode other) "ai"); [| reflexivity].
    destruct (Web.remove_ai_bg _ _ _ _ _) as [[result |] ss]; reflexivity.
  - intros L th so. split; [reflexivity |]. split; [apply soft_ge_1 |].
    intros H. unfold dark_alpha, dark_ramp, light_alpha.
    rewrite !(Z.max_r so 1) by lia. split; reflexivity.
Qed.

(** A threshold of 300 and a softness of 0 on the upload "logo.png": the
    matte is the one of threshold 255 and softness 1. *)
Lemma parameters_clamped_witness :
  ((Web.content_length (Web.with_params (Web.logo_request "dark") 300 0)
    <= Web.MAX_CONTENT_LENGTH 4096)%nat /\
   In ".png"%string Web.ALLOWED_EXT /\ (1000 <= 4096)%nat) /\
  fst (Web.process one_pixel_model 4096 (Web.with_params (Web.logo_request "dark") 300 0)
                   (Web.mkState empty_store []))
  = Web.mkResponse 200 (Web.Png (remove_dark_bg two_pixels 255 1 true) "logo_rmbg.png").
Proof.
  assert (H1 : (Web.content_length (Web.with_params (Web.logo_request "dark") 300 0)
                <= Web.MAX_CONTENT_LENGTH 4096)%nat) by (vm_compute; lia).
  assert (H2 : In ".png"%string Web.ALLOWED_EXT) by (simpl; tauto).
  assert (H3 : (1000 <= 4096)%nat) by lia.
  split; [tauto |].
  destruct (parameters_clamped one_pixel_model 4096
              (Web.with_params (Web.logo_request "dark") 300 0)
              (Web.mkState empty_store [])
              (Web.mkUpload "logo.png" ".png" "logo" 1000 (Some two_pixels) true)
              two_pixels 300 0 H1 eq_refl ltac:(discriminate) H2 H3 eq_refl eq_refl
              eq_refl eq_refl) as (_ & D & _).
  exact (D eq_refl).
Defined.

(** C8, as the specification states it, fails for the desktop entry
    point: handed the mode "sepia", the worker runs the AI routine on
    the file and saves its result. *)
Lemma desktop_unknown_mode_runs_ai :
  Desktop.worker_file one_pixel_model "sepia" 35 25 true None true
                      (Desktop.mkEntry false (Some two_pixels) true true)
  = (Desktop.Saved (mkImage "RGBA" 2 1 [grey 128; grey 128]), [Desktop.CallAi]).
Proof. vm_compute. reflexivity. Qed.

(** C8, amended. On the web entry point a request whose mode is none of
    "dark", "light", "ai" runs no helper and loads no model (the state is
    left as it was) and never gets a picture: it is answered 400, 413,
    415 or 500. The answer is 400 invalid mode when the request passes
    the checks that come first and its threshold and softness are
    integers; it is 500 exactly when the upload is named and of an
    allowed format but threshold or softness is not an integer, since
    [int(...)] raises before the mode is looked at. The desktop worker
    has no check of the mode: every mode other than "dark" and "light"
    is run as AI segmentation. *)
Theorem invalid_mode (env : Env) (MAX_FILE_BYTES : nat) (req : Web.Request)
  (st : Web.State) :
  Web.form_mode req <> "dark"%string ->
  Web.form_mode req <> "light"%string ->
  Web.form_mode req <> "ai"%string ->
  let resp := fst (Web.process env MAX_FILE_BYTES req st) in
  snd (Web.process env MAX_FILE_BYTES req st) = st /\
  In (Web.status resp) [400; 413; 415; 500]%nat /\
  (forall out name, Web.body resp <> Web.Png out name) /\
  (forall f img t s,
     (Web.content_length req <= Web.MAX_CONTENT_LENGTH MAX_FILE_BYTES)%nat ->
     Web.file req = Some f -> Web.filename f <> ""%string ->
     In (Web.suffix f) Web.ALLOWED_EXT ->
     Web.form_threshold req = Some t -> Web.form_softness req = Some s ->
     (Web.raw_len f <= MAX_FILE_BYTES)%nat -> Web.opened f = Some img ->
     resp = Web.mkResponse 400 Web.InvalidMode) /\
  (Web.status resp = 500%nat <->
   (Web.content_length req <= Web.MAX_CONTENT_LENGTH MAX_FILE_BYTES)%nat /\
   exists f,
     Web.file req = Some f /\ Web.filename f <> ""%string /\
     In (Web.suffix f) Web.ALLOWED_EXT /\
     (Web.form_threshold req = None \/ Web.form_softness req = None)) /\
  (forall threshold softness despill session alpha fp img,
     Desktop.out_exists fp = false -> Desktop.opened fp = Some img ->
     Desktop.saves fp = true ->
     Desktop.worker_file env (Web.form_mode req) threshold softness despill session alpha fp
     = match Desktop.remove_ai_bg env img session alpha 240 10 10 with
       | None => (Desktop.Failed, [Desktop.CallAi])
       | Some result =>
           (Desktop.Saved (if decide (size result = size img) then result
                           else resize env result (size img)), [Desktop.CallAi])
       end).
Proof.
  intros Hd Hl Ha. cbv zeta.
  apply String.eqb_neq in Hd, Hl, Ha.
  assert (Allowed : forall f, existsb (String.eqb (Web.suffix f)) Web.ALLOWED_EXT = true <->
                              In (Web.suffix f) Web.ALLOWED_EXT).
  { intros f. rewrite existsb_exists. split.
    - intros (x & Hx & E). apply String.eqb_eq in E. subst x. exact Hx.
    - intros H. exists (Web.suffix f). split; [exact H | apply String.eqb_refl]. }
  split; [| split; [| split; [| split; [| split]]]].
  - unfold Web.process. rewrite Hd, Hl, Ha.
    destruct (Web.MAX_CONTENT_LENGTH MAX_FILE_BYTES <? Web.content_length req)%nat;
      [reflexivity |].
    destruct (Web.file req) as [f |]; [| reflexivity].
    destruct (String.eqb (Web.filename f) ""); [reflexivity |].
    destruct (negb _); [reflexivity |].
    destruct (Web.form_threshold req); [| reflexivity].
    destruct (Web.form_softness req); [| reflexivity].
    destruct (MAX_FILE_BYTES <? Web.raw_len f)%nat; [reflexivity |].
    destruct (Web.opened f); reflexivity.
  - unfold Web.process. rewrite Hd, Hl, Ha.
    destruct (Web.MAX_CONTENT_LENGTH MAX_FILE_BYTES <? Web.content_length req)%nat;
      [simpl; tauto |].
    destruct (Web.file req) as [f |]; [| simpl; tauto].
    destruct (String.eqb (Web.filename f) ""); [simpl; tauto |].
    destruct (negb _); [simpl; tauto |].
    destruct (Web.form_threshold req); [| simpl; tauto].
    destruct (Web.form_softness req); [| simpl; tauto].
    destruct (MAX_FILE_BYTES <? Web.raw_len f)%nat; [simpl; tauto |].
    destruct (Web.opened f); simpl; tauto.
  - intros out name. unfold Web.process. rewrite Hd, Hl, Ha.
    destruct (Web.MAX_CONTENT_LENGTH MAX_FILE_BYTES <? Web.content_length req)%nat;
      [discriminate |].
    destruct (Web.file req) as [f |]; [| discriminate].
    destruct (String.eqb (Web.filename f) ""); [discriminate |].
    destruct (negb _); [discriminate |].
    destruct (Web.form_threshold req); [| discriminate].
    destruct (Web.form_softness req); [| discriminate].
    destruct (MAX_FILE_BYTES <? Web.raw_len f)%nat; [discriminate |].
    destruct (Web.opened f); discriminate.
  - intros f img t s Hc Hf Hn Hs Ht Hso Hlen Ho.
    apply String.eqb_neq in Hn. apply Allowed in Hs. apply Nat.ltb_ge in Hc, Hlen.
    unfold Web.process. rewrite Hc, Hf, Hn, Hs, Ht, Hso, Hlen, Ho, Hd, Hl, Ha. reflexivity.
  - unfold Web.process. rewrite Hd, Hl, Ha.
    destruct (Web.MAX_CONTENT_LENGTH MAX_FILE_BYTES <? Web.content_length req)%nat eqn:Ec.
    { apply Nat.ltb_lt in Ec. simpl. split; [discriminate | intros [H _]; lia]. }
    apply Nat.ltb_ge in Ec.
    destruct (Web.file req) as [f |] eqn:Ef.
    2: { simpl. split; [discriminate | intros (_ & f & H & _); discriminate H]. }
    destruct (String.eqb (Web.filename f) "") eqn:En.
    { apply String.eqb_eq in En. simpl. split; [discriminate |].
      intros (_ & f0 & [= <-] & H & _). contradiction. }
    apply String.eqb_neq in En.
    destruct (existsb (String.eqb (Web.suffix f)) Web.ALLOWED_EXT) eqn:Es; simpl negb.
    2: { simpl. split; [discriminate |].
         intros (_ & f0 & [= <-] & _ & H & _). apply Allowed in H. congruence. }
    apply Allowed in Es.
    destruct (Web.form_threshold req) as [t |] eqn:Et.
    2: { simpl. split; [| reflexivity]. intros _. split; [exact Ec |].
         exists f. repeat split; try assumption. left. reflexivity. }
    destruct (Web.form_softness req) as [s |] eqn:Eso.
    2: { simpl. split; [| reflexivity]. intros _. split; [exact Ec |].
         exists f. repeat split; try assumption. right. reflexivity. }
    assert (No : ~ (Some t = None \/ Some s = None)) by (intros [H | H]; discriminate H).
    destruct (MAX_FILE_BYTES <? Web.raw_len f)%nat;
      [simpl; split; [discriminate | intros (_ & f0 & _ & _ & _ & H); tauto] |].
    destruct (Web.opened f);
      simpl; (split; [discriminate | intros (_ & f0 & _ & _ & _ & H); tauto]).
  - intros threshold softness despill session alpha fp img He Ho Hsav.
    unfold Desktop.worker_file. rewrite He, Ho, Hd, Hl, Hsav.
    destruct (Desktop.remove_ai_bg _ _ _ _ _ _ _); reflexivity.
Qed.

(** The upload "logo.png" with mode "sepia". *)
Lemma invalid_mode_witness :
  ("sepia" <> "dark" /\ "sepia" <> "light" /\ "sepia" <> "ai")%string /\
  Web.process one_pixel_model 4096 (Web.logo_request "sepia") (Web.mkState empty_store [])
  = (Web.mkResponse 400 Web.InvalidMode, Web.mkState empty_store []).
Proof.
  assert (H1 : ("sepia" <> "dark")%string) by discriminate.
  assert (H2 : ("sepia" <> "light")%string) by discriminate.
  assert (H3 : ("sepia" <> "ai")%string) by discriminate.
  split; [tauto |].
  destruct (invalid_mode one_pixel_model 4096 (Web.logo_request "sepia")
                         (Web.mkState empty_store []) H1 H2 H3) as (S & _ & _ & R & _).
  specialize (R (Web.mkUpload "logo.png" ".png" "logo" 1000 (Some two_pixels) true)
                two_pixels 35%Z 25%Z).
  rewrite (surjective_pairing (Web.process _ _ _ _)), S, R; [reflexivity | | | | | | | |].
  - vm_compute. lia.
  - reflexivity.
  - discriminate.
  - simpl. tauto.
  - reflexivity.
  - reflexivity.
  - simpl. lia.
  - reflexivity.
Defined.

(** ** Further properties of the luminance matte *)

Lemma fmul_mono_r c x y : 0 <= c -> x <= y -> fmul c x <= fmul c y.
Proof. intros Hc H. rewrite !fmul_eq. apply rnd32_mono. nra. Qed.

Lemma fadd_mono x y x' y' : x <= x' -> y <= y' -> fadd x y <= fadd x' y'.
Proof. intros Hx Hy. rewrite !fadd_eq. apply rnd32_mono. lra. Qed.

Lemma luminance_mono r g b r' g' b' :
  r <= r' -> g <= g' -> b <= b' -> luminance r g b <= luminance r' g' b'.
Proof.
  intros Hr Hg Hb. unfold luminance.
  assert (W1 : 0 <= literal (2126 # 10000)) by (vm_compute; discriminate).
  assert (W2 : 0 <= literal (7152 # 10000)) by (vm_compute; discriminate).
  assert (W3 : 0 <= literal (722 # 10000)) by (vm_compute; discriminate).
  apply fadd_mono; [apply fadd_mono |]; apply fmul_mono_r; assumption.
Qed.

(** X1. The luminance of a pixel with 8-bit channels, as float32 computes
    it, lies in [0, 255] (white gives exactly 255, black exactly 0), and
    it does not decrease when a channel grows. *)
Theorem luminance_range (p q : Pixel) :
  valid_pixel p -> valid_pixel q ->
  (0 <= pixel_lum p /\ pixel_lum p <= 255) /\
  ((chR p <= chR q)%Z -> (chG p <= chG q)%Z -> (chB p <= chB q)%Z ->
   pixel_lum p <= pixel_lum q).
Proof.
  intros (HR & HG & HB & _) (HR' & HG' & HB' & _). unfold pixel_lum.
  rewrite !(of_int_byte _ HR), !(of_int_byte _ HG), !(of_int_byte _ HB).
  rewrite !(of_int_byte _ HR'), !(of_int_byte _ HG'), !(of_int_byte _ HB').
  unfold byte in *.
  assert (L0 : luminance (inject_Z 0) (inject_Z 0) (inject_Z 0) == 0)
    by (vm_compute; reflexivity).
  assert (L1 : luminance (inject_Z 255) (inject_Z 255) (inject_Z 255) == 255)
    by (vm_compute; reflexivity).
  split; [split |].
  - apply Qle_trans with (luminance (inject_Z 0) (inject_Z 0) (inject_Z 0)).
    + rewrite L0. apply Qle_refl.
    + apply luminance_mono; rewrite <- Zle_Qle; lia.
  - apply Qle_trans with (luminance (inject_Z 255) (inject_Z 255) (inject_Z 255)).
    + apply luminance_mono; rewrite <- Zle_Qle; lia.
    + rewrite L1. apply Qle_refl.
  - intros H1 H2 H3. apply luminance_mono; rewrite <- Zle_Qle; assumption.
Qed.

Lemma luminance_range_witness :
  (valid_pixel (mkPixel 29 40 4 255) /\ valid_pixel (mkPixel 30 40 4 0)) /\
  pixel_lum (mkPixel 29 40 4 255) <= pixel_lum (mkPixel 30 40 4 0).
Proof.
  assert (V1 : valid_pixel (mkPixel 29 40 4 255)) by (unfold valid_pixel, byte; simpl; lia).
  assert (V2 : valid_pixel (mkPixel 30 40 4 0)) by (unfold valid_pixel, byte; simpl; lia).
  split; [split; assumption |].
  destruct (luminance_range _ _ V1 V2) as [_ M]. apply M; simpl; lia.
Defined.


Lemma rnd32_half z : (Z.abs z < 2 ^ 24)%Z -> rnd32 (inject_Z z / 2) == inject_Z z / 2.
Proof.
  intros H.
  assert (E : inject_Z z / 2 == inject_Z z * pow2 (-1)) by (vm_compute pow2; field).
  rewrite E. apply rnd32_dyadic; [exact H | lia].
Qed.

(** X2. Half way up the ramp, at luminance threshold + softness/2, the alpha
    written is 127 in dark and in light mode: the three float32 steps
    are exact there and the ramp value is 127.5. *)
Theorem ramp_midpoint (threshold softness : Z) (L : Q) :
  (0 <= threshold <= 255)%Z -> (1 <= softness <= 200)%Z ->
  L == inject_Z threshold + inject_Z softness / 2 ->
  astype_uint8 (dark_alpha L threshold softness) = 127%Z /\
  astype_uint8 (light_alpha L threshold softness) = 127%Z.
Proof.
  intros Ht Hs HL.
  assert (S0 : 1 <= inject_Z softness) by (change 1 with (inject_Z 1); rewrite <- Zle_Qle; lia).
  assert (H2 : rnd32 (255 # 2) == 255 # 2).
  { rewrite (rnd32_comp (255 # 2) (inject_Z 255 / 2)) by reflexivity.
    rewrite (rnd32_half 255) by reflexivity. reflexivity. }
  assert (H1 : rnd32 (1 # 2) == 1 # 2).
  { rewrite (rnd32_comp (1 # 2) (inject_Z 1 / 2)) by reflexivity.
    rewrite (rnd32_half 1) by reflexivity. reflexivity. }
  assert (Hh : rnd32 (inject_Z softness / 2) == inject_Z softness / 2)
    by (apply rnd32_half; lia).
  assert (D : dark_ramp L threshold softness == 255 # 2).
  { unfold dark_ramp. rewrite Z.max_l by lia. rewrite !of_int_exact by lia. rewrite lit255.
    assert (A : fsub L (inject_Z threshold) == inject_Z softness / 2).
    { rewrite fsub_eq.
      rewrite (rnd32_comp (L - inject_Z threshold) (inject_Z softness / 2));
        [exact Hh | rewrite HL; field]. }
    assert (B : fdiv (fsub L (inject_Z threshold)) (inject_Z softness) == 1 # 2).
    { rewrite A, fdiv_eq.
      rewrite (rnd32_comp (inject_Z softness / 2 / inject_Z softness) (1 # 2));
        [exact H1 | field; lra]. }
    rewrite B, fmul_eq.
    rewrite (rnd32_comp ((1 # 2) * 255) (255 # 2)); [exact H2 | reflexivity]. }
  split.
  - unfold dark_alpha. rewrite lit0, lit255.
    assert (E : clip (dark_ramp L threshold softness) 0 255 == 255 # 2)
      by (rewrite D; apply clip_id; lra).
    rewrite (astype_uint8_comp _ _ E). reflexivity.
  - assert (E : light_alpha L threshold softness == 255 # 2).
    { rewrite light_alpha_complement, D.
      assert (F : fsub 255 (255 # 2) == 255 # 2).
      { rewrite fsub_eq.
        rewrite (rnd32_comp (255 - (255 # 2)) (255 # 2)); [exact H2 | reflexivity]. }
      rewrite F. apply clip_id; lra. }
    rewrite (astype_uint8_comp _ _ E). reflexivity.
Qed.

Lemma ramp_midpoint_witness :
  ((0 <= 35 <= 255)%Z /\ (1 <= 25 <= 200)%Z /\ (95 # 2) == inject_Z 35 + inject_Z 25 / 2) /\
  astype_uint8 (dark_alpha (95 # 2) 35 25) = 127%Z /\
  astype_uint8 (light_alpha (95 # 2) 35 25) = 127%Z.
Proof.
  assert (H1 : (0 <= 35 <= 255)%Z) by lia.
  assert (H2 : (1 <= 25 <= 200)%Z) by lia.
  assert (H3 : (95 # 2) == inject_Z 35 + inject_Z 25 / 2) by reflexivity.
  split; [tauto |]. exact (ramp_midpoint 35 25 (95 # 2) H1 H2 H3).
Defined.

Lemma alpha_is_byte a : 0 <= a -> a <= 255 -> byte (astype_uint8 a).
Proof.
  intros H0 H1. rewrite astype_uint8_floor by exact H0. unfold byte. split.
  - rewrite <- (Qfloor_Z 0). apply Qfloor_resp_le. exact H0.
  - rewrite <- (Qfloor_Z 255). apply Qfloor_resp_le. exact H1.
Qed.

Lemma despilled_is_byte (c : bool) m ch :
  byte m -> byte ch ->
  byte (astype_uint8 (np_where c (despill_channel (inject_Z m) (inject_Z ch)) (inject_Z ch))).
Proof.
  intros Hm Hc. destruct c; simpl np_where.
  - destruct (Z_le_gt_dec ch m) as [G | G].
    + pose proof (despill_below m ch Hm Hc G) as [_ B]. cbv zeta in B.
      unfold byte in *. lia.
    + pose proof (despill_above m ch Hm Hc ltac:(lia)) as [A _]. cbv zeta in A.
      unfold byte in *. lia.
  - rewrite astype_uint8_Z. exact Hc.
Qed.

Lemma dark_pixel_valid threshold softness despill p :
  valid_pixel p -> valid_pixel (dark_pixel threshold softness despill p).
Proof.
  intros Hp. destruct (mx_of_spec p Hp) as [Hm _].
  set (out := dark_pixel threshold softness despill p).
  change (byte (channel 0 out) /\ byte (channel 1 out) /\ byte (channel 2 out)
          /\ byte (chA out)).
  unfold out.
  rewrite !(dark_pixel_channel _ _ _ _ _ Hp) by (simpl; tauto).
  rewrite dark_pixel_alpha.
  split; [apply despilled_is_byte; [exact Hm | apply channel_byte, Hp] |].
  split; [apply despilled_is_byte; [exact Hm | apply channel_byte, Hp] |].
  split; [apply despilled_is_byte; [exact Hm | apply channel_byte, Hp] |].
  apply alpha_is_byte;
    [exact (proj1 (dark_alpha_range _ _ _)) | exact (proj2 (dark_alpha_range _ _ _))].
Qed.

Lemma light_pixel_valid threshold softness despill p :
  valid_pixel p -> valid_pixel (light_pixel threshold softness despill p).
Proof.
  intros Hp. destruct (mn_of_spec p Hp) as [Hm _].
  set (out := light_pixel threshold softness despill p).
  change (byte (channel 0 out) /\ byte (channel 1 out) /\ byte (channel 2 out)
          /\ byte (chA out)).
  unfold out.
  rewrite !(light_pixel_channel _ _ _ _ _ Hp) by (simpl; tauto).
  rewrite light_pixel_alpha.
  split; [apply despilled_is_byte; [exact Hm | apply channel_byte, Hp] |].
  split; [apply despilled_is_byte; [exact Hm | apply channel_byte, Hp] |].
  split; [apply despilled_is_byte; [exact Hm | apply channel_byte, Hp] |].
  apply alpha_is_byte;
    [exact (proj1 (light_alpha_range _ _ _)) | exact (proj2 (light_alpha_range _ _ _))].
Qed.

(** X3. Both luminance routines hand back an RGBA picture with as many
    pixels as the input, and every channel of every pixel is again a
    byte: the clips keep the despilled colours and the alpha inside
    [0, 255], so that [astype(np.uint8)] never wraps. This holds for
    every threshold and softness, clamped or not. *)
Theorem matte_keeps_bytes (img : Image) (threshold softness : Z) (despill : bool) :
  Forall valid_pixel (pixels img) ->
  let dark := remove_dark_bg img threshold softness despill in
  let light := remove_light_bg img threshold softness despill in
  (mode dark = "RGBA"%string /\ length (pixels dark) = length (pixels img) /\
   Forall valid_pixel (pixels dark)) /\
  (mode light = "RGBA"%string /\ length (pixels light) = length (pixels img) /\
   Forall valid_pixel (pixels light)).
Proof.
  intros H. cbv zeta. unfold remove_dark_bg, remove_light_bg. simpl.
  rewrite !length_map. repeat split.
  - apply Forall_map. eapply Forall_impl; [| exact H].
    intros p Hp. apply dark_pixel_valid, Hp.
  - apply Forall_map. eapply Forall_impl; [| exact H].
    intros p Hp. apply light_pixel_valid, Hp.
Qed.

Lemma matte_keeps_bytes_witness :
  Forall valid_pixel (pixels two_pixels) /\
  Forall valid_pixel (pixels (remove_dark_bg two_pixels 300 (-5) true)).
Proof.
  assert (V : Forall valid_pixel (pixels two_pixels)).
  { repeat constructor; unfold byte; simpl; lia. }
  split; [exact V |].
  destruct (matte_keeps_bytes two_pixels 300 (-5) true V) as [(_ & _ & D) _]. exact D.
Defined.

(** X4. The tail of [remove_ai_bg]: whatever the model answers comes out in
    mode RGBA with the size of the input; an answer that has that size
    already is not resampled (what comes out does not depend on the
    resampling filter), and one that is RGBA of that size is handed on
    untouched. *)
Theorem normalise_contract (env : Env) (img result : Image) :
  mode (normalise env img result) = "RGBA"%string /\
  size (normalise env img result) = size img /\
  (size result = size img ->
   forall env', normalise env' img result = normalise env img result) /\
  (mode result = "RGBA"%string -> size result = size img ->
   normalise env img result = result).
Proof.
  assert (M : forall r sz, mode (if decide (size r = sz) then r else resize env r sz) = mode r).
  { intros r sz. destruct (decide _); reflexivity. }
  unfold normalise. split; [| split; [apply size_fit | split]].
  - rewrite M. destruct (String.eqb (mode result) "RGBA") eqn:E; [| reflexivity].
    apply String.eqb_eq, E.
  - intros Hs env'. destruct (String.eqb (mode result) "RGBA").
    + rewrite !decide_True by exact Hs. reflexivity.
    + rewrite !decide_True by exact Hs. reflexivity.
  - intros Hm Hs. apply String.eqb_eq in Hm. rewrite Hm.
    rewrite decide_True by exact Hs. reflexivity.
Qed.

Lemma normalise_contract_witness :
  (mode (mkImage "RGBA" 2 1 [grey 7; grey 9]) = "RGBA"%string /\
   size (mkImage "RGBA" 2 1 [grey 7; grey 9]) = size two_pixels) /\
  normalise one_pixel_model two_pixels (mkImage "RGBA" 2 1 [grey 7; grey 9])
  = mkImage "RGBA" 2 1 [grey 7; grey 9].
Proof.
  assert (H1 : mode (mkImage "RGBA" 2 1 [grey 7; grey 9]) = "RGBA"%string) by reflexivity.
  assert (H2 : size (mkImage "RGBA" 2 1 [grey 7; grey 9]) = size two_pixels) by reflexivity.
  split; [split; assumption |].
  destruct (normalise_contract one_pixel_model two_pixels (mkImage "RGBA" 2 1 [grey 7; grey 9]))
    as (_ & _ & _ & N).
  exact (N H1 H2).
Defined.

(** ** Further properties of the session cache *)




Lemma requests_budget name names :
  budget name (requests names) = length (List.filter (fun n => String.eqb n name) names).
Proof.
  unfold budget, requests, constructions. simpl.
  induction names as [| n names IH]; [reflexivity |].
  simpl. unfold pending at 1. simpl. destruct (String.eqb n name); simpl; lia.
Qed.

(** X6. However the statements of the requests interleave, a model is
    built at most once per request that asks for it: two sessions are
    the worst case for two concurrent first requests, and a model nobody
    asks for is never built. *)
Theorem constructions_bounded (loadable : string -> bool) (names : list string)
  (schedule : list nat) (sys' : System) (name : string) :
  run loadable schedule (requests names) = Some sys' ->
  (constructions name (shared sys')
   <= length (List.filter (fun n => String.eqb n name) names))%nat.
Proof.
  intros H. pose proof (run_budget loadable name _ _ _ H) as B.
  rewrite requests_budget in B. unfold budget in B. lia.
Qed.

(** Two requests for different models, their statements alternating. *)
Lemma constructions_bounded_witness :
  exists sys',
    run (fun _ => true) [0; 1; 0; 1; 0; 1; 0; 1]%nat (requests ["silueta"; "u2net"]%string)
    = Some sys' /\
    forallb finished (threads sys') = true /\
    (constructions "silueta" (shared sys') <= 1)%nat.
Proof.
  destruct (run (fun _ => true) [0; 1; 0; 1; 0; 1; 0; 1]%nat
              (requests ["silueta"; "u2net"]%string)) as [sys' |] eqn:H;
    [| vm_compute in H; discriminate H].
  exists sys'. split; [reflexivity |]. split.
  - vm_compute in H. injection H as <-. reflexivity.
  - exact (constructions_bounded (fun _ => true) ["silueta"; "u2net"]%string _ sys' "silueta" H).
Defined.

(** ** Further properties of the [/process] route *)

Lemma allowed_suffix f :
  existsb (String.eqb (Web.suffix f)) Web.ALLOWED_EXT = true <->
  In (Web.suffix f) Web.ALLOWED_EXT.
Proof.
  rewrite existsb_exists. split.
  - intros (x & Hx & E). apply String.eqb_eq in E. subst x. exact Hx.
  - intros H. exists (Web.suffix f). split; [exact H | apply String.eqb_refl].
Qed.

(** X7. [process] answers 200, 400, 413, 415 or 500; it answers 200 exactly
    when it sends a PNG, and then the upload was present, named, of an
    allowed format, within the size limit, readable, the mode was one of
    the three, and the file sent is called <stem>_rmbg.png. *)
Theorem process_answers (env : Env) (MAX_FILE_BYTES : nat) (req : Web.Request)
  (st : Web.State) :
  let resp := fst (Web.process env MAX_FILE_BYTES req st) in
  In (Web.status resp) [200; 400; 413; 415; 500]%nat /\
  (Web.status resp = 200%nat <-> exists out name, Web.body resp = Web.Png out name) /\
  (Web.status resp = 200%nat ->
   exists f img out,
     Web.file req = Some f /\ Web.filename f <> ""%string /\
     In (Web.suffix f) Web.ALLOWED_EXT /\ (Web.raw_len f <= MAX_FILE_BYTES)%nat /\
     Web.opened f = Some img /\
     In (Web.form_mode req) ["dark"; "light"; "ai"]%string /\
     Web.body resp = Web.Png out (Web.stem f ++ "_rmbg.png")).
Proof.
  cbv zeta. unfold Web.process.
  assert (Fail : forall (code : nat) (b : Web.Body) (P : Prop),
            In code [400; 413; 415; 500]%nat ->
            (forall out name, b <> Web.Png out name) ->
            In code [200; 400; 413; 415; 500]%nat /\
            (code = 200%nat <-> exists out name, b = Web.Png out name) /\
            (code = 200%nat -> P)).
  { intros code b P Hc Hb. split; [right; exact Hc |].
    assert (N : code <> 200%nat) by (simpl in Hc; lia).
    split; [split |]; [tauto | intros (o & n & E); exfalso; exact (Hb o n E) | tauto]. }
  destruct (Web.MAX_CONTENT_LENGTH MAX_FILE_BYTES <? Web.content_length req)%nat;
    [apply Fail; [simpl; tauto | discriminate] |].
  destruct (Web.file req) as [f |] eqn:Hf;
    [| apply Fail; [simpl; tauto | discriminate]].
  destruct (String.eqb (Web.filename f) "") eqn:En;
    [apply Fail; [simpl; tauto | discriminate] |].
  destruct (existsb (String.eqb (Web.suffix f)) Web.ALLOWED_EXT) eqn:Es; simpl negb;
    [| apply Fail; [simpl; tauto | discriminate]].
  destruct (Web.form_threshold req) as [t |];
    [| apply Fail; [simpl; tauto | discriminate]].
  destruct (Web.form_softness req) as [s |];
    [| apply Fail; [simpl; tauto | discriminate]].
  destruct (MAX_FILE_BYTES <? Web.raw_len f)%nat eqn:El;
    [apply Fail; [simpl; tauto | discriminate] |].
  destruct (Web.opened f) as [img |] eqn:Ho;
    [| apply Fail; [simpl; tauto | discriminate]].
  apply String.eqb_neq in En. apply allowed_suffix in Es. apply Nat.ltb_ge in El.
  assert (Ok : forall (out : Image) (st' : Web.State),
            In (Web.form_mode req) ["dark"; "light"; "ai"]%string ->
            let resp := Web.mkResponse 200 (Web.Png out (Web.stem f ++ "_rmbg.png")) in
            In (Web.status (fst (resp, st'))) [200; 400; 413; 415; 500]%nat /\
            (Web.status (fst (resp, st')) = 200%nat <->
             exists o name, Web.body (fst (resp, st')) = Web.Png o name) /\
            (Web.status (fst (resp, st')) = 200%nat ->
             exists f0 img0 o,
               Some f = Some f0 /\ Web.filename f0 <> ""%string /\
               In (Web.suffix f0) Web.ALLOWED_EXT /\
               (Web.raw_len f0 <= MAX_FILE_BYTES)%nat /\
               Web.opened f0 = Some img0 /\
               In (Web.form_mode req) ["dark"; "light"; "ai"]%string /\
               Web.body (fst (resp, st')) = Web.Png o (Web.stem f0 ++ "_rmbg.png"))).
  { intros out st' Hm. simpl. split; [tauto |]. split.
    - split; [intros _; eauto | reflexivity].
    - intros _. exists f, img, out. repeat split; assumption. }
  destruct (String.eqb (Web.form_mode req) "dark") eqn:Ed.
  { destruct (Web.decodes f); [| apply Fail; [simpl; tauto | discriminate]].
    apply String.eqb_eq in Ed. apply Ok. rewrite Ed. simpl. tauto. }
  destruct (String.eqb (Web.form_mode req) "light") eqn:Elg.
  { destruct (Web.decodes f); [| apply Fail; [simpl; tauto | discriminate]].
    apply String.eqb_eq in Elg. apply Ok. rewrite Elg. simpl. tauto. }
  destruct (String.eqb (Web.form_mode req) "ai") eqn:Ea;
    [| apply Fail; [simpl; tauto | discriminate]].
  apply String.eqb_eq in Ea.
  destruct (Web.remove_ai_bg _ _ _ _ _) as [[result |] ss];
    [| apply Fail; [simpl; tauto | discriminate]].
  apply Ok. rewrite Ea. simpl. tauto.
Qed.

Lemma process_answers_witness :
  Web.status (fst (Web.process one_pixel_model 4096 (Web.logo_request "dark")
                               (Web.mkState empty_store []))) = 200%nat /\
  exists f img out,
    Web.file (Web.logo_request "dark") = Some f /\ Web.opened f = Some img /\
    Web.body (fst (Web.process one_pixel_model 4096 (Web.logo_request "dark")
                               (Web.mkState empty_store [])))
    = Web.Png out "logo_rmbg.png".
Proof.
  assert (H : Web.status (fst (Web.process one_pixel_model 4096 (Web.logo_request "dark")
                                 (Web.mkState empty_store []))) = 200%nat) by reflexivity.
  split; [exact H |].
  destruct (process_answers one_pixel_model 4096 (Web.logo_request "dark")
              (Web.mkState empty_store [])) as (_ & _ & P).
  destruct (P H) as (f & img & out & Hf & _ & _ & _ & Ho & _ & Hb).
  exists f, img, out. split; [exact Hf |]. split; [exact Ho |].
  rewrite Hb. simpl in Hf. injection Hf as <-. reflexivity.
Defined.

(** X8. In a luminance mode a request that passes the checks, whose
    threshold and softness are integers and whose picture can be
    decoded, is answered with exactly the matte of the opened picture at
    the clamped threshold and softness, never resampled, under the name
    <stem>_rmbg.png: an RGBA picture of the size of the upload, with as
    many pixels. A picture that cannot be decoded is answered 500. In
    both cases the session cache is not touched, and the answer depends
    neither on rembg and the resampling filter nor on what the cache
    holds. *)
Theorem luminance_response (env : Env) (MAX_FILE_BYTES : nat) (req : Web.Request)
  (st : Web.State) (f : Web.Upload) (img : Image) (t s : Z) :
  (Web.content_length req <= Web.MAX_CONTENT_LENGTH MAX_FILE_BYTES)%nat ->
  Web.file req = Some f -> Web.filename f <> ""%string ->
  In (Web.suffix f) Web.ALLOWED_EXT ->
  Web.form_threshold req = Some t -> Web.form_softness req = Some s ->
  (Web.raw_len f <= MAX_FILE_BYTES)%nat ->
  Web.opened f = Some img ->
  let threshold := Web.clamp_threshold t in
  let softness := Web.clamp_softness s in
  (Web.form_mode req = "dark"%string ->
   Web.process env MAX_FILE_BYTES req st
   = (if Web.decodes f
      then Web.mkResponse 200
             (Web.Png (remove_dark_bg img threshold softness (Web.form_despill req))
                      (Web.stem f ++ "_rmbg.png"))
      else Web.mkResponse 500 Web.ProcessingFailed,
      Web.mkState (Web.sessions st) (Web.calls st ++ [Web.CallDark]))) /\
  (Web.form_mode req = "light"%string ->
   Web.process env MAX_FILE_BYTES req st
   = (if Web.decodes f
      then Web.mkResponse 200
             (Web.Png (remove_light_bg img threshold softness (Web.form_despill req))
                      (Web.stem f ++ "_rmbg.png"))
      else Web.mkResponse 500 Web.ProcessingFailed,
      Web.mkState (Web.sessions st) (Web.calls st ++ [Web.CallLight]))) /\
  (Web.form_mode req = "dark"%string \/ Web.form_mode req = "light"%string ->
   (forall env' st',
      fst (Web.process env' MAX_FILE_BYTES req st')
      = fst (Web.process env MAX_FILE_BYTES req st)) /\
   (Web.decodes f = true ->
    exists out,
      fst (Web.process env MAX_FILE_BYTES req st)
      = Web.mkResponse 200 (Web.Png out (Web.stem f ++ "_rmbg.png")) /\
      mode out = "RGBA"%string /\ size out = size img /\
      length (pixels out) = length (pixels img))).
Proof.
  intros Hc Hf Hn Hs Ht Hso Hl Ho. cbv zeta.
  apply String.eqb_neq in Hn. apply allowed_suffix in Hs. apply Nat.ltb_ge in Hc, Hl.
  assert (D : forall env0 st0, Web.form_mode req = "dark"%string ->
              Web.process env0 MAX_FILE_BYTES req st0
              = (if Web.decodes f
                 then Web.mkResponse 200
                        (Web.Png (remove_dark_bg img (Web.clamp_threshold t)
                                    (Web.clamp_softness s) (Web.form_despill req))
                                 (Web.stem f ++ "_rmbg.png"))
                 else Web.mkResponse 500 Web.ProcessingFailed,
                 Web.mkState (Web.sessions st0) (Web.calls st0 ++ [Web.CallDark]))).
  { intros env0 st0 Hm. unfold Web.process.
    rewrite Hc, Hf, Hn, Hs, Ht, Hso, Hl, Ho, Hm. simpl.
    destruct (Web.decodes f); [| reflexivity].
    rewrite decide_True by reflexivity. reflexivity. }
  assert (L : forall env0 st0, Web.form_mode req = "light"%string ->
              Web.process env0 MAX_FILE_BYTES req st0
              = (if Web.decodes f
                 then Web.mkResponse 200
                        (Web.Png (remove_light_bg img (Web.clamp_threshold t)
                                    (Web.clamp_softness s) (Web.form_despill req))
                                 (Web.stem f ++ "_rmbg.png"))
                 else Web.mkResponse 500 Web.ProcessingFailed,
                 Web.mkState (Web.sessions st0) (Web.calls st0 ++ [Web.CallLight]))).
  { intros env0 st0 Hm. unfold Web.process.
    rewrite Hc, Hf, Hn, Hs, Ht, Hso, Hl, Ho, Hm. simpl.
    destruct (Web.decodes f); [| reflexivity].
    rewrite decide_True by reflexivity. reflexivity. }
  split; [apply D |]. split; [apply L |].
  intros [Hm | Hm].
  - split.
    + intros env' st'. rewrite (D env' st' Hm), (D env st Hm). reflexivity.
    + intros Hd. rewrite (D env st Hm), Hd. eexists. split; [reflexivity |].
      split; [reflexivity |]. split; [reflexivity |]. simpl. apply length_map.
  - split.
    + intros env' st'. rewrite (L env' st' Hm), (L env st Hm). reflexivity.
    + intros Hd. rewrite (L env st Hm), Hd. eexists. split; [reflexivity |].
      split; [reflexivity |]. split; [reflexivity |]. simpl. apply length_map.
Qed.

Lemma luminance_response_witness :
  ((Web.content_length (Web.logo_request "light") <= Web.MAX_CONTENT_LENGTH 4096)%nat /\
   Web.file (Web.logo_request "light")
   = Some (Web.mkUpload "logo.png" ".png" "logo" 1000 (Some two_pixels) true) /\
   In ".png"%string Web.ALLOWED_EXT /\ (1000 <= 4096)%nat) /\
  Web.process one_pixel_model 4096 (Web.logo_request "light") (Web.mkState empty_store [])
  = (Web.mkResponse 200 (Web.Png (remove_light_bg two_pixels 35 25 true) "logo_rmbg.png"),
     Web.mkState empty_store [Web.CallLight]).
Proof.
  assert (H0 : (Web.content_length (Web.logo_request "light")
                <= Web.MAX_CONTENT_LENGTH 4096)%nat) by (vm_compute; lia).
  assert (H1 : Web.file (Web.logo_request "light")
               = Some (Web.mkUpload "logo.png" ".png" "logo" 1000 (Some two_pixels) true))
    by reflexivity.
  assert (H2 : In ".png"%string Web.ALLOWED_EXT) by (simpl; tauto).
  assert (H3 : (1000 <= 4096)%nat) by lia.
  split; [tauto |].
  destruct (luminance_response one_pixel_model 4096 (Web.logo_request "light")
              (Web.mkState empty_store []) _ two_pixels 35 25 H0 H1 ltac:(discriminate) H2
              eq_refl eq_refl H3 eq_refl)
    as (_ & L & _).
  exact (L eq_refl).
Defined.

Lemma get_session_some loadable name st s st1 :
  get_session loadable name st = (Some s, st1) -> cache st1 !! name = Some s.
Proof.
  unfold get_session, new_session.
  destruct (cache st !! name) as [s0 |] eqn:Hc.
  - intros [= <- <-]. exact Hc.
  - destruct (loadable name); [| discriminate].
    simpl. rewrite lookup_insert_eq. intros [= <- <-]. simpl. apply lookup_insert_eq.
Qed.

(** X9. In AI mode a request that passes the checks and whose threshold
    and softness are integers is answered 500 both when the model cannot
    be loaded and when the segmentation itself fails; in the first case
    nothing is cached, in the second the model that was loaded stays in
    the cache for the next request. When both succeed the answer is the
    model's picture brought to RGBA and to the size of the upload. *)
Theorem ai_response (env : Env) (MAX_FILE_BYTES : nat) (req : Web.Request)
  (st : Web.State) (f : Web.Upload) (img : Image) (t s : Z) :
  (Web.content_length req <= Web.MAX_CONTENT_LENGTH MAX_FILE_BYTES)%nat ->
  Web.file req = Some f -> Web.filename f <> ""%string ->
  In (Web.suffix f) Web.ALLOWED_EXT ->
  Web.form_threshold req = Some t -> Web.form_softness req = Some s ->
  (Web.raw_len f <= MAX_FILE_BYTES)%nat ->
  Web.opened f = Some img -> Web.form_mode req = "ai"%string ->
  let model := Web.form_model req in
  let called := Web.calls st ++ [Web.CallAi model] in
  (cache (Web.sessions st) !! model = None -> loadable env model = false ->
   Web.process env MAX_FILE_BYTES req st
   = (Web.mkResponse 500 Web.ProcessingFailed, Web.mkState (Web.sessions st) called)) /\
  (forall session st1,
     get_session (loadable env) model (Web.sessions st) = (Some session, st1) ->
     cache st1 !! model = Some session /\
     match rembg_remove env img (Some session) (Web.form_alpha req) 240 10 10 with
     | None =>
         Web.process env MAX_FILE_BYTES req st
         = (Web.mkResponse 500 Web.ProcessingFailed, Web.mkState st1 called)
     | Some result =>
         Web.process env MAX_FILE_BYTES req st
         = (Web.mkResponse 200 (Web.Png (normalise env img result)
                                        (Web.stem f ++ "_rmbg.png")),
            Web.mkState st1 called)
     end).
Proof.
  intros Hc Hf Hn Hs Ht Hso Hl Ho Hm. cbv zeta.
  apply String.eqb_neq in Hn. apply allowed_suffix in Hs. apply Nat.ltb_ge in Hc, Hl.
  split.
  - intros Hca Hload. unfold Web.process. rewrite Hc, Hf, Hn, Hs, Ht, Hso, Hl, Ho, Hm. simpl.
    unfold Web.remove_ai_bg, get_session, new_session. simpl.
    rewrite Hca, Hload. reflexivity.
  - intros session st1 Hg.
    split; [exact (get_session_some _ _ _ _ _ Hg) |].
    destruct (rembg_remove env img (Some session) (Web.form_alpha req) 240 10 10)
      as [result |] eqn:Hr.
    + unfold Web.process. rewrite Hc, Hf, Hn, Hs, Ht, Hso, Hl, Ho, Hm. simpl.
      unfold Web.remove_ai_bg. simpl. rewrite Hg, Hr.
      rewrite decide_True by apply size_normalise. reflexivity.
    + unfold Web.process. rewrite Hc, Hf, Hn, Hs, Ht, Hso, Hl, Ho, Hm. simpl.
      unfold Web.remove_ai_bg. simpl. rewrite Hg, Hr. reflexivity.
Qed.

Lemma ai_response_witness :
  ((Web.content_length (Web.logo_request "ai") <= Web.MAX_CONTENT_LENGTH 4096)%nat /\
   Web.file (Web.logo_request "ai")
   = Some (Web.mkUpload "logo.png" ".png" "logo" 1000 (Some two_pixels) true) /\
   In ".png"%string Web.ALLOWED_EXT /\ (1000 <= 4096)%nat) /\
  Web.status (fst (Web.process one_pixel_model 4096 (Web.logo_request "ai")
                               (Web.mkState empty_store []))) = 200%nat.
Proof.
  assert (H0 : (Web.content_length (Web.logo_request "ai")
                <= Web.MAX_CONTENT_LENGTH 4096)%nat) by (vm_compute; lia).
  assert (H1 : Web.file (Web.logo_request "ai")
               = Some (Web.mkUpload "logo.png" ".png" "logo" 1000 (Some two_pixels) true))
    by reflexivity.
  assert (H2 : In ".png"%string Web.ALLOWED_EXT) by (simpl; tauto).
  assert (H3 : (1000 <= 4096)%nat) by lia.
  split; [tauto |].
  destruct (ai_response one_pixel_model 4096 (Web.logo_request "ai")
              (Web.mkState empty_store []) _ two_pixels 35 25 H0 H1 ltac:(discriminate) H2
              eq_refl eq_refl H3 eq_refl eq_refl) as [_ A].
  destruct (run_alone (fun _ => true) "silueta" empty_store [] eq_refl eq_refl) as [G _].
  destruct (A _ _ G) as [_ R]. simpl in R. rewrite R. reflexivity.
Defined.

(** ** The batch worker and the queue *)

Import Desktop.






Import Queue.

Lemma existsb_eqb_In (p : string) (l : list string) :
  existsb (String.eqb p) l = true <-> In p l.
Proof.
  rewrite existsb_exists. split.
  - intros (x & Hx & E). apply String.eqb_eq in E. subst x. exact Hx.
  - intros H. exists p. split; [exact H | apply String.eqb_refl].
Qed.

Lemma NoDup_snoc (l : list string) (p : string) :
  List.NoDup l -> ~ In p l -> List.NoDup (l ++ [p]).
Proof.
  induction l as [| a l IH]; intros Hn Hp; simpl.
  - constructor; [intros [] | constructor].
  - inversion Hn as [| ? ? Ha Hl]; subst. constructor.
    + rewrite in_app_iff. simpl. intros [H | [H | []]]; [exact (Ha H) |].
      apply Hp. left. symmetry. exact H.
    + apply IH; [exact Hl |]. intros H. apply Hp. right. exact H.
Qed.

Lemma dup_spec (p : string) (files : list string) :
  (fst (_dup p files) = true <-> In p files) /\
  snd (_dup p files) = (if fst (_dup p files) then files else files ++ [p]).
Proof.
  unfold _dup. destruct (existsb (String.eqb p) files) eqn:E; simpl.
  - apply existsb_eqb_In in E. tauto.
  - split; [| reflexivity]. split; [discriminate |].
    intros H. apply existsb_eqb_In in H. congruence.
Qed.

Lemma count_added_spec (suffix : string -> string) (chosen files : list string) :
  List.NoDup files ->
  exists new,
    snd (count_added suffix chosen files) = files ++ new /\
    fst (count_added suffix chosen files) = length new /\
    List.NoDup (files ++ new) /\
    (forall p, In p new -> In p chosen /\ In (suffix p) SUPPORTED /\ ~ In p files) /\
    (forall p, In p chosen -> In (suffix p) SUPPORTED -> In p (files ++ new)).
Proof.
  revert files. induction chosen as [| f rest IH]; intros files Hn.
  - exists []. cbn [count_added fst snd length]. rewrite app_nil_r.
    split; [reflexivity |]. split; [reflexivity |]. split; [exact Hn |].
    split; [intros p [] |]. intros p [].
  - cbn [count_added].
    destruct (existsb (String.eqb (suffix f)) SUPPORTED) eqn:Es.
    + apply existsb_eqb_In in Es.
      destruct (dup_spec f files) as [Hd Hf].
      destruct (_dup f files) as [dup files1] eqn:Ed. cbn [fst snd] in Hd, Hf.
      destruct dup.
      * subst files1. destruct (IH files Hn) as (new & E1 & E2 & N & A & B).
        destruct (count_added suffix rest files) as [added files2]. cbn [fst snd] in *.
        exists new. split; [exact E1 |]. split; [exact E2 |]. split; [exact N |]. split.
        -- intros p Hp. destruct (A p Hp) as (H1 & H2 & H3).
           split; [right; exact H1 |]. split; assumption.
        -- intros p [<- | Hp] Hs; [apply in_app_iff; left; apply Hd; reflexivity |].
           apply B; assumption.
      * assert (Hnf : ~ In f files) by (intros H; apply Hd in H; discriminate).
        subst files1.
        destruct (IH (files ++ [f]) (NoDup_snoc _ _ Hn Hnf)) as (new & E1 & E2 & N & A & B).
        destruct (count_added suffix rest (files ++ [f])) as [added files2].
        cbn [fst snd] in *.
        exists (f :: new). rewrite <- app_assoc in E1, N.
        split; [exact E1 |]. split; [cbn [length]; congruence |]. split; [exact N |]. split.
        -- intros p [<- | Hp].
           ++ split; [left; reflexivity |]. split; assumption.
           ++ destruct (A p Hp) as (H1 & H2 & H3).
              split; [right; exact H1 |]. split; [exact H2 |].
              intros H. apply H3, in_app_iff. left. exact H.
        -- intros p [<- | Hp] Hs; [apply in_app_iff; right; left; reflexivity |].
           specialize (B p Hp Hs). rewrite <- app_assoc in B. exact B.
    + destruct (IH files Hn) as (new & E1 & E2 & N & A & B).
      exists new. split; [exact E1 |]. split; [exact E2 |]. split; [exact N |]. split.
      * intros p Hp. destruct (A p Hp) as (H1 & H2 & H3).
        split; [right; exact H1 |]. split; assumption.
      * intros p [<- | Hp] Hs; [| apply B; assumption].
        apply existsb_eqb_In in Hs. congruence.
Qed.

(** X11. Picking files keeps the queue free of duplicates: the files queued
    before stay in place, the new ones follow; each new one was chosen
    in the dialog, has a supported suffix and was not queued before;
    every chosen file with a supported suffix is queued afterwards; and
    the number logged is the number of files the queue has grown by.
    A cancelled dialog changes nothing. *)
Theorem pick_files_queue (suffix : string -> string) (chosen files : list string) :
  List.NoDup files ->
  let logged := fst (_pick_files suffix chosen files) in
  let files' := snd (_pick_files suffix chosen files) in
  List.NoDup files' /\
  (chosen = [] -> logged = None /\ files' = files) /\
  exists new,
    files' = files ++ new /\
    (chosen <> [] -> logged = Some (length new)) /\
    (forall p, In p new -> In p chosen /\ In (suffix p) SUPPORTED /\ ~ In p files) /\
    (forall p, In p chosen -> In (suffix p) SUPPORTED -> In p files').
Proof.
  intros Hn. cbv zeta.
  destruct (count_added_spec suffix chosen files Hn) as (new & E1 & E2 & N & A & B).
  unfold _pick_files. destruct chosen as [| f rest].
  - cbn [fst snd]. split; [exact Hn |]. split; [intros _; split; reflexivity |].
    exists []. rewrite app_nil_r. split; [reflexivity |].
    split; [intros H; exfalso; apply H; reflexivity |].
    split; [intros p [] |]. intros p [].
  - destruct (count_added suffix (f :: rest) files) as [added files2]. cbn [fst snd] in *.
    subst files2 added. split; [exact N |]. split; [discriminate |].
    exists new. split; [reflexivity |]. split; [intros _; reflexivity |].
    split; [exact A | exact B].
Qed.

(** Two files chosen twice over, one of them a text file, on a queue
    that holds the first already. *)
Lemma pick_files_queue_witness :
  List.NoDup ["a.png"%string] /\
  _pick_files (fun p => if String.eqb p "notes.txt" then ".txt" else ".png")%string
              ["a.png"; "b.png"; "notes.txt"; "b.png"]%string ["a.png"%string]
  = (Some 1%nat, ["a.png"; "b.png"]%string) /\
  List.NoDup ["a.png"; "b.png"]%string.
Proof.
  assert (H : List.NoDup ["a.png"%string]) by (constructor; [intros [] | constructor]).
  split; [exact H |]. split; [reflexivity |].
  exact (proj1 (pick_files_queue
                  (fun p => if String.eqb p "notes.txt" then ".txt" else ".png")%string
                  ["a.png"; "b.png"; "notes.txt"; "b.png"]%string ["a.png"%string] H)).
Defined.

(** ** [human_size] *)

Import Sizes.


(** A number [m * 2^e] with [|m| < 2^53] is a binary64 number. *)
Lemma rnd64_dyadic m e :
  (0 < m < 2 ^ 53)%Z -> (-1074 <= e)%Z ->
  rnd64 (inject_Z m * pow2 e) == inject_Z m * pow2 e.
Proof.
  intros Hm He. pose proof (pow2_pos e) as Pe.
  assert (Hq : 0 < inject_Z m) by (change 0 with (inject_Z 0); rewrite <- Zlt_Qlt; lia).
  assert (Hx : 0 < inject_Z m * pow2 e) by nra.
  unfold rnd64, round. rewrite (Qcompare_Gt _ _ Hx).
  apply (round_pos_exact 53 (-1074) _ m e Hx); [reflexivity |].
  assert (M : (mag (inject_Z m * pow2 e) <= 53 + e)%Z).
  { apply mag_lt_pow2; [exact Hx |]. rewrite pow2_add.
    apply Qmult_lt_compat_r; [exact Pe |].
    rewrite pow2_Z by lia. rewrite <- Zlt_Qlt. lia. }
  unfold cexp. lia.
Qed.

Lemma div_1024 m e :
  (0 < m < 2 ^ 53)%Z -> (-1064 <= e)%Z ->
  rnd64 (inject_Z m * pow2 e / 1024) == inject_Z m * pow2 (e - 10).
Proof.
  intros Hm He.
  assert (E : inject_Z m * pow2 e / 1024 == inject_Z m * pow2 (e - 10)).
  { rewrite pow2_sub. change (pow2 10) with 1024. field. }
  rewrite (round_comp 53 (-1074) _ _ E). apply rnd64_dyadic; [exact Hm | lia].
Qed.

Lemma tenths_le v : v < 1024 -> (tenths v <= 10240)%Z.
Proof.
  intros H. unfold tenths. apply rne_le_Z. change (inject_Z 10240) with 10240. lra.
Qed.

Lemma tenths_ge v : 1 <= v -> (10 <= tenths v)%Z.
Proof.
  intros H. unfold tenths. apply rne_ge_Z. change (inject_Z 10) with 10. lra.
Qed.

(** X12. For a size of [n] bytes below 2^53, [human_size] shows
    [n / 1024^k] with the [k]-th unit of B, KB, MB, GB, TB, rounded to
    the nearest tenth; the unit is the first one in which the size is
    below 1024 (TB when there is none). Before rounding the number is
    below 1024 for every unit but TB, so the number shown is at most
    1024.0, which is reached; from KB on it is at least 1.0. *)
Theorem human_size_unit (n : Z) :
  (0 < n < 2 ^ 53)%Z ->
  exists (k : nat) (v : Q),
    pick_unit ["B"; "KB"; "MB"; "GB"]%string (inject_Z n)
    = (v, nth k ["B"; "KB"; "MB"; "GB"; "TB"]%string ""%string) /\
    human_size n = fmt1 v (nth k ["B"; "KB"; "MB"; "GB"; "TB"]%string ""%string) /\
    (k <= 4)%nat /\
    v * inject_Z (1024 ^ Z.of_nat k) == inject_Z n /\
    ((k < 4)%nat -> v < 1024 /\ (tenths v <= 10240)%Z) /\
    ((0 < k)%nat -> 1 <= v /\ (10 <= tenths v)%Z) /\
    Qabs (inject_Z (tenths v) - v * 10) <= 1 # 2.
Proof.
  intros Hn. unfold human_size. cbn [pick_unit].
  set (N := inject_Z n).
  set (V1 := rnd64 (N / 1024)). set (V2 := rnd64 (V1 / 1024)).
  set (V3 := rnd64 (V2 / 1024)). set (V4 := rnd64 (V3 / 1024)).
  assert (E0 : N == N * pow2 0) by (change (pow2 0) with 1; ring).
  assert (E1 : V1 == N * (1 # 1024)).
  { unfold V1. rewrite (round_comp 53 (-1074) _ (N * pow2 0 / 1024))
      by (rewrite <- E0; reflexivity).
    unfold N. rewrite (div_1024 n 0 Hn) by lia. reflexivity. }
  assert (E2 : V2 == N * (1 # 1048576)).
  { unfold V2. rewrite (round_comp 53 (-1074) _ (N * pow2 (-10) / 1024))
      by (rewrite E1; reflexivity).
    unfold N. rewrite (div_1024 n (-10) Hn) by lia. reflexivity. }
  assert (E3 : V3 == N * (1 # 1073741824)).
  { unfold V3. rewrite (round_comp 53 (-1074) _ (N * pow2 (-20) / 1024))
      by (rewrite E2; reflexivity).
    unfold N. rewrite (div_1024 n (-20) Hn) by lia. reflexivity. }
  assert (E4 : V4 == N * (1 # 1099511627776)).
  { unfold V4. rewrite (round_comp 53 (-1074) _ (N * pow2 (-30) / 1024))
      by (rewrite E3; reflexivity).
    unfold N. rewrite (div_1024 n (-30) Hn) by lia. reflexivity. }
  assert (No : forall x, Qlt_bool x 1024 = false -> 1024 <= x).
  { intros x H. apply Qnot_lt_le. intros C. apply Qlt_bool_iff in C. congruence. }
  assert (Lt : forall x, Qlt_bool x 1024 = true -> x < 1024 /\ (tenths x <= 10240)%Z).
  { intros x H. apply Qlt_bool_iff in H. split; [exact H | apply tenths_le, H]. }
  assert (Ge : forall x, 1 <= x -> 1 <= x /\ (10 <= tenths x)%Z).
  { intros x H. split; [exact H | apply tenths_ge, H]. }
  destruct (Qlt_bool N 1024) eqn:C0.
  { exists 0%nat, N. split; [reflexivity |]. split; [reflexivity |]. split; [lia |].
    split; [change (inject_Z (1024 ^ Z.of_nat 0)) with 1; ring |].
    split; [intros _; apply Lt, C0 |]. split; [lia | apply rne_close]. }
  apply No in C0. fold V1.
  destruct (Qlt_bool V1 1024) eqn:C1.
  { exists 1%nat, V1. split; [reflexivity |]. split; [reflexivity |]. split; [lia |].
    split; [change (inject_Z (1024 ^ Z.of_nat 1)) with (1024 # 1); rewrite E1; ring |].
    split; [intros _; apply Lt, C1 |].
    split; [intros _; apply Ge; rewrite E1; lra | apply rne_close]. }
  apply No in C1. fold V2.
  destruct (Qlt_bool V2 1024) eqn:C2.
  { exists 2%nat, V2. split; [reflexivity |]. split; [reflexivity |]. split; [lia |].
    split; [change (inject_Z (1024 ^ Z.of_nat 2)) with (1048576 # 1); rewrite E2; ring |].
    split; [intros _; apply Lt, C2 |].
    split; [intros _; apply Ge; rewrite E2; rewrite E1 in C1; lra | apply rne_close]. }
  apply No in C2. fold V3.
  destruct (Qlt_bool V3 1024) eqn:C3.
  { exists 3%nat, V3. split; [reflexivity |]. split; [reflexivity |]. split; [lia |].
    split; [change (inject_Z (1024 ^ Z.of_nat 3)) with (1073741824 # 1); rewrite E3; ring |].
    split; [intros _; apply Lt, C3 |].
    split; [intros _; apply Ge; rewrite E3; rewrite E2 in C2; lra | apply rne_close]. }
  apply No in C3. fold V4.
  exists 4%nat, V4. split; [reflexivity |]. split; [reflexivity |]. split; [lia |].
  split; [change (inject_Z (1024 ^ Z.of_nat 4)) with (1099511627776 # 1); rewrite E4; ring |].
  split; [lia |].
  split; [intros _; apply Ge; rewrite E4; rewrite E3 in C3; lra | apply rne_close].
Qed.

(** One byte short of a megabyte: 1023.999 KB is shown as 1024.0 KB. *)
Lemma human_size_unit_witness :
  (0 < 1048575 < 2 ^ 53)%Z /\
  human_size 1048575 = "1024.0 KB"%string /\
  exists (k : nat) (v : Q),
    pick_unit ["B"; "KB"; "MB"; "GB"]%string (inject_Z 1048575)
    = (v, nth k ["B"; "KB"; "MB"; "GB"; "TB"]%string ""%string) /\
    human_size 1048575 = fmt1 v (nth k ["B"; "KB"; "MB"; "GB"; "TB"]%string ""%string) /\
    (k <= 4)%nat /\
    v * inject_Z (1024 ^ Z.of_nat k) == inject_Z 1048575 /\
    ((k < 4)%nat -> v < 1024 /\ (tenths v <= 10240)%Z) /\
    ((0 < k)%nat -> 1 <= v /\ (10 <= tenths v)%Z) /\
    Qabs (inject_Z (tenths v) - v * 10) <= 1 # 2.
Proof.
  split; [lia |]. split; [vm_compute; reflexivity |].
  apply (human_size_unit 1048575). lia.
Defined.
